(** * docker-network-viz: topology construction, reachability and tree rendering

    A shallow embedding of the Go packages [internal/models],
    [internal/docker] (container.go), [internal/output] and of
    [removeAliasesFromContainers] from [cmd/visualize.go].

    Conventions of the embedding.
    - A Go [string] is a byte sequence; it is a [string] here (a sequence of
      8-bit [ascii]), and Go's [<] on strings is the byte-wise lexicographic
      order [String.compare].
    - A Go slice that is only read, or only grown by [append] through the one
      variable that holds it, is a [list]; a nil slice and an empty slice are
      both [[]] (the code only ranges over slices and takes their [len]).
    - A method with a pointer receiver that mutates it returns the new value
      of the receiver next to its result.
    - A Go map that is built and looked up is a [gmap]; a Go map that is
      ranged over is the list of its entries in the order of that iteration
      (Go leaves the order unspecified, so every order is covered; a second
      loop over the same map may take another order, see
      [fill_entries_order]).
    - [sort.Strings] is [merge_sort]: the order of strings is total and
      antisymmetric, so a sorted permutation is unique and the sorting
      algorithm is not observable ([sort_strings_unique]).
    - [sort.Slice] by [Name] can be observed where two entries of one name
      differ. It is the insertion sort that package sort runs on a slice of
      at most 12 elements, which keeps entries of one name in the order in
      which they come ([sort_by_name_stable]). On a longer slice package sort
      may arrange such entries otherwise; the result is then the one of the
      code where entries of one name are the same entry, as they are in the
      buckets of the builder ([bucket_sort_unique]). *)

From stdpp Require Import base strings list sorting gmap.


(** ** Package models *)

Module models.

(** [type ContainerInfo struct { Name string; Aliases []string; Networks []string }] *)
Record ContainerInfo : Type := mkContainerInfo {
  Name : string;
  Aliases : list string;
  Networks : list string
}.

Global Instance ContainerInfo_eq_dec : EqDecision ContainerInfo.
Proof. solve_decision. Defined.

(** The zero value of the struct. *)
Global Instance ContainerInfo_inhabited : Inhabited ContainerInfo :=
  populate (mkContainerInfo "" [] []).

Definition NewContainerInfo (name : string) : ContainerInfo :=
  {| Name := name; Aliases := []; Networks := [] |}.

(** The loop [for _, existing := range xs { if existing == v { return ... } }]
    shared by the four membership methods: [true] when the early return is
    taken. *)
Fixpoint scan (xs : list string) (v : string) : bool :=
  match xs with
  | [] => false
  | existing :: rest => if String.eqb existing v then true else scan rest v
  end.

(** [func (c *ContainerInfo) AddAlias(alias string) bool] *)
Definition AddAlias (c : ContainerInfo) (alias : string) : bool * ContainerInfo :=
  if scan (Aliases c) alias then (false, c)
  else (true, {| Name := Name c;
                 Aliases := Aliases c ++ [alias];
                 Networks := Networks c |}).

(** [func (c *ContainerInfo) AddNetwork(network string) bool] *)
Definition AddNetwork (c : ContainerInfo) (network : string) : bool * ContainerInfo :=
  if scan (Networks c) network then (false, c)
  else (true, {| Name := Name c;
                 Aliases := Aliases c;
                 Networks := Networks c ++ [network] |}).

(** [func (c *ContainerInfo) HasNetwork(network string) bool] *)
Definition HasNetwork (c : ContainerInfo) (network : string) : bool :=
  scan (Networks c) network.

(** [func (c *ContainerInfo) HasAlias(alias string) bool] *)
Definition HasAlias (c : ContainerInfo) (alias : string) : bool :=
  scan (Aliases c) alias.

(** [sort.Strings] *)
Definition sort_strings (xs : list string) : list string :=
  merge_sort String.le xs.

(** [func (c *ContainerInfo) SortedNetworks() []string] *)
Definition SortedNetworks (c : ContainerInfo) : list string :=
  sort_strings (Networks c).

(** [func (c *ContainerInfo) SortedAliases() []string] *)
Definition SortedAliases (c : ContainerInfo) : list string :=
  sort_strings (Aliases c).

Definition NetworkCount (c : ContainerInfo) : nat := length (Networks c).
Definition AliasCount (c : ContainerInfo) : nat := length (Aliases c).

(** [func (c *ContainerInfo) Clone() *ContainerInfo] *)
Definition Clone (c : ContainerInfo) : ContainerInfo :=
  {| Name := Name c; Aliases := Aliases c; Networks := Networks c |}.

(** [type NetworkInfo struct { Name string; Driver string }] *)
Module NetworkInfo.
Record t : Type := mk { Name : string; Driver : string }.
End NetworkInfo.

Definition NewNetworkInfo (name driver : string) : NetworkInfo.t :=
  NetworkInfo.mk name driver.

End models.

Import models.

(** ** Package docker (container.go) *)

Module docker.

(** [network.EndpointSettings]; the builders read its [Aliases] only. A nil
    or absent alias slice is [[]]. *)
Record EndpointSettings : Type := mkEndpointSettings {
  EndpointAliases : list string
}.

(** [types.Container]; the builders read [Names] and
    [NetworkSettings.Networks] only. The latter is a
    [map[string]*network.EndpointSettings] that is only ranged over: it is
    the list of its entries in iteration order, a nil pointer being [None].
    [NetworkSettings] itself is taken to be non-nil, as the Docker API
    returns it (see TestError_NilNetworkSettings). *)
Record Container : Type := mkContainer {
  Names : list string;
  NetworkSettings : list (string * option EndpointSettings)
}.

(** The keys of a Go map are pairwise distinct. *)
Definition wf_container (cont : Container) : Prop :=
  NoDup (NetworkSettings cont).*1.

(** [strings.HasPrefix] and [strings.TrimPrefix]:
    [if HasPrefix(s, prefix) { return s[len(prefix):] }; return s]. *)
Definition HasPrefix (s prefix : string) : bool := String.prefix prefix s.

Definition TrimPrefix (s prefix : string) : string :=
  if HasPrefix s prefix
  then String.substring (String.length prefix)
                        (String.length s - String.length prefix) s
  else s.

(** [func sanitizeContainerName(names []string) string] *)
Definition sanitizeContainerName (names : list string) : string :=
  match names with
  | [] => ""
  | first :: _ => TrimPrefix first "/"
  end.

(** [for _, alias := range netSettings.Aliases { ci.AddAlias(alias) }] *)
Definition add_aliases (ci : ContainerInfo) (aliases : list string) : ContainerInfo :=
  fold_left (λ ci alias, (AddAlias ci alias).2) aliases ci.

(** The body of [for netName, netSettings := range cont.NetworkSettings.Networks]. *)
Definition add_endpoint (ci : ContainerInfo)
    (entry : string * option EndpointSettings) : ContainerInfo :=
  let ci := (AddNetwork ci entry.1).2 in
  match entry.2 with
  | Some netSettings => add_aliases ci (EndpointAliases netSettings)
  | None => ci
  end.

(** [func ConvertToContainerInfo(cont types.Container) *models.ContainerInfo] *)
Definition ConvertToContainerInfo (cont : Container) : ContainerInfo :=
  let name := sanitizeContainerName (Names cont) in
  let ci := NewContainerInfo name in
  fold_left add_endpoint (NetworkSettings cont) ci.

(** [func (c *Client) BuildContainerMap(containers []types.Container)
      map[string]*models.ContainerInfo].
    The pointers stored in the map are to structs that nothing mutates once
    they are stored, so the map holds the structs. *)
Definition BuildContainerMap (containers : list Container)
    : gmap string ContainerInfo :=
  fold_left
    (λ containerMap cont,
       let name := sanitizeContainerName (Names cont) in
       let ci := NewContainerInfo name in
       let ci := fold_left add_endpoint (NetworkSettings cont) ci in
       <[name := ci]> containerMap)
    containers ∅.

(** [networkToContainers[netName] = append(networkToContainers[netName], *ci)];
    a missing key reads as the nil slice. *)
Definition append_bucket (ci : ContainerInfo)
    (networkToContainers : gmap string (list ContainerInfo))
    (netName : string) : gmap string (list ContainerInfo) :=
  <[netName := default [] (networkToContainers !! netName) ++ [ci]]>
    networkToContainers.

(** The first loop of [BuildNetworkToContainersMap]. [containerMap[name]] is
    a pointer; it is never nil here ([BuildContainerMap_lookup_is_Some]),
    so the zero struct that stands for the miss is never copied. *)
Definition fill_buckets (containerMap : gmap string ContainerInfo)
    (containers : list Container) : gmap string (list ContainerInfo) :=
  fold_left
    (λ networkToContainers cont,
       let name := sanitizeContainerName (Names cont) in
       let ci := containerMap !!! name in
       fold_left (λ m entry, append_bucket ci m entry.1)
                 (NetworkSettings cont) networkToContainers)
    containers ∅.

(** The comparison of [sort.Slice(containerList, func(i, j int) bool
    { return containerList[i].Name < containerList[j].Name })]: [a] may
    stand before [b] when [b] is not less than [a]. *)
Definition name_le (a b : ContainerInfo) : Prop := String.le (Name a) (Name b).

Global Instance name_le_dec : RelDecision name_le.
Proof. intros a b. unfold name_le. apply _. Defined.

(** The inner loop of the insertion sort, [for j := i; j > a &&
    less(j, j-1); j-- { swap(j, j-1) }], on the sorted part: the element
    moves down past the entries whose name is greater than its own and
    comes to stand behind those of a smaller or the same name. *)
Fixpoint insert_by_name (x : ContainerInfo) (sorted : list ContainerInfo)
    : list ContainerInfo :=
  match sorted with
  | [] => [x]
  | y :: rest =>
      if decide (name_le y x) then y :: insert_by_name x rest
      else x :: y :: rest
  end.

(** [sort.Slice(l, func(i, j int) bool { return l[i].Name < l[j].Name })]:
    the elements are taken from the first to the last and each is inserted
    into the sorted part before it. *)
Definition sort_by_name (l : list ContainerInfo) : list ContainerInfo :=
  fold_left (λ sorted x, insert_by_name x sorted) l [].

(** [func (c *Client) BuildNetworkToContainersMap(containers []types.Container)
      map[string][]models.ContainerInfo] *)
Definition BuildNetworkToContainersMap (containers : list Container)
    : gmap string (list ContainerInfo) :=
  let containerMap := BuildContainerMap containers in
  let networkToContainers := fill_buckets containerMap containers in
  sort_by_name <$> networkToContainers.

(** The bucket of a network, as a lookup [m[network]] reads it. *)
Definition bucket (m : gmap string (list ContainerInfo)) (network : string)
    : list ContainerInfo :=
  default [] (m !! network).

(** [func ConvertContainersToContainerInfos(containers []types.Container)
      []*models.ContainerInfo]. [make] fills the result with nil pointers,
    [None] here; the loop stores a pointer at every index. *)
Definition ConvertContainersToContainerInfos (containers : list Container)
    : list (option ContainerInfo) :=
  let result := replicate (length containers) None in
  fold_left
    (λ result '(i, cont), <[i := Some (ConvertToContainerInfo cont)]> result)
    (imap pair containers) result.

(** network.go. [network.Summary]; the conversions read [Name] and [Driver]
    only. *)
Record Summary : Type := mkSummary {
  SummaryName : string;
  SummaryDriver : string
}.

(** [func ConvertToNetworkInfo(net network.Summary) *models.NetworkInfo] *)
Definition ConvertToNetworkInfo (net : Summary) : NetworkInfo.t :=
  NewNetworkInfo (SummaryName net) (SummaryDriver net).

(** [func ConvertNetworksToNetworkInfos(networks []network.Summary)
      []*models.NetworkInfo] *)
Definition ConvertNetworksToNetworkInfos (networks : list Summary)
    : list (option NetworkInfo.t) :=
  let result := replicate (length networks) None in
  fold_left
    (λ result '(i, net), <[i := Some (ConvertToNetworkInfo net)]> result)
    (imap pair networks) result.

End docker.

Import docker.

(** ** Package output *)

Module output.

(** The line feed that ends every line. *)
Definition nl : string := String (Ascii.ascii_of_nat 10) "".

(** tree_symbols.go *)
Definition TreeBranch : string := "├──".
Definition TreeEnd : string := "└──".
Definition TreeVertical : string := "│   ".
Definition TreeSpace : string := "    ".

(** [func ReachableContainers(self, network string,
      netMap map[string][]models.ContainerInfo) []string] *)
Definition ReachableContainers (self network : string)
    (netMap : gmap string (list ContainerInfo)) : list string :=
  let result :=
    fold_left
      (λ result c,
         if negb (String.eqb (Name c) self) then result ++ [Name c] else result)
      (bucket netMap network) [] in
  sort_strings result.

(** color.go. The five colours of the package. *)
Inductive Color : Type :=
  colorNetwork | colorContainer | colorAlias | colorLabel | colorTree.

(** [ColorWriter]: the [enabled] flag that [NewColorWriter(w)] computes from
    the terminal and the configuration. The sink is threaded separately. *)
Record ColorWriter : Type := mkColorWriter { enabled : bool }.

(** [fmt.Fprintf(w, ...)]: the sink is the text written so far, and a write
    appends the formatted pieces. *)
Definition Fprintf (w : string) (pieces : list string) : string :=
  w +:+ String.concat "" pieces.

Section printers.

(** The method [Sprint] of a [color.Color] of github.com/fatih/color. *)
Variable Sprint : Color → string → string.

Definition paint (cw : ColorWriter) (k : Color) (text : string) : string :=
  if negb (enabled cw) then text else Sprint k text.

Definition Network (cw : ColorWriter) := paint cw colorNetwork.
Definition Container (cw : ColorWriter) := paint cw colorContainer.
Definition Alias (cw : ColorWriter) := paint cw colorAlias.
Definition Label (cw : ColorWriter) := paint cw colorLabel.
Definition Tree (cw : ColorWriter) := paint cw colorTree.

(** [func PrintNetworkTree(w io.Writer, net models.NetworkInfo,
      containers []models.ContainerInfo)]; [cw] is [NewColorWriter(w)].
    The sort is on a copy of [containers]; for containers of one name see
    [sort_by_name]. *)
Definition PrintNetworkTree (cw : ColorWriter) (w : string)
    (net : NetworkInfo.t) (containers : list ContainerInfo) : string :=
  let w := Fprintf w [Label cw "Network:"; " ";
                      Network cw (NetworkInfo.Name net); " (";
                      NetworkInfo.Driver net; ")"; nl] in
  if decide (length containers = 0) then
    Fprintf w [Tree cw TreeEnd; " (no containers)"; nl]
  else
    let sortedContainers := sort_by_name containers in
    fold_left
      (λ w '(i, c),
         let last := bool_decide (i = length sortedContainers - 1) in
         let prefix := if last then TreeEnd else TreeBranch in
         let indent := if last then TreeSpace else TreeVertical in
         let w := Fprintf w [Tree cw prefix; " "; Container cw (Name c); nl] in
         let sortedAliases := SortedAliases c in
         fold_left
           (λ w '(j, a),
              let aliasPrefix :=
                if bool_decide (j = length sortedAliases - 1)
                then TreeEnd else TreeBranch in
              Fprintf w [Tree cw indent; Tree cw aliasPrefix; " ";
                         Label cw "alias:"; " "; Alias cw a; nl])
           (imap pair sortedAliases) w)
      (imap pair sortedContainers) w.

(** [func PrintContainerTree(w io.Writer, c *models.ContainerInfo,
      netMap map[string][]models.ContainerInfo)]; [cw] is
    [NewColorWriter(w)]. *)
Definition PrintContainerTree (cw : ColorWriter) (w : string)
    (c : ContainerInfo) (netMap : gmap string (list ContainerInfo)) : string :=
  let w := Fprintf w [Label cw "Container:"; " "; Container cw (Name c); nl] in
  let sortedNetworks := sort_strings (Networks c) in
  fold_left
    (λ w '(i, net),
       let last := bool_decide (i = length sortedNetworks - 1) in
       let prefix := if last then TreeEnd else TreeBranch in
       let indent := if last then TreeSpace else TreeVertical in
       let w := Fprintf w [Tree cw prefix; " "; Label cw "Network:"; " ";
                           Network cw net; nl] in
       let w := Fprintf w [Tree cw indent; Tree cw TreeEnd; " ";
                           Label cw "connects to:"; nl] in
       let others := ReachableContainers (Name c) net netMap in
       if decide (length others = 0) then
         Fprintf w [Tree cw indent; "    "; Tree cw TreeEnd; " (none)"; nl]
       else
         fold_left
           (λ w '(j, o),
              let op :=
                if bool_decide (j = length others - 1)
                then TreeEnd else TreeBranch in
              Fprintf w [Tree cw indent; "    "; Tree cw op; " ";
                         Container cw o; nl])
           (imap pair others) w)
    (imap pair sortedNetworks) w.

End printers.

End output.

Import output.

(** ** Package cmd (visualize.go) *)

Module cmd.

(** [removeAliasesFromContainers] is claimed not to touch its argument, so
    it is modelled over a memory in which a slice is a header (array,
    offset, length) into a backing array and a [ContainerInfo] struct holds
    two such headers. Capacities are left out: the function appends to
    nothing. *)
Definition loc : Type := nat.

Record slice : Type := mkSlice { base : loc; offset : nat; len : nat }.

(** A [models.ContainerInfo] as it lies in memory. *)
Record ContainerInfoS : Type := mkContainerInfoS {
  sName : string;
  sAliases : slice;
  sNetworks : slice
}.

Record memory : Type := mkMemory {
  string_arrays : gmap loc (list string);
  info_arrays : gmap loc (list ContainerInfoS)
}.

(** The nil slice, and the zero value of the struct. *)
Definition nil_slice : slice := mkSlice 0 0 0.
Definition zero_info : ContainerInfoS := mkContainerInfoS "" nil_slice nil_slice.

(** The elements a slice header gives access to. *)
Definition read_strings (m : memory) (s : slice) : list string :=
  take (len s) (drop (offset s) (default [] (string_arrays m !! base s))).

Definition read_infos (m : memory) (s : slice) : list ContainerInfoS :=
  take (len s) (drop (offset s) (default [] (info_arrays m !! base s))).

(** A slice header of a well-formed program lies within its array. *)
Definition valid_infos (m : memory) (s : slice) : Prop :=
  ∃ arr, info_arrays m !! base s = Some arr ∧ offset s + len s ≤ length arr.

(** The value a struct in memory stands for, and the list of values a slice
    of structs stands for. *)
Definition load_info (m : memory) (c : ContainerInfoS) : ContainerInfo :=
  {| Name := sName c;
     Aliases := read_strings m (sAliases c);
     Networks := read_strings m (sNetworks c) |}.

Definition load_infos (m : memory) (s : slice) : list ContainerInfo :=
  load_info m <$> read_infos m s.

(** [make([]models.ContainerInfo, n)]: a new array of [n] zero structs. *)
Definition make_infos (m : memory) (n : nat) : slice * memory :=
  let l := fresh (dom (info_arrays m)) in
  (mkSlice l 0 n,
   {| string_arrays := string_arrays m;
      info_arrays := <[l := replicate n zero_info]> (info_arrays m) |}).

(** [s[i] = v], for [i] below [len s]. *)
Definition set_info (m : memory) (s : slice) (i : nat) (v : ContainerInfoS)
    : memory :=
  {| string_arrays := string_arrays m;
     info_arrays := alter (λ arr, <[offset s + i := v]> arr) (base s)
                          (info_arrays m) |}.

(** [[]string{}]: a slice of length zero, through which no element can be
    read; its base is never dereferenced. *)
Definition empty_strings : slice := mkSlice 0 0 0.

(** [func removeAliasesFromContainers(containers []models.ContainerInfo)
      []models.ContainerInfo].
    [for i, c := range containers] copies [containers[i]] into [c] at each
    round, from the memory as it is then. *)
Definition removeAliasesFromContainers (m : memory) (containers : slice)
    : slice * memory :=
  let '(result, m) := make_infos m (len containers) in
  let m :=
    fold_left
      (λ m i,
         match read_infos m containers !! i with
         | Some c =>
             set_info m result i
               {| sName := sName c;
                  sAliases := empty_strings;
                  sNetworks := sNetworks c |}
         | None => m
         end)
      (seq 0 (len containers)) m in
  (result, m).

(** [removeAliasesFromContainers] on the values that the slices stand for
    ([removeAliasesFromContainers_frame] relates the two): [make] gives a list
    of zero structs and the loop stores a struct at every index. *)
Definition removeAliasesFromContainers_values (containers : list ContainerInfo)
    : list ContainerInfo :=
  let result := replicate (length containers) (mkContainerInfo "" [] []) in
  fold_left
    (λ result '(i, c),
       <[i := {| Name := Name c; Aliases := []; Networks := Networks c |}]>
         result)
    (imap pair containers) result.

(** [fmt.Fprintln(w, ...)]: the operands separated by spaces, then a line
    feed. *)
Definition Fprintln (w : string) (operands : list string) : string :=
  w +:+ String.concat " " operands +:+ nl.

(** The three values that [printVisualization] reads from the configuration:
    [viper.GetString("only-network")], [viper.GetString("container")] and
    [viper.GetBool("no-aliases")]. *)
Record Flags : Type := mkFlags {
  onlyNetworkFlag : string;
  containerFlag : string;
  noAliasesFlag : bool
}.

Section visualization.

(** As in package output: the colour library and the colour writer that
    every printer call builds for the sink. *)
Variable Sprint : Color → string → string.
Variable cw : ColorWriter.

(** [func printVisualization(w io.Writer, networks []network.Summary,
      containerMap map[string]*models.ContainerInfo,
      networkToContainers map[string][]models.ContainerInfo) error].
    The error returned is always nil; the result here is the sink. The names
    of [containerMap] are collected in the order of a loop over the map and
    then sorted. *)
Definition printVisualization (flags : Flags) (w : string)
    (networks : list Summary)
    (containerMap : gmap string ContainerInfo)
    (networkToContainers : gmap string (list ContainerInfo)) : string :=
  let w := Fprintln w ["=== Networks ==="] in
  let w :=
    fold_left
      (λ w net,
         if negb (String.eqb (onlyNetworkFlag flags) "")
            && negb (String.eqb (SummaryName net) (onlyNetworkFlag flags))
         then w
         else
           let netInfo := NewNetworkInfo (SummaryName net) (SummaryDriver net) in
           let netContainers := bucket networkToContainers (SummaryName net) in
           let netContainers :=
             if noAliasesFlag flags
             then removeAliasesFromContainers_values netContainers
             else netContainers in
           let w := PrintNetworkTree Sprint cw w netInfo netContainers in
           Fprintln w [])
      networks w in
  let w := Fprintln w ["=== Containers (Reachability) ==="] in
  let containerNames :=
    fold_left (λ containerNames name, containerNames ++ [name])
              (map_to_list containerMap).*1 [] in
  let containerNames := sort_strings containerNames in
  fold_left
    (λ w name,
       if negb (String.eqb (containerFlag flags) "")
          && negb (String.eqb name (containerFlag flags))
       then w
       else
         let container := containerMap !!! name in
         let w := PrintContainerTree Sprint cw w container networkToContainers in
         Fprintln w [])
    containerNames w.

End visualization.

End cmd.

Import cmd.

(** ** Package models over a heap *)

(** [Clone] is documented to return a copy that can be modified without
    affecting the original. To state that, the methods are modelled here over
    a heap: a slice is a header (array, offset, length, capacity) into a
    backing array, a [ContainerInfo] is a struct of a name and two headers,
    and the methods take a pointer to the struct. *)
Module heap.

Definition loc : Type := nat.

Record slice : Type := mkSlice {
  sbase : loc;
  soff : nat;
  slen : nat;
  scap : nat
}.

Record ContainerInfoH : Type := mkInfo {
  hName : string;
  hAliases : slice;
  hNetworks : slice
}.

Record heap : Type := mkHeap {
  arrays : gmap loc (list string);
  structs : gmap loc ContainerInfoH
}.

(** The elements that a slice header gives access to. *)
Definition elements (h : heap) (s : slice) : list string :=
  take (slen s) (drop (soff s) (default [] (arrays h !! sbase s))).

(** A slice header of a well-formed program: its length is at most its
    capacity, and its capacity, unless zero, lies within its array. *)
Definition valid (h : heap) (s : slice) : Prop :=
  slen s ≤ scap s
  ∧ (scap s = 0
     ∨ ∃ arr, arrays h !! sbase s = Some arr ∧ soff s + scap s ≤ length arr).

(** [make([]string, n)]: a new array of [n] empty strings. *)
Definition make (h : heap) (n : nat) : slice * heap :=
  let l := fresh (dom (arrays h)) in
  (mkSlice l 0 n n,
   mkHeap (<[l := replicate n ""]> (arrays h)) (structs h)).

(** [copy(dst, src)]: the first [min(len(dst), len(src))] elements of [src]
    are written over those of [dst]. *)
Definition copy (h : heap) (dst src : slice) : heap :=
  let xs := take (slen dst) (elements h src) in
  mkHeap
    (alter (λ arr, take (soff dst) arr ++ xs
                   ++ drop (soff dst + length xs) arr)
           (sbase dst) (arrays h))
    (structs h).

(** [func (c *ContainerInfo) Clone() *ContainerInfo]; [None] is the nil
    pointer dereference. *)
Definition Clone (h : heap) (c : loc) : option (loc * heap) :=
  match structs h !! c with
  | None => None
  | Some ci =>
      let '(aliases, h) := make h (slen (hAliases ci)) in
      let h := copy h aliases (hAliases ci) in
      let '(networks, h) := make h (slen (hNetworks ci)) in
      let h := copy h networks (hNetworks ci) in
      let p := fresh (dom (structs h)) in
      Some (p, mkHeap (arrays h)
                 (<[p := mkInfo (hName ci) aliases networks]> (structs h)))
  end.

Section growth.

(** The capacity beyond the new length that the runtime gives to the array
    that [append] allocates when the given slice is full. *)
Variable spare : slice → nat.

(** [append(s, x)]: in place when the capacity allows, into a new array
    otherwise. *)
Definition append (h : heap) (s : slice) (x : string) : slice * heap :=
  if decide (slen s < scap s) then
    (mkSlice (sbase s) (soff s) (S (slen s)) (scap s),
     mkHeap (alter (λ arr, <[soff s + slen s := x]> arr) (sbase s) (arrays h))
            (structs h))
  else
    let l := fresh (dom (arrays h)) in
    (mkSlice l 0 (S (slen s)) (S (slen s) + spare s),
     mkHeap (<[l := elements h s ++ x :: replicate (spare s) ""]>
               (arrays h))
            (structs h)).

(** [func (c *ContainerInfo) AddAlias(alias string) bool] *)
Definition AddAlias (h : heap) (c : loc) (alias : string)
    : option (bool * heap) :=
  match structs h !! c with
  | None => None
  | Some ci =>
      if scan (elements h (hAliases ci)) alias then Some (false, h)
      else
        let '(s, h) := append h (hAliases ci) alias in
        Some (true,
              mkHeap (arrays h)
                (<[c := mkInfo (hName ci) s (hNetworks ci)]> (structs h)))
  end.

(** [func (c *ContainerInfo) AddNetwork(network string) bool] *)
Definition AddNetwork (h : heap) (c : loc) (network : string)
    : option (bool * heap) :=
  match structs h !! c with
  | None => None
  | Some ci =>
      if scan (elements h (hNetworks ci)) network then Some (false, h)
      else
        let '(s, h) := append h (hNetworks ci) network in
        Some (true,
              mkHeap (arrays h)
                (<[c := mkInfo (hName ci) (hAliases ci) s]> (structs h)))
  end.

End growth.

(** The value that the struct behind a pointer stands for. *)
Definition load (h : heap) (c : loc) : option ContainerInfo :=
  match structs h !! c with
  | None => None
  | Some ci =>
      Some {| Name := hName ci;
              Aliases := elements h (hAliases ci);
              Networks := elements h (hNetworks ci) |}
  end.

(** The pointer is to a struct whose two slices are valid. *)
Definition wf (h : heap) (c : loc) : Prop :=
  ∃ ci, structs h !! c = Some ci
        ∧ valid h (hAliases ci) ∧ valid h (hNetworks ci).

(** The two slices of a struct do not share an array: they lie in different
    arrays, or one of them has no capacity. *)
Definition separate (ci : ContainerInfoH) : Prop :=
  scap (hAliases ci) = 0 ∨ scap (hNetworks ci) = 0
  ∨ sbase (hAliases ci) ≠ sbase (hNetworks ci).

(** The slice [t] is apart from what [append] to the slice [s] may write to:
    [s] is full, so that [append] takes a new array, or [t] lies in another
    array, or [t] is empty. *)
Definition apart (s t : slice) : Prop :=
  ¬ slen s < scap s ∨ sbase t ≠ sbase s ∨ slen t = 0.

End heap.

(** ** Definitions that follow the specification *)

(** The resolved display name of a raw record. *)
Definition resolved_name (cont : docker.Container) : string :=
  sanitizeContainerName (Names cont).

(** The raw record declares a membership of the network. *)
Definition declares (network : string) (cont : docker.Container) : Prop :=
  network ∈ (NetworkSettings cont).*1.

Global Instance declares_dec network cont : Decision (declares network cont).
Proof. unfold declares. apply _. Defined.

(** The aliases that the entry of a network map carries. *)
Definition entry_aliases (entry : string * option EndpointSettings) : list string :=
  match entry.2 with
  | Some netSettings => EndpointAliases netSettings
  | None => []
  end.

(** The records of a list that resolve to a given name, in order. *)
Definition named (name : string) (containers : list docker.Container)
    : list docker.Container :=
  filter (λ cont, resolved_name cont = name) containers.

(** What the first loop of [BuildNetworkToContainersMap] appends to the
    bucket of a network: for every record in order, and for every entry of
    its network map under that network, one copy of the value that the
    finished container map holds for the record's resolved name. *)
Definition memberships (containerMap : gmap string ContainerInfo)
    (containers : list docker.Container) (network : string) : list ContainerInfo :=
  containers ≫= λ cont,
    (λ _, containerMap !!! resolved_name cont)
      <$> filter (λ entry, entry.1 = network) (NetworkSettings cont).

(** Two readings of one raw record: the same names and the same network
    map, whose entries a loop may meet in another order. *)
Definition same_record (c c' : docker.Container) : Prop :=
  Names c = Names c' ∧ NetworkSettings c ≡ₚ NetworkSettings c'.

(** Two infos that differ at most in the order of their networks and of
    their aliases. *)
Definition same_info (e e' : ContainerInfo) : Prop :=
  Name e = Name e' ∧ Networks e ≡ₚ Networks e' ∧ Aliases e ≡ₚ Aliases e'.

(** A Go map has a key only once a value is stored under it. *)
Definition nonempty {A} (l : list A) : option (list A) :=
  match l with [] => None | _ => Some l end.

(** The alias-stripping transform on values: name and networks kept, aliases
    emptied. *)
Definition strip_aliases (c : ContainerInfo) : ContainerInfo :=
  {| Name := Name c; Aliases := []; Networks := Networks c |}.

(** The struct that [removeAliasesFromContainers] stores for a struct [c]. *)
Definition stripped (c : ContainerInfoS) : ContainerInfoS :=
  {| sName := sName c; sAliases := empty_strings; sNetworks := sNetworks c |}.

(** [unlines]: every line followed by a line feed. *)
Definition unlines (ls : list string) : string :=
  String.concat "" ((λ l, l +:+ nl) <$> ls).

Section tree_lines.

(** The style function of the specification: category and text to text. *)
Variable style : Color → string → string.

(** The lines under "connects to:" for one network, given the continuation
    indent of the network and the line to show for an empty result. *)
Definition reach_lines (none_line : string → string) (indent : string)
    (others : list string) : list string :=
  match others with
  | [] => [none_line indent]
  | _ =>
      imap (λ j o,
              style colorTree indent +:+ "    " +:+
              style colorTree
                (if bool_decide (j = length others - 1)
                 then TreeEnd else TreeBranch) +:+
              " " +:+ style colorContainer o)
           others
  end.

(** The lines of the container tree. *)
Definition container_tree_lines (none_line : string → string)
    (c : ContainerInfo) (netMap : gmap string (list ContainerInfo))
    : list string :=
  let nets := sort_strings (Networks c) in
  (style colorLabel "Container:" +:+ " " +:+ style colorContainer (Name c))
  :: mjoin
       (imap
          (λ i net,
             let last := bool_decide (i = length nets - 1) in
             let indent := if last then TreeSpace else TreeVertical in
             [style colorTree (if last then TreeEnd else TreeBranch) +:+ " " +:+
                style colorLabel "Network:" +:+ " " +:+ style colorNetwork net;
              style colorTree indent +:+ style colorTree TreeEnd +:+ " " +:+
                style colorLabel "connects to:"]
             ++ reach_lines none_line indent
                  (ReachableContainers (Name c) net netMap))
          nets).

(** The lines of the network tree for a list of containers that is already
    in the order of the tree. *)
Definition network_tree_lines (net : NetworkInfo.t)
    (ordered : list ContainerInfo) : list string :=
  (style colorLabel "Network:" +:+ " " +:+
   style colorNetwork (NetworkInfo.Name net) +:+ " (" +:+
   NetworkInfo.Driver net +:+ ")")
  :: match ordered with
     | [] => [style colorTree TreeEnd +:+ " (no containers)"]
     | _ =>
       mjoin
         (imap
            (λ i c,
               let last := bool_decide (i = length ordered - 1) in
               let indent := if last then TreeSpace else TreeVertical in
               let aliases := SortedAliases c in
               (style colorTree (if last then TreeEnd else TreeBranch) +:+ " " +:+
                style colorContainer (Name c))
               :: imap
                    (λ j a,
                       style colorTree indent +:+
                       style colorTree
                         (if bool_decide (j = length aliases - 1)
                          then TreeEnd else TreeBranch) +:+
                       " " +:+ style colorLabel "alias:" +:+ " " +:+
                       style colorAlias a)
                    aliases)
            ordered)
     end.

(** The lines of the network tree without alias lines, for the names of the
    containers in the order of the tree. *)
Definition network_tree_lines_bare (net : NetworkInfo.t)
    (names : list string) : list string :=
  (style colorLabel "Network:" +:+ " " +:+
   style colorNetwork (NetworkInfo.Name net) +:+ " (" +:+
   NetworkInfo.Driver net +:+ ")")
  :: match names with
     | [] => [style colorTree TreeEnd +:+ " (no containers)"]
     | _ =>
       imap
         (λ i name,
            style colorTree
              (if bool_decide (i = length names - 1)
               then TreeEnd else TreeBranch) +:+
            " " +:+ style colorContainer name)
         names
     end.

(** The "(none)" line as the code writes it: end glyph, then the text. *)
Definition none_line_glyph (indent : string) : string :=
  style colorTree indent +:+ "    " +:+ style colorTree TreeEnd +:+ " (none)".

(** The "(none)" line as a bare line: four more spaces of indent, no glyph. *)
Definition none_line_bare (indent : string) : string :=
  style colorTree indent +:+ "    " +:+ "(none)".

End tree_lines.

Section visualization_blocks.

Variable Sprint : Color → string → string.
Variable cw : ColorWriter.

(** The networks that pass the filter of the only-network flag. *)
Definition shown_networks (flags : Flags) (networks : list Summary)
    : list Summary :=
  filter (λ net, onlyNetworkFlag flags = ""
                 ∨ SummaryName net = onlyNetworkFlag flags) networks.

(** The container names that pass the filter of the container flag. *)
Definition shown_names (flags : Flags) (names : list string) : list string :=
  filter (λ name, containerFlag flags = "" ∨ name = containerFlag flags) names.

(** What is written for one network: its tree, of the bucket as it is or
    without the aliases, and an empty line. *)
Definition network_block (flags : Flags)
    (networkToContainers : gmap string (list ContainerInfo)) (net : Summary)
    : string :=
  PrintNetworkTree Sprint cw ""
    (NetworkInfo.mk (SummaryName net) (SummaryDriver net))
    (if noAliasesFlag flags
     then strip_aliases <$> bucket networkToContainers (SummaryName net)
     else bucket networkToContainers (SummaryName net))
  +:+ nl.

(** What is written for one container name: the tree of the container that
    the map holds under the name, and an empty line. *)
Definition container_block (containerMap : gmap string ContainerInfo)
    (networkToContainers : gmap string (list ContainerInfo)) (name : string)
    : string :=
  PrintContainerTree Sprint cw "" (containerMap !!! name) networkToContainers
  +:+ nl.

End visualization_blocks.

(** ** Example inputs *)

(** An entry of a record's network map with the given aliases. *)
Definition member (network : string) (aliases : list string)
    : string * option EndpointSettings :=
  (network, Some (mkEndpointSettings aliases)).

(** Scenario A of the specification. *)
Definition scenario_A : list docker.Container :=
  [ mkContainer ["/api"] [member "frontend" []; member "backend" []];
    mkContainer ["/web_app"] [member "frontend" []];
    mkContainer ["/postgres"] [member "backend" []];
    mkContainer ["/redis"] [member "backend" []] ].

(** Scenario A with the records in the reverse order and the network map of
    "api" ranged over in the other order. *)
Definition scenario_A_reread : list docker.Container :=
  [ mkContainer ["/redis"] [member "backend" []];
    mkContainer ["/postgres"] [member "backend" []];
    mkContainer ["/web_app"] [member "frontend" []];
    mkContainer ["/api"] [member "backend" []; member "frontend" []] ].

(** The bucket of "backend" in Scenario A. *)
Definition backend_bucket : list ContainerInfo :=
  [ {| Name := "api"; Aliases := []; Networks := ["frontend"; "backend"] |};
    {| Name := "postgres"; Aliases := []; Networks := ["backend"] |};
    {| Name := "redis"; Aliases := []; Networks := ["backend"] |} ].

(** Two records that resolve to the same name "a". *)
Definition clash_first : docker.Container :=
  mkContainer ["/a"] [member "n0" ["x"]; member "n1" []].

Definition clash_second : docker.Container :=
  mkContainer ["/a"] [member "n1" []].

Definition clash : list docker.Container := [clash_first; clash_second].

(** The isolated container of TestPrintContainerTree_SingleNetworkNoReachability. *)
Definition isolated : ContainerInfo :=
  {| Name := "isolated"; Aliases := []; Networks := ["solo_network"] |}.

Definition solo_map : gmap string (list ContainerInfo) :=
  {[ "solo_network" := [ {| Name := "isolated"; Aliases := [];
                            Networks := ["solo_network"] |} ] ]}.

(** A colouring that changes nothing. *)
Definition plain (k : Color) (text : string) : string := text.

(** Scenario D of the specification: the container "web" with aliases "www"
    and "webapp" on the network "bridge", laid out in memory. *)
Definition scenario_D : memory :=
  {| string_arrays := {[ 1 := ["www"; "webapp"]; 2 := ["bridge"] ]};
     info_arrays := {[ 1 := [ {| sName := "web";
                                 sAliases := mkSlice 1 0 2;
                                 sNetworks := mkSlice 2 0 1 |} ] ]} |}.

Definition scenario_D_containers : slice := mkSlice 1 0 1.

(** A heap with the container "web" behind the pointer 1; its alias slice
    has room for one more element. *)
Definition heap_example : heap.heap :=
  heap.mkHeap
    {[ 1 := ["www"; "webapp"; ""]; 2 := ["bridge"] ]}
    {[ 1 := heap.mkInfo "web" (heap.mkSlice 1 0 2 3) (heap.mkSlice 2 0 1 1) ]}.

Definition web_value : ContainerInfo :=
  {| Name := "web"; Aliases := ["www"; "webapp"]; Networks := ["bridge"] |}.

(** The style function of a colour writer; the identity when colour is off. *)
Definition style_of (Sprint : Color → string → string) (cw : ColorWriter)
    : Color → string → string :=
  paint Sprint cw.


(** ** Facts about the model *)

Section scan_facts.

Lemma scan_elem_of (xs : list string) (v : string) :
  scan xs v = true ↔ v ∈ xs.
Proof.
  induction xs as [|x xs IH]; simpl.
  - split; [discriminate | intros H; inversion H].
  - destruct (String.eqb_spec x v) as [->|Hne].
    + split; [intros _; left | done].
    + rewrite IH. split; [by right |].
      intros H. apply elem_of_cons in H as [Heq|H]; [congruence | done].
Qed.

Lemma scan_app (xs ys : list string) (v : string) :
  scan (xs ++ ys) v = scan xs v || scan ys v.
Proof.
  induction xs as [|x xs IH]; simpl; [done|].
  by destruct (String.eqb x v).
Qed.

Lemma scan_snoc_same (xs : list string) (v : string) :
  scan (xs ++ [v]) v = true.
Proof.
  rewrite scan_app. simpl. rewrite String.eqb_refl. apply orb_true_r.
Qed.

End scan_facts.

(** ** The order of strings and the sorts *)

Section sorting_facts.

Lemma sort_strings_sorted (xs : list string) :
  StronglySorted String.le (sort_strings xs).
Proof. apply StronglySorted_merge_sort; apply _. Qed.

Lemma sort_strings_perm (xs : list string) : sort_strings xs ≡ₚ xs.
Proof. apply merge_sort_Permutation. Qed.

(** Whatever algorithm [sort.Strings] runs, its result is this one. *)
Lemma sort_strings_unique (xs ys : list string) :
  StronglySorted String.le ys → ys ≡ₚ xs → ys = sort_strings xs.
Proof.
  intros Hs Hp. apply (StronglySorted_unique String.le); [done | |].
  - apply sort_strings_sorted.
  - by rewrite sort_strings_perm.
Qed.

Lemma sort_strings_length (xs : list string) :
  length (sort_strings xs) = length xs.
Proof. by rewrite sort_strings_perm. Qed.

Lemma filter_none {A} (P : A → Prop) `{!∀ x, Decision (P x)} (l : list A) :
  (∀ x, x ∈ l → ¬ P x) → filter P l = [].
Proof.
  induction l as [|y l IH]; intros Hall; [done|].
  rewrite filter_cons_False by (apply Hall; left).
  apply IH. intros x Hx. apply Hall. by right.
Qed.

Global Instance name_le_trans : Transitive name_le.
Proof. intros a b c. unfold name_le. apply transitivity. Qed.

Global Instance name_le_total : Total name_le.
Proof. intros a b. unfold name_le. apply total, _. Qed.

Lemma insert_by_name_perm x l : insert_by_name x l ≡ₚ x :: l.
Proof.
  induction l as [|y l IH]; simpl; [done|].
  case_decide; [|done]. rewrite IH. apply Permutation_swap.
Qed.

Lemma insert_by_name_sorted x l :
  StronglySorted name_le l → StronglySorted name_le (insert_by_name x l).
Proof.
  induction 1 as [|y l Hs IH Hall]; simpl.
  - repeat constructor.
  - case_decide as Hyx.
    + constructor; [done|]. rewrite insert_by_name_perm. by constructor.
    + assert (name_le x y) as Hxy by (by destruct (total name_le x y)).
      constructor; [by constructor|]. constructor; [done|].
      eapply Forall_impl; [exact Hall|]. intros z Hz. by transitivity y.
Qed.

Lemma sort_by_name_from (l sorted : list ContainerInfo) :
  StronglySorted name_le sorted →
  StronglySorted name_le (fold_left (λ sorted x, insert_by_name x sorted) l sorted)
  ∧ fold_left (λ sorted x, insert_by_name x sorted) l sorted ≡ₚ sorted ++ l.
Proof.
  revert sorted. induction l as [|x l IH]; intros sorted Hs; simpl.
  - by rewrite app_nil_r.
  - destruct (IH (insert_by_name x sorted)) as [H1 H2];
      [by apply insert_by_name_sorted|].
    split; [done|]. rewrite H2, insert_by_name_perm.
    apply Permutation_middle.
Qed.

Lemma sort_by_name_sorted (l : list ContainerInfo) :
  StronglySorted name_le (sort_by_name l).
Proof. apply (sort_by_name_from l []). constructor. Qed.

Lemma sort_by_name_perm (l : list ContainerInfo) : sort_by_name l ≡ₚ l.
Proof. apply (sort_by_name_from l []). constructor. Qed.

Lemma sort_by_name_nil_inv (l : list ContainerInfo) :
  sort_by_name l = [] → l = [].
Proof.
  intros H. apply Permutation_nil_r. rewrite <- H. symmetry.
  apply sort_by_name_perm.
Qed.

(** The insertion sort keeps the entries of one name in their order. *)
Lemma insert_by_name_stable (n : string) x l :
  StronglySorted name_le l →
  filter (λ e, Name e = n) (insert_by_name x l)
  = filter (λ e, Name e = n) (l ++ [x]).
Proof.
  induction 1 as [|y l Hs IH Hall]; simpl; [done|].
  case_decide as Hyx.
  - by rewrite !filter_cons, IH.
  - assert (∀ z, z ∈ y :: l → Name z ≠ Name x) as Hlater.
    { intros z Hz Heq. apply Hyx. unfold name_le.
      apply elem_of_cons in Hz as [->|Hz]; [by rewrite Heq|].
      rewrite Forall_forall in Hall. specialize (Hall z Hz).
      unfold name_le in Hall. by rewrite <- Heq. }
    change (y :: l ++ [x]) with ((y :: l) ++ [x]).
    rewrite filter_app.
    destruct (decide (Name x = n)) as [Hx|Hx].
    + rewrite (filter_cons_True _ x), (filter_cons_True _ x []) by done.
      rewrite (filter_none _ (y :: l)); [done|].
      intros z Hz Hzn. apply (Hlater z Hz). congruence.
    + rewrite (filter_cons_False _ x), (filter_cons_False _ x []) by done.
      by rewrite filter_nil, app_nil_r.
Qed.

Lemma sort_by_name_stable (n : string) (l : list ContainerInfo) :
  filter (λ e, Name e = n) (sort_by_name l) = filter (λ e, Name e = n) l.
Proof.
  unfold sort_by_name.
  assert (∀ sorted, StronglySorted name_le sorted →
    filter (λ e, Name e = n)
      (fold_left (λ sorted x, insert_by_name x sorted) l sorted)
    = filter (λ e, Name e = n) (sorted ++ l)) as Hgen.
  { induction l as [|x l IH]; intros sorted Hs; simpl.
    - by rewrite app_nil_r.
    - rewrite IH by (by apply insert_by_name_sorted).
      rewrite filter_app, insert_by_name_stable by done.
      by rewrite <- filter_app, <- app_assoc. }
  apply (Hgen []). constructor.
Qed.


(** Where entries of equal name are equal, every sorted arrangement of the
    list is the same one, whatever algorithm [sort.Slice] runs. *)
Lemma bucket_sort_unique (l l' : list ContainerInfo) :
  (∀ a b, a ∈ l → b ∈ l → Name a = Name b → a = b) →
  StronglySorted name_le l' → l' ≡ₚ l → l' = sort_by_name l.
Proof.
  intros Heq Hs Hp.
  apply (StronglySorted_unique_strong name_le); [| done | |].
  - intros a b Ha Hb Hab Hba. apply Heq.
    + by rewrite <- Hp.
    + by rewrite <- (sort_by_name_perm l).
    + unfold name_le in *. by apply (anti_symm String.le).
  - apply sort_by_name_sorted.
  - by rewrite sort_by_name_perm.
Qed.

End sorting_facts.

(** ** Reachability *)

Section reachability_facts.

Lemma reachable_loop (self : string) (l : list ContainerInfo) (acc : list string) :
  fold_left
    (λ result c,
       if negb (String.eqb (Name c) self) then result ++ [Name c] else result)
    l acc
  = acc ++ (Name <$> filter (λ c, Name c ≠ self) l).
Proof.
  revert acc. induction l as [|c l IH]; intros acc; simpl.
  - by rewrite app_nil_r.
  - rewrite IH. destruct (String.eqb_spec (Name c) self) as [Heq|Hne]; simpl.
    + by rewrite filter_cons_False by (intros H; by apply H).
    + rewrite filter_cons_True by done. simpl. by rewrite <- app_assoc.
Qed.

Lemma ReachableContainers_eq self network netMap :
  ReachableContainers self network netMap
  = sort_strings (Name <$> filter (λ c, Name c ≠ self) (bucket netMap network)).
Proof. unfold ReachableContainers. by rewrite reachable_loop. Qed.

End reachability_facts.

(** ** The conversion of one raw record *)

Section conversion_facts.

Lemma AddAlias_Name ci a : Name (AddAlias ci a).2 = Name ci.
Proof. unfold AddAlias. by destruct (scan _ _). Qed.

Lemma AddAlias_Networks ci a : Networks (AddAlias ci a).2 = Networks ci.
Proof. unfold AddAlias. by destruct (scan _ _). Qed.

Lemma AddAlias_elem_of ci a x :
  x ∈ Aliases (AddAlias ci a).2 ↔ x ∈ Aliases ci ∨ x = a.
Proof.
  unfold AddAlias. destruct (scan (Aliases ci) a) eqn:Hs; simpl.
  - apply scan_elem_of in Hs. split; [by left | by intros [?| ->]].
  - rewrite elem_of_app, list_elem_of_singleton. done.
Qed.

Lemma AddNetwork_Name ci n : Name (AddNetwork ci n).2 = Name ci.
Proof. unfold AddNetwork. by destruct (scan _ _). Qed.

Lemma AddNetwork_Aliases ci n : Aliases (AddNetwork ci n).2 = Aliases ci.
Proof. unfold AddNetwork. by destruct (scan _ _). Qed.

Lemma AddNetwork_elem_of ci n x :
  x ∈ Networks (AddNetwork ci n).2 ↔ x ∈ Networks ci ∨ x = n.
Proof.
  unfold AddNetwork. destruct (scan (Networks ci) n) eqn:Hs; simpl.
  - apply scan_elem_of in Hs. split; [by left | by intros [?| ->]].
  - rewrite elem_of_app, list_elem_of_singleton. done.
Qed.

Lemma AddNetwork_fresh ci n :
  n ∉ Networks ci → Networks (AddNetwork ci n).2 = Networks ci ++ [n].
Proof.
  intros Hn. unfold AddNetwork. destruct (scan (Networks ci) n) eqn:Hs; [|done].
  by apply scan_elem_of in Hs.
Qed.

Lemma add_aliases_Name ci l : Name (add_aliases ci l) = Name ci.
Proof.
  unfold add_aliases. revert ci.
  induction l as [|a l IH]; intros ci; simpl; [done|].
  by rewrite IH, AddAlias_Name.
Qed.

Lemma add_aliases_Networks ci l : Networks (add_aliases ci l) = Networks ci.
Proof.
  unfold add_aliases. revert ci.
  induction l as [|a l IH]; intros ci; simpl; [done|].
  by rewrite IH, AddAlias_Networks.
Qed.

Lemma add_aliases_elem_of ci l x :
  x ∈ Aliases (add_aliases ci l) ↔ x ∈ Aliases ci ∨ x ∈ l.
Proof.
  unfold add_aliases. revert ci.
  induction l as [|a l IH]; intros ci; simpl.
  - rewrite elem_of_nil. tauto.
  - rewrite IH, AddAlias_elem_of, elem_of_cons. tauto.
Qed.

Lemma add_endpoint_Name ci e : Name (add_endpoint ci e) = Name ci.
Proof.
  unfold add_endpoint. destruct e.2.
  - by rewrite add_aliases_Name, AddNetwork_Name.
  - apply AddNetwork_Name.
Qed.

Lemma add_endpoint_Networks_elem_of ci e x :
  x ∈ Networks (add_endpoint ci e) ↔ x ∈ Networks ci ∨ x = e.1.
Proof.
  unfold add_endpoint. destruct e.2.
  - rewrite add_aliases_Networks. apply AddNetwork_elem_of.
  - apply AddNetwork_elem_of.
Qed.

Lemma add_endpoint_Networks_fresh ci e :
  e.1 ∉ Networks ci → Networks (add_endpoint ci e) = Networks ci ++ [e.1].
Proof.
  intros Hn. unfold add_endpoint. destruct e.2.
  - rewrite add_aliases_Networks. by apply AddNetwork_fresh.
  - by apply AddNetwork_fresh.
Qed.

Lemma add_endpoint_Aliases_elem_of ci e x :
  x ∈ Aliases (add_endpoint ci e) ↔ x ∈ Aliases ci ∨ x ∈ entry_aliases e.
Proof.
  unfold add_endpoint, entry_aliases. destruct e.2.
  - by rewrite add_aliases_elem_of, AddNetwork_Aliases.
  - rewrite AddNetwork_Aliases, elem_of_nil. tauto.
Qed.

Lemma fold_add_endpoint_Name es ci :
  Name (fold_left add_endpoint es ci) = Name ci.
Proof.
  revert ci. induction es as [|e es IH]; intros ci; simpl; [done|].
  by rewrite IH, add_endpoint_Name.
Qed.

Lemma fold_add_endpoint_Networks_elem_of es ci x :
  x ∈ Networks (fold_left add_endpoint es ci) ↔ x ∈ Networks ci ∨ x ∈ es.*1.
Proof.
  revert ci. induction es as [|e es IH]; intros ci; simpl.
  - rewrite elem_of_nil. tauto.
  - rewrite IH, add_endpoint_Networks_elem_of, elem_of_cons. tauto.
Qed.

Lemma fold_add_endpoint_Networks_NoDup es ci :
  NoDup (Networks ci ++ es.*1) →
  Networks (fold_left add_endpoint es ci) = Networks ci ++ es.*1.
Proof.
  revert ci. induction es as [|e es IH]; intros ci Hnd; simpl.
  - by rewrite app_nil_r.
  - assert (e.1 ∉ Networks ci) as Hfresh.
    { apply NoDup_app in Hnd as (_ & Hd & _). intros Hin.
      apply (Hd _ Hin). simpl. left. }
    rewrite IH; rewrite add_endpoint_Networks_fresh by done.
    + by rewrite <- app_assoc.
    + by rewrite <- app_assoc.
Qed.

Lemma fold_add_endpoint_Aliases_elem_of es ci x :
  x ∈ Aliases (fold_left add_endpoint es ci)
  ↔ x ∈ Aliases ci ∨ ∃ e, e ∈ es ∧ x ∈ entry_aliases e.
Proof.
  revert ci. induction es as [|e es IH]; intros ci; simpl.
  - split; [by left | intros [?|(e & He & _)]; [done | by inversion He]].
  - rewrite IH, add_endpoint_Aliases_elem_of. split.
    + intros [[?|?]|(e' & He' & ?)]; [by left | right; exists e | right; exists e'];
        split; try done; [left | by right].
    + intros [?|(e' & He' & ?)]; [by left; left|].
      apply elem_of_cons in He' as [->|He']; [by left; right|].
      right. by exists e'.
Qed.

Lemma ConvertToContainerInfo_Name cont :
  Name (ConvertToContainerInfo cont) = resolved_name cont.
Proof. unfold ConvertToContainerInfo. by rewrite fold_add_endpoint_Name. Qed.

Lemma ConvertToContainerInfo_HasNetwork cont n :
  HasNetwork (ConvertToContainerInfo cont) n = true ↔ declares n cont.
Proof.
  unfold HasNetwork, declares, ConvertToContainerInfo.
  rewrite scan_elem_of, fold_add_endpoint_Networks_elem_of. simpl.
  rewrite elem_of_nil. tauto.
Qed.

Lemma ConvertToContainerInfo_HasAlias cont a :
  HasAlias (ConvertToContainerInfo cont) a = true
  ↔ ∃ e, e ∈ NetworkSettings cont ∧ a ∈ entry_aliases e.
Proof.
  unfold HasAlias, ConvertToContainerInfo.
  rewrite scan_elem_of, fold_add_endpoint_Aliases_elem_of. simpl.
  rewrite elem_of_nil. tauto.
Qed.

Lemma ConvertToContainerInfo_Networks cont :
  wf_container cont →
  Networks (ConvertToContainerInfo cont) = (NetworkSettings cont).*1.
Proof.
  intros Hwf. unfold ConvertToContainerInfo.
  by rewrite fold_add_endpoint_Networks_NoDup.
Qed.

End conversion_facts.

(** ** The container map *)

Section container_map_facts.

Lemma BuildContainerMap_fold (cs : list docker.Container)
    (m : gmap string ContainerInfo) (name : string) :
  fold_left
    (λ containerMap cont,
       let name := sanitizeContainerName (Names cont) in
       let ci := NewContainerInfo name in
       let ci := fold_left add_endpoint (NetworkSettings cont) ci in
       <[name := ci]> containerMap) cs m !! name
  = match last (named name cs) with
    | Some cont => Some (ConvertToContainerInfo cont)
    | None => m !! name
    end.
Proof.
  revert m. induction cs as [|c cs IH]; intros m; [done|].
  cbn [fold_left]. rewrite IH. unfold named.
  destruct (decide (resolved_name c = name)) as [Heq|Hne].
  - rewrite filter_cons_True by done. rewrite last_cons.
    destruct (last (filter _ cs)); [done|].
    unfold resolved_name in Heq. rewrite Heq, lookup_insert_eq.
    unfold ConvertToContainerInfo. by rewrite Heq.
  - rewrite filter_cons_False by done.
    destruct (last _); [done|].
    by rewrite lookup_insert_ne.
Qed.

(** Last write wins: the value under a name is the conversion of the last
    record that resolves to it. *)
Lemma BuildContainerMap_lookup (cs : list docker.Container) (name : string) :
  BuildContainerMap cs !! name
  = ConvertToContainerInfo <$> last (named name cs).
Proof.
  unfold BuildContainerMap. rewrite BuildContainerMap_fold.
  by destruct (last _).
Qed.

Lemma named_elem_of name cs c :
  c ∈ named name cs ↔ resolved_name c = name ∧ c ∈ cs.
Proof. unfold named. by rewrite list_elem_of_filter. Qed.

Lemma last_is_Some_elem_of {A} (l : list A) x : x ∈ l → is_Some (last l).
Proof. intros Hx. apply last_is_Some. intros ->. by inversion Hx. Qed.

(** The lookup [containerMap[name]] of the second builder never misses. *)
Lemma BuildContainerMap_lookup_is_Some (cs : list docker.Container) c :
  c ∈ cs → is_Some (BuildContainerMap cs !! resolved_name c).
Proof.
  intros Hc. rewrite BuildContainerMap_lookup.
  apply fmap_is_Some, (last_is_Some_elem_of _ c). by apply named_elem_of.
Qed.

Lemma BuildContainerMap_total_Name (cs : list docker.Container) c :
  c ∈ cs → Name (BuildContainerMap cs !!! resolved_name c) = resolved_name c.
Proof.
  intros Hc. rewrite lookup_total_alt, BuildContainerMap_lookup.
  destruct (last_is_Some_elem_of (named (resolved_name c) cs) c) as [c' Hc'].
  { by apply named_elem_of. }
  rewrite Hc'. simpl. rewrite ConvertToContainerInfo_Name.
  apply last_Some_elem_of, named_elem_of in Hc'. by destruct Hc'.
Qed.

Lemma NoDup_named_singleton (cs : list docker.Container) c :
  NoDup (resolved_name <$> cs) → c ∈ cs → named (resolved_name c) cs = [c].
Proof.
  unfold named. induction cs as [|c' cs IH]; intros Hnd Hc; [by inversion Hc|].
  rewrite fmap_cons in Hnd. apply NoDup_cons in Hnd as [Hnot Hnd].
  apply elem_of_cons in Hc as [->|Hc].
  - rewrite filter_cons_True by done. f_equal.
    apply filter_none. intros x Hx Heq.
    apply Hnot. rewrite <- Heq. by apply list_elem_of_fmap_2.
  - rewrite filter_cons_False; [by apply IH|].
    intros Heq. apply Hnot. rewrite Heq. by apply list_elem_of_fmap_2.
Qed.

Lemma BuildContainerMap_lookup_NoDup (cs : list docker.Container) c :
  NoDup (resolved_name <$> cs) → c ∈ cs →
  BuildContainerMap cs !! resolved_name c = Some (ConvertToContainerInfo c).
Proof.
  intros Hnd Hc. rewrite BuildContainerMap_lookup.
  by rewrite NoDup_named_singleton.
Qed.

Lemma BuildContainerMap_dom (cs : list docker.Container) :
  dom (BuildContainerMap cs) = list_to_set (resolved_name <$> cs).
Proof.
  apply set_eq. intros name.
  rewrite elem_of_dom, BuildContainerMap_lookup, fmap_is_Some.
  rewrite elem_of_list_to_set, list_elem_of_fmap. split.
  - intros [c Hc]. apply last_Some_elem_of, named_elem_of in Hc as [<- Hc].
    by exists c.
  - intros (c & -> & Hc). apply (last_is_Some_elem_of _ c). by apply named_elem_of.
Qed.

Lemma BuildContainerMap_size_NoDup (cs : list docker.Container) :
  NoDup (resolved_name <$> cs) → size (BuildContainerMap cs) = length cs.
Proof.
  intros Hnd. rewrite <- size_dom, BuildContainerMap_dom.
  rewrite size_list_to_set by done. by rewrite length_fmap.
Qed.

Lemma BuildContainerMap_perm (cs cs' : list docker.Container) :
  NoDup (resolved_name <$> cs) → cs ≡ₚ cs' →
  BuildContainerMap cs = BuildContainerMap cs'.
Proof.
  intros Hnd Hp. apply map_eq. intros name.
  assert (NoDup (resolved_name <$> cs')) as Hnd' by by rewrite <- Hp.
  rewrite !BuildContainerMap_lookup.
  destruct (last (named name cs)) as [c|] eqn:Hl.
  - apply last_Some_elem_of, named_elem_of in Hl as [<- Hc].
    rewrite (NoDup_named_singleton cs') by (by rewrite <- ?Hp). done.
  - destruct (last (named name cs')) as [c'|] eqn:Hl'; [|done].
    apply last_Some_elem_of, named_elem_of in Hl' as [<- Hc'].
    rewrite (NoDup_named_singleton cs) in Hl by (by rewrite ?Hp). done.
Qed.

End container_map_facts.

(** ** The network buckets *)

Section bucket_facts.

Lemma nonempty_default {A} (l : list A) : default [] (nonempty l) = l.
Proof. by destruct l. Qed.

Lemma nonempty_snoc {A} (l : list A) x : nonempty (l ++ [x]) = Some (l ++ [x]).
Proof. by destruct l. Qed.

Lemma nonempty_Some {A} (l b : list A) : nonempty l = Some b ↔ l = b ∧ b ≠ [].
Proof.
  destruct l; simpl; split; try done.
  - by intros [<- ?].
  - by intros [= <-].
  - by intros [<- ?].
Qed.

Lemma nonempty_perm {A} (f : list A → list A) (l l' : list A) :
  l ≡ₚ l' → f l = f l' → f <$> nonempty l = f <$> nonempty l'.
Proof.
  intros Hp Hf. destruct l, l'; simpl; try done.
  - by apply Permutation_nil_cons in Hp.
  - symmetry in Hp. by apply Permutation_nil_cons in Hp.
  - by rewrite Hf.
Qed.

Lemma append_bucket_lookup ci (m : gmap string (list ContainerInfo)) N N' :
  append_bucket ci m N !! N'
  = if decide (N = N') then Some (default [] (m !! N) ++ [ci]) else m !! N'.
Proof. unfold append_bucket. apply lookup_insert. Qed.

Lemma fill_entries ci es (m : gmap string (list ContainerInfo)) l N :
  m !! N = nonempty l →
  fold_left (λ m (entry : string * option EndpointSettings),
               append_bucket ci m entry.1) es m !! N
  = nonempty (l ++ ((λ _, ci) <$> filter (λ entry, entry.1 = N) es)).
Proof.
  revert m l. induction es as [|e es IH]; intros m l Hm; simpl.
  - by rewrite app_nil_r.
  - destruct (decide (e.1 = N)) as [Heq|Hne].
    + rewrite filter_cons_True by done. rewrite fmap_cons.
      rewrite (IH _ (l ++ [ci])).
      * by rewrite <- app_assoc.
      * rewrite append_bucket_lookup, decide_True by done.
        rewrite Heq, Hm, nonempty_default. by rewrite nonempty_snoc.
    + rewrite filter_cons_False by done. apply IH.
      by rewrite append_bucket_lookup, decide_False.
Qed.

Lemma append_bucket_comm ci (m : gmap string (list ContainerInfo)) N1 N2 :
  append_bucket ci (append_bucket ci m N1) N2
  = append_bucket ci (append_bucket ci m N2) N1.
Proof.
  destruct (decide (N1 = N2)) as [->|Hne]; [done|].
  unfold append_bucket. rewrite !lookup_insert_ne by done.
  by apply insert_insert_ne.
Qed.

(** The second loop over a record's network map may meet the entries in
    another order than the first: the buckets come out the same. *)
Lemma fill_entries_order ci (es es' : list (string * option EndpointSettings))
    (m : gmap string (list ContainerInfo)) :
  es ≡ₚ es' →
  fold_left (λ m (entry : string * option EndpointSettings),
               append_bucket ci m entry.1) es m
  = fold_left (λ m (entry : string * option EndpointSettings),
                 append_bucket ci m entry.1) es' m.
Proof.
  intros Hp. revert m.
  induction Hp as [|x l l' _ IH|x y l|l l' l'' _ IH1 _ IH2]; intros m; simpl.
  - done.
  - apply IH.
  - by rewrite append_bucket_comm.
  - by rewrite IH1.
Qed.

Lemma fill_buckets_fold cm cs (m : gmap string (list ContainerInfo)) l N :
  m !! N = nonempty l →
  fold_left
    (λ networkToContainers cont,
       let name := sanitizeContainerName (Names cont) in
       let ci := cm !!! name in
       fold_left (λ m (entry : string * option EndpointSettings),
                    append_bucket ci m entry.1)
                 (NetworkSettings cont) networkToContainers)
    cs m !! N
  = nonempty (l ++ memberships cm cs N).
Proof.
  revert m l. induction cs as [|c cs IH]; intros m l Hm.
  - simpl. by rewrite app_nil_r.
  - cbn [fold_left]. unfold memberships. rewrite bind_cons, app_assoc.
    apply IH. by apply fill_entries.
Qed.

Lemma fill_buckets_lookup cm cs N :
  fill_buckets cm cs !! N = nonempty (memberships cm cs N).
Proof. unfold fill_buckets. by rewrite (fill_buckets_fold cm cs ∅ []). Qed.

Lemma BuildNetworkToContainersMap_lookup cs N :
  BuildNetworkToContainersMap cs !! N
  = sort_by_name <$> nonempty (memberships (BuildContainerMap cs) cs N).
Proof.
  unfold BuildNetworkToContainersMap. by rewrite lookup_fmap, fill_buckets_lookup.
Qed.

Lemma BuildNetworkToContainersMap_bucket cs N :
  bucket (BuildNetworkToContainersMap cs) N
  = sort_by_name (memberships (BuildContainerMap cs) cs N).
Proof.
  unfold bucket. rewrite BuildNetworkToContainersMap_lookup.
  by destruct (memberships _ _ _).
Qed.

Lemma memberships_elem_of cm cs N e :
  e ∈ memberships cm cs N
  ↔ ∃ c, c ∈ cs ∧ declares N c ∧ e = cm !!! resolved_name c.
Proof.
  unfold memberships, declares. rewrite list_elem_of_bind. split.
  - intros (c & He & Hc). exists c. split; [done|].
    apply list_elem_of_fmap in He as (entry & -> & Hentry).
    apply list_elem_of_filter in Hentry as [<- Hin].
    split; [|done]. by apply list_elem_of_fmap_2.
  - intros (c & Hc & Hd & ->). exists c. split; [|done].
    apply list_elem_of_fmap in Hd as ([n s] & -> & Hin).
    apply list_elem_of_fmap. exists (n, s). split; [done|].
    by apply list_elem_of_filter.
Qed.

Lemma memberships_perm cm cs cs' N :
  cs ≡ₚ cs' → memberships cm cs N ≡ₚ memberships cm cs' N.
Proof. intros Hp. unfold memberships. by rewrite Hp. Qed.

(** The entries of one bucket that bear the same name are the same entry. *)
Lemma memberships_same_name cs N a b :
  a ∈ memberships (BuildContainerMap cs) cs N →
  b ∈ memberships (BuildContainerMap cs) cs N →
  Name a = Name b → a = b.
Proof.
  intros (ca & Hca & _ & ->)%memberships_elem_of
         (cb & Hcb & _ & ->)%memberships_elem_of.
  rewrite !BuildContainerMap_total_Name by done. by intros ->.
Qed.

(** The names in a bucket do not depend on the container map. *)
Lemma memberships_names cs N :
  Name <$> memberships (BuildContainerMap cs) cs N
  = cs ≫= λ cont,
      (λ _, resolved_name cont)
        <$> filter (λ entry, entry.1 = N) (NetworkSettings cont).
Proof.
  unfold memberships.
  assert (∀ l, (∀ c, c ∈ l → c ∈ cs) →
    Name <$> (l ≫= λ cont,
      (λ _, BuildContainerMap cs !!! resolved_name cont)
        <$> filter (λ entry, entry.1 = N) (NetworkSettings cont))
    = l ≫= λ cont,
      (λ _, resolved_name cont)
        <$> filter (λ entry, entry.1 = N) (NetworkSettings cont)) as Hgen.
  { induction l as [|c l IH]; intros Hsub; [done|].
    rewrite !bind_cons, fmap_app, IH by (intros; apply Hsub; by right).
    f_equal. rewrite <- list_fmap_compose. apply list_fmap_ext.
    intros i x _. simpl. apply BuildContainerMap_total_Name, Hsub. left. }
  by apply Hgen.
Qed.

Lemma filter_key_NoDup {B} (x : B)
    (es : list (string * option EndpointSettings)) N :
  NoDup es.*1 →
  (λ _, x) <$> filter (λ entry, entry.1 = N) es
  = if decide (N ∈ es.*1) then [x] else [].
Proof.
  induction es as [|e es IH]; intros Hnd; [done|].
  rewrite fmap_cons in Hnd. apply NoDup_cons in Hnd as [Hnot Hnd].
  destruct (decide (e.1 = N)) as [Heq|Hne].
  - rewrite filter_cons_True by done. rewrite fmap_cons.
    rewrite decide_True by (rewrite fmap_cons, Heq; left).
    f_equal. rewrite filter_none; [done|].
    intros y Hy Hye. apply Hnot. rewrite Heq, <- Hye.
    by apply list_elem_of_fmap_2.
  - rewrite filter_cons_False by done. rewrite IH by done.
    destruct (decide (N ∈ es.*1)) as [Hin|Hnin].
    + rewrite decide_True; [done|]. rewrite fmap_cons. by right.
    + rewrite decide_False; [done|]. rewrite fmap_cons.
      intros [?|?]%elem_of_cons; [by apply Hne | done].
Qed.

(** With the keys of a record's network map distinct, a record has at most
    one entry under a network. *)
Lemma wf_filter_key (c : docker.Container) N :
  wf_container c →
  (λ _ : string * option EndpointSettings, c)
    <$> filter (λ entry, entry.1 = N) (NetworkSettings c)
  = if decide (declares N c) then [c] else [].
Proof.
  intros Hwf. rewrite filter_key_NoDup by done.
  unfold declares. by repeat case_decide.
Qed.

Lemma memberships_NoDup cs N :
  NoDup (resolved_name <$> cs) → Forall wf_container cs →
  memberships (BuildContainerMap cs) cs N
  = ConvertToContainerInfo <$> filter (declares N) cs.
Proof.
  intros Hnd Hwf. unfold memberships.
  assert (∀ l, (∀ c, c ∈ l → c ∈ cs) →
    (l ≫= λ cont,
      (λ _, BuildContainerMap cs !!! resolved_name cont)
        <$> filter (λ entry, entry.1 = N) (NetworkSettings cont))
    = ConvertToContainerInfo <$> filter (declares N) l) as Hgen.
  { induction l as [|c l IH]; intros Hsub; [done|].
    rewrite bind_cons, IH by (intros; apply Hsub; by right).
    assert (c ∈ cs) as Hc by (apply Hsub; left).
    rewrite lookup_total_alt, BuildContainerMap_lookup_NoDup by done. simpl.
    rewrite (list_fmap_compose (λ _, c) ConvertToContainerInfo
               (filter (λ entry, entry.1 = N) (NetworkSettings c))) by done.
    rewrite wf_filter_key by (by eapply Forall_forall in Hwf).
    destruct (decide (declares N c)).
    - by rewrite filter_cons_True.
    - by rewrite filter_cons_False.
  }
  by apply Hgen.
Qed.

End bucket_facts.

(** ** Lemmas for the claims on the builders *)

Section builder_facts.

Lemma named_last_of_split name cs1 c cs2 :
  resolved_name c = name →
  (∀ c', c' ∈ cs2 → resolved_name c' ≠ name) →
  last (named name (cs1 ++ c :: cs2)) = Some c.
Proof.
  intros Hc Hlater. unfold named.
  rewrite filter_app, filter_cons_True by done.
  rewrite (filter_none _ cs2) by done. apply last_snoc.
Qed.

Lemma substring_all (s : string) : String.substring 0 (String.length s) s = s.
Proof. induction s as [|a s IH]; simpl; [done | by rewrite IH]. Qed.

Lemma TrimPrefix_slash (s : string) : TrimPrefix ("/" +:+ s) "/" = s.
Proof.
  unfold TrimPrefix, HasPrefix.
  change ("/" +:+ s) with (String (Ascii.ascii_of_nat 47) s).
  change "/" with (String (Ascii.ascii_of_nat 47) "").
  cbn. destruct (Ascii.ascii_dec _ _) as [_|Hne]; [|by destruct Hne].
  rewrite Nat.sub_0_r, substring_all. by destruct s.
Qed.

Lemma names_sorted_unique cs N l :
  StronglySorted String.le l →
  l ≡ₚ Name <$> memberships (BuildContainerMap cs) cs N →
  l = Name <$> bucket (BuildNetworkToContainersMap cs) N.
Proof.
  intros Hs Hp. apply (StronglySorted_unique String.le); [done | |].
  - rewrite BuildNetworkToContainersMap_bucket.
    apply StronglySorted_fmap with (R1 := name_le);
      [done | apply sort_by_name_sorted].
  - rewrite BuildNetworkToContainersMap_bucket, sort_by_name_perm. done.
Qed.

End builder_facts.

(** ** Writing to the sink *)

Section writing_facts.

Lemma append_nil_r (s : string) : s +:+ "" = s.
Proof.
  induction s as [|a s IH]; [done|].
  change (String a (s +:+ "") = String a s). by rewrite IH.
Qed.

Lemma append_assoc (a b c : string) : (a +:+ b) +:+ c = a +:+ (b +:+ c).
Proof.
  induction a as [|x a IH]; [done|].
  change (String x ((a +:+ b) +:+ c) = String x (a +:+ (b +:+ c))).
  by rewrite IH.
Qed.

Lemma concat_cons (x : string) (xs : list string) :
  String.concat "" (x :: xs) = x +:+ String.concat "" xs.
Proof. destruct xs; cbn [String.concat]; [by rewrite append_nil_r | done]. Qed.

Lemma concat_app (xs ys : list string) :
  String.concat "" (xs ++ ys) = String.concat "" xs +:+ String.concat "" ys.
Proof.
  induction xs as [|x xs IH]; [done|].
  rewrite <- app_comm_cons, !concat_cons, IH. by rewrite append_assoc.
Qed.

Lemma unlines_cons (l : string) (ls : list string) :
  unlines (l :: ls) = l +:+ nl +:+ unlines ls.
Proof. unfold unlines. by rewrite fmap_cons, concat_cons, append_assoc. Qed.

Lemma unlines_app (ls ks : list string) :
  unlines (ls ++ ks) = unlines ls +:+ unlines ks.
Proof. unfold unlines. by rewrite fmap_app, concat_app. Qed.

Lemma unlines_mjoin (lss : list (list string)) :
  unlines (mjoin lss) = String.concat "" (unlines <$> lss).
Proof.
  induction lss as [|ls lss IH]; [done|].
  change (mjoin (ls :: lss)) with (ls ++ mjoin lss).
  by rewrite unlines_app, fmap_cons, concat_cons, IH.
Qed.

(** A loop whose every round appends to the sink appends the
    concatenation of what the rounds append. *)
Lemma fold_left_write {A} (step : string → A → string) (g : A → string)
    (l : list A) (w : string) :
  (∀ w x, step w x = w +:+ g x) →
  fold_left step l w = w +:+ String.concat "" (g <$> l).
Proof.
  intros Hstep. revert w. induction l as [|x l IH]; intros w.
  - simpl. by rewrite append_nil_r.
  - cbn [fold_left]. rewrite IH, Hstep, fmap_cons, concat_cons.
    by rewrite append_assoc.
Qed.

End writing_facts.

(** ** The container tree *)

Section render_facts.

Variable Sprint : Color → string → string.
Variable cw : ColorWriter.

Lemma Fprintf_unfold w pieces : Fprintf w pieces = w +:+ String.concat "" pieces.
Proof. done. Qed.

Lemma reach_loop (indent : string) (others : list string) (w : string) :
  fold_left
    (λ w '(j, o),
       let op :=
         if bool_decide (j = length others - 1) then TreeEnd else TreeBranch in
       Fprintf w [Tree Sprint cw indent; "    "; Tree Sprint cw op; " ";
                  Container Sprint cw o; nl])
    (imap pair others) w
  = w +:+ unlines
      (imap (λ j o,
               style_of Sprint cw colorTree indent +:+ "    " +:+
               style_of Sprint cw colorTree
                 (if bool_decide (j = length others - 1)
                  then TreeEnd else TreeBranch) +:+
               " " +:+ style_of Sprint cw colorContainer o)
            others).
Proof.
  rewrite (fold_left_write _
    (λ '(j, o),
       (style_of Sprint cw colorTree indent +:+ "    " +:+
        style_of Sprint cw colorTree
          (if bool_decide (j = length others - 1)
           then TreeEnd else TreeBranch) +:+
        " " +:+ style_of Sprint cw colorContainer o) +:+ nl)).
  - f_equal. unfold unlines. f_equal. rewrite !fmap_imap. by apply imap_ext.
  - intros w' [j o]. rewrite Fprintf_unfold, !concat_cons.
    cbn [String.concat]. rewrite append_nil_r, !append_assoc. done.
Qed.


Lemma PrintContainerTree_eq (w : string) (c : ContainerInfo)
    (netMap : gmap string (list ContainerInfo)) :
  PrintContainerTree Sprint cw w c netMap
  = w +:+ unlines
      (container_tree_lines (style_of Sprint cw)
         (none_line_glyph (style_of Sprint cw)) c netMap).
Proof.
  unfold PrintContainerTree, container_tree_lines.
  set (nets := sort_strings (Networks c)).
  rewrite (fold_left_write _
    (λ '(i, net),
       let last := bool_decide (i = length nets - 1) in
       let indent := if last then TreeSpace else TreeVertical in
       unlines
         ([style_of Sprint cw colorTree (if last then TreeEnd else TreeBranch)
             +:+ " " +:+ style_of Sprint cw colorLabel "Network:" +:+ " "
             +:+ style_of Sprint cw colorNetwork net;
           style_of Sprint cw colorTree indent
             +:+ style_of Sprint cw colorTree TreeEnd +:+ " "
             +:+ style_of Sprint cw colorLabel "connects to:"]
          ++ reach_lines (style_of Sprint cw)
               (none_line_glyph (style_of Sprint cw)) indent
               (ReachableContainers (Name c) net netMap)))).
  - rewrite Fprintf_unfold, unlines_cons, unlines_mjoin.
    rewrite !concat_cons. cbn [String.concat].
    rewrite append_nil_r, !append_assoc.
    rewrite !fmap_imap. by do 6 f_equal.
  - intros w' [i net]. cbv zeta.
    set (indent := if bool_decide (i = length nets - 1)
                   then TreeSpace else TreeVertical).
    set (others := ReachableContainers (Name c) net netMap).
    rewrite unlines_app, !unlines_cons.
    assert (∀ w0,
      (if decide (length others = 0)
       then Fprintf w0 [Tree Sprint cw indent; "    "; Tree Sprint cw TreeEnd;
                        " (none)"; nl]
       else fold_left
              (λ w '(j, o),
                 let op :=
                   if bool_decide (j = length others - 1)
                   then TreeEnd else TreeBranch in
                 Fprintf w [Tree Sprint cw indent; "    "; Tree Sprint cw op;
                            " "; Container Sprint cw o; nl])
              (imap pair others) w0)
      = w0 +:+ unlines (reach_lines (style_of Sprint cw)
                          (none_line_glyph (style_of Sprint cw)) indent others))
      as ->.
    { intros w0. destruct others as [|o others'] eqn:Ho.
      - simpl. rewrite Fprintf_unfold, !concat_cons. cbn [String.concat].
        unfold none_line_glyph. rewrite unlines_cons.
        rewrite append_nil_r, !append_assoc. done.
      - rewrite decide_False by done. rewrite reach_loop. done. }
    rewrite !Fprintf_unfold, !concat_cons. cbn [String.concat].
    rewrite !append_nil_r, !append_assoc. done.
Qed.

End render_facts.

(** ** Alias stripping over the memory *)

Section memory_facts.

Lemma read_infos_length (m : memory) (s : slice) :
  valid_infos m s → length (read_infos m s) = len s.
Proof.
  intros (arr & Harr & Hle). unfold read_infos. rewrite Harr. simpl.
  rewrite length_take, length_drop. lia.
Qed.

Lemma valid_infos_base (m : memory) (s : slice) :
  valid_infos m s → base s ∈ dom (info_arrays m).
Proof. intros (arr & Harr & _). apply elem_of_dom. by eexists. Qed.

Lemma fresh_array_not_in_dom (m : memory) :
  fresh (dom (info_arrays m)) ∉ dom (info_arrays m).
Proof. apply is_fresh. Qed.

(** The state after [k] rounds of the loop: the first [k] structs of the new
    array are the stripped source structs, the others are still zero. *)
Lemma removeAliases_rounds (m : memory) (containers : slice) (k : nat) :
  valid_infos m containers →
  k ≤ len containers →
  let l := fresh (dom (info_arrays m)) in
  let result := mkSlice l 0 (len containers) in
  fold_left
    (λ m i,
       match read_infos m containers !! i with
       | Some c =>
           set_info m result i
             {| sName := sName c;
                sAliases := empty_strings;
                sNetworks := sNetworks c |}
       | None => m
       end)
    (seq 0 k)
    {| string_arrays := string_arrays m;
       info_arrays := <[l := replicate (len containers) zero_info]>
                        (info_arrays m) |}
  = {| string_arrays := string_arrays m;
       info_arrays :=
         <[l := (stripped <$> take k (read_infos m containers))
                ++ replicate (len containers - k) zero_info]>
           (info_arrays m) |}.
Proof.
  intros Hvalid Hk l result.
  assert (base containers ≠ l) as Hne.
  { intros Heq. apply (fresh_array_not_in_dom m). fold l. rewrite <- Heq.
    by apply valid_infos_base. }
  induction k as [|k IH].
  - simpl. by rewrite Nat.sub_0_r.
  - rewrite seq_S, fold_left_app, IH by lia. cbn [fold_left].
    assert (read_infos
              {| string_arrays := string_arrays m;
                 info_arrays :=
                   <[l := (stripped <$> take k (read_infos m containers))
                          ++ replicate (len containers - k) zero_info]>
                     (info_arrays m) |} containers
            = read_infos m containers) as ->.
    { unfold read_infos. simpl. by rewrite lookup_insert_ne. }
    pose proof (read_infos_length m containers Hvalid) as Hlen.
    destruct (lookup_lt_is_Some_2 (read_infos m containers) k) as [c Hc];
      [lia|].
    rewrite Nat.add_0_l, Hc. unfold set_info. cbn [string_arrays info_arrays base offset].
    f_equal. rewrite alter_insert_eq. f_equal.
    rewrite (take_S_r _ _ c) by done. rewrite fmap_app. simpl.
    replace (len containers - k) with (S (len containers - S k)) by lia.
    rewrite replicate_S, <- app_assoc. simpl.
    replace k with (length (stripped <$> take k (read_infos m containers)) + 0)
      at 1 by (rewrite length_fmap, length_take; lia).
    by rewrite insert_app_r.
Qed.

Lemma removeAliasesFromContainers_eq (m : memory) (containers : slice) :
  valid_infos m containers →
  removeAliasesFromContainers m containers
  = (mkSlice (fresh (dom (info_arrays m))) 0 (len containers),
     {| string_arrays := string_arrays m;
        info_arrays :=
          <[fresh (dom (info_arrays m)) := stripped <$> read_infos m containers]>
            (info_arrays m) |}).
Proof.
  intros Hvalid. unfold removeAliasesFromContainers, make_infos.
  rewrite (removeAliases_rounds m containers (len containers)) by (done || lia).
  rewrite Nat.sub_diag, app_nil_r.
  rewrite take_ge by (by rewrite read_infos_length). done.
Qed.

Lemma load_info_stripped (m m' : memory) (c : ContainerInfoS) :
  string_arrays m' = string_arrays m →
  load_info m' (stripped c) = strip_aliases (load_info m c).
Proof.
  intros Hs. unfold load_info, stripped, strip_aliases, read_strings. simpl.
  by rewrite Hs.
Qed.

Lemma load_info_frame (m m' : memory) (c : ContainerInfoS) :
  string_arrays m' = string_arrays m → load_info m' c = load_info m c.
Proof. intros Hs. unfold load_info, read_strings. by rewrite Hs. Qed.

End memory_facts.

(** ** The model: sets without duplicates *)

Section member_facts.

Lemma AddAlias_NoDup c a : NoDup (Aliases c) → NoDup (Aliases (AddAlias c a).2).
Proof.
  intros Hnd. unfold AddAlias. destruct (scan (Aliases c) a) eqn:Hs; [done|].
  simpl. apply NoDup_app. split; [done|]. split; [|apply NoDup_singleton].
  intros x Hx ->%list_elem_of_singleton.
  apply scan_elem_of in Hx. congruence.
Qed.

Lemma AddNetwork_NoDup c n :
  NoDup (Networks c) → NoDup (Networks (AddNetwork c n).2).
Proof.
  intros Hnd. unfold AddNetwork. destruct (scan (Networks c) n) eqn:Hs; [done|].
  simpl. apply NoDup_app. split; [done|]. split; [|apply NoDup_singleton].
  intros x Hx ->%list_elem_of_singleton.
  apply scan_elem_of in Hx. congruence.
Qed.

Lemma add_aliases_NoDup c l : NoDup (Aliases c) → NoDup (Aliases (add_aliases c l)).
Proof.
  unfold add_aliases. revert c.
  induction l as [|a l IH]; intros c Hnd; simpl; [done|].
  by apply IH, AddAlias_NoDup.
Qed.

Lemma add_endpoint_NoDup c e :
  NoDup (Networks c) → NoDup (Aliases c) →
  NoDup (Networks (add_endpoint c e)) ∧ NoDup (Aliases (add_endpoint c e)).
Proof.
  intros Hn Ha. unfold add_endpoint. destruct e.2.
  - split.
    + rewrite add_aliases_Networks. by apply AddNetwork_NoDup.
    + apply add_aliases_NoDup. by rewrite AddNetwork_Aliases.
  - split; [by apply AddNetwork_NoDup | by rewrite AddNetwork_Aliases].
Qed.

Lemma fold_add_endpoint_NoDup es c :
  NoDup (Networks c) → NoDup (Aliases c) →
  NoDup (Networks (fold_left add_endpoint es c))
  ∧ NoDup (Aliases (fold_left add_endpoint es c)).
Proof.
  revert c. induction es as [|e es IH]; intros c Hn Ha; simpl; [done|].
  destruct (add_endpoint_NoDup c e Hn Ha). by apply IH.
Qed.

Lemma ConvertToContainerInfo_NoDup cont :
  NoDup (Networks (ConvertToContainerInfo cont))
  ∧ NoDup (Aliases (ConvertToContainerInfo cont)).
Proof. apply fold_add_endpoint_NoDup; apply NoDup_nil_2. Qed.

Lemma bucket_elem_of_memberships cs N e :
  e ∈ bucket (BuildNetworkToContainersMap cs) N
  ↔ e ∈ memberships (BuildContainerMap cs) cs N.
Proof. by rewrite BuildNetworkToContainersMap_bucket, sort_by_name_perm. Qed.

Lemma bucket_entry_is_map_value cs N e :
  e ∈ bucket (BuildNetworkToContainersMap cs) N →
  BuildContainerMap cs !! Name e = Some e.
Proof.
  intros (c & Hc & _ & ->)%bucket_elem_of_memberships%memberships_elem_of.
  rewrite BuildContainerMap_total_Name by done.
  destruct (BuildContainerMap_lookup_is_Some cs c Hc) as [x Hx].
  by rewrite lookup_total_alt, Hx.
Qed.

Lemma BuildContainerMap_value_is_conversion cs name ci :
  BuildContainerMap cs !! name = Some ci →
  ∃ c, c ∈ cs ∧ resolved_name c = name ∧ ci = ConvertToContainerInfo c.
Proof.
  rewrite BuildContainerMap_lookup. intros (c & Hc & ->)%fmap_Some.
  apply last_Some_elem_of, named_elem_of in Hc as [? ?]. by exists c.
Qed.

End member_facts.

(** ** The conversion and the order of a map loop *)

Section iteration_order_facts.

Lemma fold_add_endpoint_perm es es' ci :
  NoDup (Networks ci) → NoDup (Aliases ci) → es ≡ₚ es' →
  Name (fold_left add_endpoint es ci) = Name (fold_left add_endpoint es' ci)
  ∧ Networks (fold_left add_endpoint es ci)
    ≡ₚ Networks (fold_left add_endpoint es' ci)
  ∧ Aliases (fold_left add_endpoint es ci)
    ≡ₚ Aliases (fold_left add_endpoint es' ci).
Proof.
  intros Hn Ha Hp. split; [by rewrite !fold_add_endpoint_Name|]. split.
  - apply NoDup_Permutation; try by apply fold_add_endpoint_NoDup.
    intros x. rewrite !fold_add_endpoint_Networks_elem_of. by rewrite Hp.
  - apply NoDup_Permutation; try by apply fold_add_endpoint_NoDup.
    intros x. rewrite !fold_add_endpoint_Aliases_elem_of.
    by setoid_rewrite Hp.
Qed.

End iteration_order_facts.

(** ** Two runs on the same records *)

Section rereading_facts.

Lemma same_record_resolved_name c c' :
  same_record c c' → resolved_name c = resolved_name c'.
Proof. intros [Hn _]. unfold resolved_name. by rewrite Hn. Qed.

Lemma same_record_conversion c c' :
  same_record c c' →
  same_info (ConvertToContainerInfo c) (ConvertToContainerInfo c').
Proof.
  intros [Hn Hp]. unfold same_info, ConvertToContainerInfo. rewrite <- Hn.
  destruct (fold_add_endpoint_perm (NetworkSettings c) (NetworkSettings c')
              (NewContainerInfo (sanitizeContainerName (Names c))))
    as (HN & Hnets & Hals); [apply NoDup_nil_2 | apply NoDup_nil_2 | done |].
  done.
Qed.

Lemma same_records_names cs cs' :
  Forall2 same_record cs cs' → resolved_name <$> cs = resolved_name <$> cs'.
Proof.
  induction 1 as [|c c' cs cs' Hc _ IH]; [done|].
  rewrite !fmap_cons, IH. f_equal. by apply same_record_resolved_name.
Qed.

Lemma same_records_memberships cs cs' N :
  Forall2 same_record cs cs' →
  (cs ≫= λ cont,
     (λ _, resolved_name cont)
       <$> filter (λ entry, entry.1 = N) (NetworkSettings cont))
  ≡ₚ (cs' ≫= λ cont,
        (λ _, resolved_name cont)
          <$> filter (λ entry, entry.1 = N) (NetworkSettings cont)).
Proof.
  induction 1 as [|c c' cs cs' Hc _ IH]; [done|].
  rewrite !bind_cons, IH. apply Permutation_app; [|done].
  rewrite (same_record_resolved_name c c' Hc). destruct Hc as [_ Hp].
  by rewrite Hp.
Qed.

(** The names in a bucket are the same in both runs. *)
Lemma bucket_names_reread cs cs1 cs' N :
  cs ≡ₚ cs1 → Forall2 same_record cs1 cs' →
  Name <$> bucket (BuildNetworkToContainersMap cs) N
  = Name <$> bucket (BuildNetworkToContainersMap cs') N.
Proof.
  intros Hp Hr. apply names_sorted_unique.
  - rewrite BuildNetworkToContainersMap_bucket.
    apply StronglySorted_fmap with (R1 := name_le);
      [done | apply sort_by_name_sorted].
  - rewrite BuildNetworkToContainersMap_bucket, sort_by_name_perm.
    rewrite !memberships_names.
    rewrite <- (same_records_memberships cs1 cs' N Hr). by rewrite Hp.
Qed.

Lemma key_iff_bucket cs N :
  is_Some (BuildNetworkToContainersMap cs !! N)
  ↔ bucket (BuildNetworkToContainersMap cs) N ≠ [].
Proof.
  unfold bucket. rewrite BuildNetworkToContainersMap_lookup.
  destruct (memberships (BuildContainerMap cs) cs N) as [|e l] eqn:Hm; simpl.
  - split; [by intros [? ?] | done].
  - split; [|by eexists]. intros _ Hnil.
    by apply sort_by_name_nil_inv in Hnil.
Qed.

(** Where the two container maps hold, under every name, values that agree
    up to the order of their lists, so do the buckets, entry by entry. *)
Lemma buckets_reread cs cs1 cs' N :
  cs ≡ₚ cs1 → Forall2 same_record cs1 cs' →
  (∀ name ci ci',
     BuildContainerMap cs !! name = Some ci →
     BuildContainerMap cs' !! name = Some ci' → same_info ci ci') →
  Forall2 same_info (bucket (BuildNetworkToContainersMap cs) N)
                    (bucket (BuildNetworkToContainersMap cs') N).
Proof.
  intros Hp Hr Hmaps.
  pose proof (bucket_names_reread cs cs1 cs' N Hp Hr) as Hnames.
  apply Forall2_same_length_lookup_2.
  - apply (f_equal length) in Hnames. by rewrite !length_fmap in Hnames.
  - intros i x y Hx Hy.
    assert (Name x = Name y) as Hxy.
    { apply (f_equal (λ l, l !! i)) in Hnames.
      rewrite !list_lookup_fmap, Hx, Hy in Hnames. by injection Hnames. }
    apply (Hmaps (Name x)).
    + eapply bucket_entry_is_map_value. by eapply list_elem_of_lookup_2.
    + rewrite Hxy. eapply bucket_entry_is_map_value.
      by eapply list_elem_of_lookup_2.
Qed.

(** With pairwise distinct resolved names the two container maps agree up to
    the order of the lists of their values. *)
Lemma container_maps_reread cs cs1 cs' name ci ci' :
  cs ≡ₚ cs1 → Forall2 same_record cs1 cs' →
  NoDup (resolved_name <$> cs) →
  BuildContainerMap cs !! name = Some ci →
  BuildContainerMap cs' !! name = Some ci' →
  same_info ci ci'.
Proof.
  intros Hp Hr Hnd Hci Hci'.
  assert (NoDup (resolved_name <$> cs')) as Hnd'.
  { rewrite <- (same_records_names cs1 cs' Hr). by rewrite <- Hp. }
  apply BuildContainerMap_value_is_conversion in Hci' as Hc'.
  destruct Hc' as (c' & Hc' & Hname' & _).
  rewrite <- Hname' in Hci'.
  rewrite (BuildContainerMap_lookup_NoDup cs' c' Hnd' Hc') in Hci'.
  injection Hci' as <-.
  apply list_elem_of_lookup in Hc' as [i Hi].
  destruct (Forall2_lookup_r _ _ _ _ _ Hr Hi) as (c1 & Hc1 & Hsame).
  assert (c1 ∈ cs) as Hin.
  { rewrite Hp. by eapply list_elem_of_lookup_2. }
  rewrite <- Hname', <- (same_record_resolved_name c1 c' Hsame) in Hci.
  rewrite (BuildContainerMap_lookup_NoDup cs c1 Hnd Hin) in Hci.
  injection Hci as <-. by apply same_record_conversion.
Qed.

End rereading_facts.

(** * The claims *)

(** C7 (idempotent add). Two successive calls of [AddAlias] (of
    [AddNetwork]) with the same value, the empty string included. The first
    call returns [true] exactly when the value is not among the aliases (the
    networks); it then appends the value, so that the cardinality grows by
    one, and otherwise leaves the receiver as it was; either way the value
    is among the aliases afterwards and the other fields are untouched. The
    second call returns [false] and changes nothing. [HasAlias] and
    [HasNetwork] tell membership in the list. *)
Theorem add_twice_changes_once (c : ContainerInfo) (v : string) :
  (let '(b1, c1) := AddAlias c v in
   let '(b2, c2) := AddAlias c1 v in
   (b1 = true ↔ v ∉ Aliases c)
   ∧ (HasAlias c v = true ↔ v ∈ Aliases c)
   ∧ b1 = negb (HasAlias c v)
   ∧ Aliases c1 = (if b1 then Aliases c ++ [v] else Aliases c)
   ∧ Name c1 = Name c ∧ Networks c1 = Networks c
   ∧ AliasCount c1 = AliasCount c + (if b1 then 1 else 0)
   ∧ v ∈ Aliases c1
   ∧ HasAlias c1 v = true
   ∧ b2 = false ∧ c2 = c1 ∧ AliasCount c2 = AliasCount c1)
  ∧
  (let '(b1, c1) := AddNetwork c v in
   let '(b2, c2) := AddNetwork c1 v in
   (b1 = true ↔ v ∉ Networks c)
   ∧ (HasNetwork c v = true ↔ v ∈ Networks c)
   ∧ b1 = negb (HasNetwork c v)
   ∧ Networks c1 = (if b1 then Networks c ++ [v] else Networks c)
   ∧ Name c1 = Name c ∧ Aliases c1 = Aliases c
   ∧ NetworkCount c1 = NetworkCount c + (if b1 then 1 else 0)
   ∧ v ∈ Networks c1
   ∧ HasNetwork c1 v = true
   ∧ b2 = false ∧ c2 = c1 ∧ NetworkCount c2 = NetworkCount c1).
Proof.
  split.
  - unfold AddAlias, HasAlias, AliasCount.
    destruct (scan (Aliases c) v) eqn:Hs.
    + rewrite Hs. simpl. rewrite Nat.add_0_r.
      pose proof (proj1 (scan_elem_of _ _) Hs) as Hin.
      split; [split; [discriminate | done]|]. by repeat split.
    + simpl. rewrite scan_snoc_same. simpl. rewrite length_app. simpl.
      assert (v ∉ Aliases c) as Hout.
      { intros Hin%scan_elem_of. congruence. }
      split; [done|]. split; [split; [discriminate | done]|].
      repeat split. apply elem_of_app. right. left.
  - unfold AddNetwork, HasNetwork, NetworkCount.
    destruct (scan (Networks c) v) eqn:Hs.
    + rewrite Hs. simpl. rewrite Nat.add_0_r.
      pose proof (proj1 (scan_elem_of _ _) Hs) as Hin.
      split; [split; [discriminate | done]|]. by repeat split.
    + simpl. rewrite scan_snoc_same. simpl. rewrite length_app. simpl.
      assert (v ∉ Networks c) as Hout.
      { intros Hin%scan_elem_of. congruence. }
      split; [done|]. split; [split; [discriminate | done]|].
      repeat split. apply elem_of_app. right. left.
Qed.

(** C1 (reachability resolver). [ReachableContainers self N M] is the names
    of the entries of the bucket [M[N]] whose [Name] differs from [self],
    in ascending order: it is sorted, it is a rearrangement of exactly
    those names, and it is the only list that is both; when [N] is not a key
    of [M] it is empty; and [self] is never in it. *)
Theorem ReachableContainers_correct (self N : string)
    (M : gmap string (list ContainerInfo)) :
  let names := Name <$> filter (λ c, Name c ≠ self) (default [] (M !! N)) in
  let r := ReachableContainers self N M in
  StronglySorted String.le r
  ∧ r ≡ₚ names
  ∧ (∀ l, StronglySorted String.le l → l ≡ₚ names → l = r)
  ∧ (M !! N = None → r = [])
  ∧ self ∉ r.
Proof.
  intros names r. subst r. rewrite ReachableContainers_eq.
  unfold bucket. fold names.
  split; [apply sort_strings_sorted|].
  split; [apply sort_strings_perm|].
  split; [intros l; apply sort_strings_unique|].
  split.
  - intros HN. subst names. rewrite HN. done.
  - rewrite sort_strings_perm. subst names.
    intros (c & Hc & Hin)%list_elem_of_fmap.
    apply list_elem_of_filter in Hin as [Hne _]. by apply Hne.
Qed.

(** C1 at Scenario B of the specification: from "api" on "backend" the
    reachable containers are "postgres" and "redis". *)
Lemma ReachableContainers_correct_witness :
  ReachableContainers "api" "backend" (BuildNetworkToContainersMap scenario_A)
  = ["postgres"; "redis"].
Proof.
  symmetry.
  apply (proj1 (proj2 (proj2
    (ReachableContainers_correct "api" "backend"
       (BuildNetworkToContainersMap scenario_A))))).
  - apply (bool_decide_unpack _). vm_compute. exact I.
  - vm_compute. reflexivity.
Defined.

(** C4 (last write wins). The container map holds, under every name, the
    conversion of the last record that resolves to that name and nothing of
    the earlier ones: its networks are the last record's networks and its
    aliases the last record's aliases. When the resolved names are pairwise
    distinct the map has one entry per record, under the record's name. *)
Theorem BuildContainerMap_last_write_wins (cs : list docker.Container) :
  (∀ name,
      BuildContainerMap cs !! name
      = ConvertToContainerInfo <$> last (named name cs))
  ∧ (∀ cs1 c cs2,
      cs = cs1 ++ c :: cs2 →
      (∀ c', c' ∈ cs2 → resolved_name c' ≠ resolved_name c) →
      ∃ ci, BuildContainerMap cs !! resolved_name c = Some ci
            ∧ ci = ConvertToContainerInfo c
            ∧ (∀ n, HasNetwork ci n = true ↔ declares n c)
            ∧ (∀ a, HasAlias ci a = true
                    ↔ ∃ e, e ∈ NetworkSettings c ∧ a ∈ entry_aliases e))
  ∧ (NoDup (resolved_name <$> cs) →
      size (BuildContainerMap cs) = length cs
      ∧ ∀ c, c ∈ cs →
          BuildContainerMap cs !! resolved_name c
          = Some (ConvertToContainerInfo c)).
Proof.
  split; [apply BuildContainerMap_lookup|]. split.
  - intros cs1 c cs2 -> Hlater. exists (ConvertToContainerInfo c).
    split; [|split; [done|split]].
    + rewrite BuildContainerMap_lookup.
      by rewrite (named_last_of_split _ cs1 c cs2).
    + apply ConvertToContainerInfo_HasNetwork.
    + apply ConvertToContainerInfo_HasAlias.
  - intros Hnd. split; [by apply BuildContainerMap_size_NoDup|].
    intros c Hc. by apply BuildContainerMap_lookup_NoDup.
Qed.

(** C4, at the two records that both resolve to "a": the map holds the second
    one, whose only network is "n1" and which has no alias. *)
Lemma BuildContainerMap_last_write_wins_witness :
  BuildContainerMap clash !! "a"
  = Some {| Name := "a"; Aliases := []; Networks := ["n1"] |}.
Proof.
  destruct (proj1 (proj2 (BuildContainerMap_last_write_wins clash))
              [clash_first] clash_second [])
    as (ci & Hci & -> & _).
  - reflexivity.
  - intros c' Hc'. inversion Hc'.
  - exact Hci.
Defined.

(** C8 (name resolution). The resolved name of a record is its first name
    entry without one leading "/", if it has one, and the empty string when
    there is no name entry. A record without name entries is accepted by
    [BuildContainerMap]: it gets the entry under the empty string, which
    carries the networks and the aliases of the record. *)
Theorem sanitize_and_nameless_record :
  sanitizeContainerName [] = ""
  ∧ (∀ s rest, sanitizeContainerName (("/" +:+ s) :: rest) = s)
  ∧ (∀ first rest,
      HasPrefix first "/" = false → sanitizeContainerName (first :: rest) = first)
  ∧ (∀ nets,
      ∃ ci, BuildContainerMap [mkContainer [] nets] !! "" = Some ci
            ∧ size (BuildContainerMap [mkContainer [] nets]) = 1
            ∧ Name ci = ""
            ∧ (∀ n, HasNetwork ci n = true ↔ n ∈ nets.*1)
            ∧ (∀ a, HasAlias ci a = true ↔ ∃ e, e ∈ nets ∧ a ∈ entry_aliases e)
            ∧ (NoDup nets.*1 → Networks ci = nets.*1))
  ∧ (∀ cs c, c ∈ cs → Names c = [] → is_Some (BuildContainerMap cs !! "")).
Proof.
  split; [done|]. split; [intros s rest; apply TrimPrefix_slash|].
  split.
  { intros first rest Hp. simpl. unfold TrimPrefix. by rewrite Hp. }
  split.
  - intros nets. set (r := mkContainer [] nets).
    exists (ConvertToContainerInfo r).
    assert (NoDup (resolved_name <$> [r])) as Hnd by apply NoDup_singleton.
    split; [apply (BuildContainerMap_lookup_NoDup [r] r Hnd); left|].
    split; [apply (BuildContainerMap_size_NoDup [r] Hnd)|].
    split; [apply ConvertToContainerInfo_Name|].
    split; [apply (ConvertToContainerInfo_HasNetwork r)|].
    split; [apply (ConvertToContainerInfo_HasAlias r)|].
    apply (ConvertToContainerInfo_Networks r).
  - intros cs c Hc Hn.
    pose proof (BuildContainerMap_lookup_is_Some cs c Hc) as H.
    unfold resolved_name in H. by rewrite Hn in H.
Qed.

(** C8 at a first name entry without a leading "/": it is the resolved name
    as it stands. *)
Lemma sanitize_and_nameless_record_witness :
  HasPrefix "web" "/" = false ∧ sanitizeContainerName ["web"; "/other"] = "web".
Proof.
  split; [reflexivity|].
  apply (proj1 (proj2 (proj2 sanitize_and_nameless_record))). reflexivity.
Defined.

(** C2, as stated, fails: the two records that resolve to "a" in either
    order are rearrangements of each other, and the bucket of "n0" holds the
    info of whichever record comes last. *)
Lemma permutation_changes_buckets :
  clash ≡ₚ [clash_second; clash_first]
  ∧ BuildNetworkToContainersMap clash !! "n0"
    = Some [ {| Name := "a"; Aliases := []; Networks := ["n1"] |} ]
  ∧ BuildNetworkToContainersMap [clash_second; clash_first] !! "n0"
    = Some [ {| Name := "a"; Aliases := ["x"]; Networks := ["n0"; "n1"] |} ]
  ∧ BuildNetworkToContainersMap clash
    ≠ BuildNetworkToContainersMap [clash_second; clash_first].
Proof.
  split; [apply Permutation_swap|].
  split; [by vm_compute|]. split; [by vm_compute|].
  intros Heq. apply (f_equal (λ m, m !! "n0")) in Heq.
  vm_compute in Heq. discriminate Heq.
Qed.

(** The order in which the network map of a record is ranged over shows in
    the entries of the buckets: the record of "api" read with "frontend"
    first or with "backend" first gives entries whose networks are in that
    order, so that the buckets of two runs on the same records, the resolved
    names being pairwise distinct, need not be identical. *)
Lemma iteration_order_shows_in_entries :
  Forall2 same_record (reverse scenario_A) scenario_A_reread
  ∧ bucket (BuildNetworkToContainersMap (reverse scenario_A)) "backend"
    = [ {| Name := "api"; Aliases := []; Networks := ["frontend"; "backend"] |};
        {| Name := "postgres"; Aliases := []; Networks := ["backend"] |};
        {| Name := "redis"; Aliases := []; Networks := ["backend"] |} ]
  ∧ bucket (BuildNetworkToContainersMap scenario_A_reread) "backend"
    = [ {| Name := "api"; Aliases := []; Networks := ["backend"; "frontend"] |};
        {| Name := "postgres"; Aliases := []; Networks := ["backend"] |};
        {| Name := "redis"; Aliases := []; Networks := ["backend"] |} ].
Proof.
  split; [|split; by vm_compute].
  repeat constructor.
Qed.

(** C2 (sort invariance), amended. Every bucket is in ascending order of
    name. Take two runs on the same raw records: the records in any order,
    and the network map of every record ranged over in any order. The two
    maps have the same keys, and the sequence of names in every bucket is
    the same. Where the two container maps hold, under every name, values
    that agree up to the order of their networks and of their aliases, and
    so whenever the resolved names are pairwise distinct, the buckets agree
    entry by entry up to the order of the networks and of the aliases of
    the entries, which therefore have the same sorted networks and sorted
    aliases. *)
Theorem buckets_sorted_and_permutation (cs cs1 cs' : list docker.Container) :
  cs ≡ₚ cs1 →
  Forall2 same_record cs1 cs' →
  (∀ N b, BuildNetworkToContainersMap cs !! N = Some b →
          StronglySorted String.le (Name <$> b))
  ∧ (∀ N, is_Some (BuildNetworkToContainersMap cs !! N)
          ↔ is_Some (BuildNetworkToContainersMap cs' !! N))
  ∧ (∀ N, Name <$> bucket (BuildNetworkToContainersMap cs) N
          = Name <$> bucket (BuildNetworkToContainersMap cs') N)
  ∧ ((∀ name ci ci',
        BuildContainerMap cs !! name = Some ci →
        BuildContainerMap cs' !! name = Some ci' → same_info ci ci') →
     ∀ N, Forall2 same_info (bucket (BuildNetworkToContainersMap cs) N)
                            (bucket (BuildNetworkToContainersMap cs') N))
  ∧ (NoDup (resolved_name <$> cs) →
     ∀ N, Forall2
            (λ e e', same_info e e'
                     ∧ SortedNetworks e = SortedNetworks e'
                     ∧ SortedAliases e = SortedAliases e')
            (bucket (BuildNetworkToContainersMap cs) N)
            (bucket (BuildNetworkToContainersMap cs') N)).
Proof.
  intros Hp Hr. split; [|split; [|split; [|split]]].
  - intros N b Hb. rewrite BuildNetworkToContainersMap_lookup in Hb.
    apply fmap_Some in Hb as (l & _ & ->).
    apply StronglySorted_fmap with (R1 := name_le);
      [done | apply sort_by_name_sorted].
  - intros N. rewrite !key_iff_bucket.
    pose proof (bucket_names_reread cs cs1 cs' N Hp Hr) as Hnames.
    destruct (bucket (BuildNetworkToContainersMap cs) N),
      (bucket (BuildNetworkToContainersMap cs') N); done.
  - intros N. by apply (bucket_names_reread cs cs1 cs').
  - intros Hmaps N. by apply (buckets_reread cs cs1 cs').
  - intros Hnd N.
    eapply Forall2_impl.
    + apply (buckets_reread cs cs1 cs' N Hp Hr).
      intros name ci ci'. by apply (container_maps_reread cs cs1 cs').
    + intros e e' He. split; [done|]. destruct He as (_ & Hn & Ha).
      unfold SortedNetworks, SortedAliases. split.
      * apply sort_strings_unique; [apply sort_strings_sorted|].
        by rewrite sort_strings_perm.
      * apply sort_strings_unique; [apply sort_strings_sorted|].
        by rewrite sort_strings_perm.
Qed.

(** C2 amended, at Scenario A and a second run that meets the records in
    the reverse order and ranges over the network map of "api" in the other
    order: the bucket of "backend" has the names "api", "postgres" and
    "redis" in both, and its entries agree up to the order of their
    networks. *)
Lemma buckets_sorted_and_permutation_witness :
  scenario_A ≡ₚ reverse scenario_A
  ∧ Forall2 same_record (reverse scenario_A) scenario_A_reread
  ∧ NoDup (resolved_name <$> scenario_A)
  ∧ Name <$> bucket (BuildNetworkToContainersMap scenario_A) "backend"
    = Name <$> bucket (BuildNetworkToContainersMap scenario_A_reread) "backend"
  ∧ Forall2
      (λ e e', same_info e e'
               ∧ SortedNetworks e = SortedNetworks e'
               ∧ SortedAliases e = SortedAliases e')
      (bucket (BuildNetworkToContainersMap scenario_A) "backend")
      (bucket (BuildNetworkToContainersMap scenario_A_reread) "backend").
Proof.
  assert (scenario_A ≡ₚ reverse scenario_A) as Hp
    by (symmetry; apply reverse_Permutation).
  assert (Forall2 same_record (reverse scenario_A) scenario_A_reread) as Hr.
  { repeat constructor. }
  assert (NoDup (resolved_name <$> scenario_A)) as Hnd
    by (apply (bool_decide_unpack _); vm_compute; exact I).
  split; [exact Hp|]. split; [exact Hr|]. split; [exact Hnd|].
  destruct (buckets_sorted_and_permutation scenario_A (reverse scenario_A)
              scenario_A_reread Hp Hr) as (_ & _ & Hnames & _ & Hentries).
  split; [apply Hnames | by apply Hentries].
Defined.

(** C3, as stated, fails: of the two records that resolve to "a" only the
    first declares "n0", and the entry in the bucket of "n0" is a copy of
    the second, which is not on "n0". *)
Lemma bucket_entry_without_network :
  BuildNetworkToContainersMap clash !! "n0"
  = Some [ {| Name := "a"; Aliases := []; Networks := ["n1"] |} ]
  ∧ HasNetwork {| Name := "a"; Aliases := []; Networks := ["n1"] |} "n0" = false.
Proof. split; by vm_compute. Qed.

(** C3 (bucket membership), amended. When the resolved names of the raw
    records are pairwise distinct, every entry of the bucket of a network [N]
    has [N] among its networks, and the bucket holds exactly the infos of
    the records that declare [N], one for each; the keys of the map are the
    networks that some record declares. *)
Theorem bucket_entries_have_network (cs : list docker.Container)
    (N : string) (b : list ContainerInfo) :
  NoDup (resolved_name <$> cs) →
  Forall wf_container cs →
  BuildNetworkToContainersMap cs !! N = Some b →
  (∀ e, e ∈ b → HasNetwork e N = true)
  ∧ b ≡ₚ ConvertToContainerInfo <$> filter (declares N) cs
  ∧ length b = length (filter (declares N) cs)
  ∧ (∀ N', is_Some (BuildNetworkToContainersMap cs !! N')
           ↔ ∃ c, c ∈ cs ∧ declares N' c).
Proof.
  intros Hnd Hwf Hb. rewrite BuildNetworkToContainersMap_lookup in Hb.
  apply fmap_Some in Hb as (l & Hl & ->).
  apply nonempty_Some in Hl as [Hl _]. rewrite memberships_NoDup in Hl by done.
  subst l. split; [|split; [|split]].
  - intros e. rewrite sort_by_name_perm.
    intros (c & -> & Hc)%list_elem_of_fmap.
    apply list_elem_of_filter in Hc as [Hd _].
    by apply ConvertToContainerInfo_HasNetwork.
  - apply sort_by_name_perm.
  - by rewrite sort_by_name_perm, length_fmap.
  - intros N'. rewrite BuildNetworkToContainersMap_lookup, fmap_is_Some.
    split.
    + intros [l Hl]. apply nonempty_Some in Hl as [Hl Hne].
      destruct l as [|e l]; [done|].
      assert (e ∈ memberships (BuildContainerMap cs) cs N') as He
        by (rewrite Hl; left).
      apply memberships_elem_of in He as (c & Hc & Hd & _). by exists c.
    + intros (c & Hc & Hd).
      assert (BuildContainerMap cs !!! resolved_name c
              ∈ memberships (BuildContainerMap cs) cs N') as He
        by (apply memberships_elem_of; by exists c).
      destruct (memberships _ _ _); [by inversion He | by eexists].
Qed.

(** C3 amended, at Scenario A and the network "backend". *)
Lemma bucket_entries_have_network_witness :
  BuildNetworkToContainersMap scenario_A !! "backend" = Some backend_bucket
  ∧ (∀ e, e ∈ backend_bucket → HasNetwork e "backend" = true)
  ∧ backend_bucket
    ≡ₚ ConvertToContainerInfo <$> filter (declares "backend") scenario_A
  ∧ length backend_bucket = length (filter (declares "backend") scenario_A)
  ∧ (∀ N', is_Some (BuildNetworkToContainersMap scenario_A !! N')
           ↔ ∃ c, c ∈ scenario_A ∧ declares N' c).
Proof.
  assert (BuildNetworkToContainersMap scenario_A !! "backend"
          = Some backend_bucket) as Hb by (vm_compute; reflexivity).
  split; [exact Hb|].
  apply (bucket_entries_have_network scenario_A "backend" backend_bucket).
  - apply (bool_decide_unpack _). vm_compute. exact I.
  - apply (bool_decide_unpack _). vm_compute. exact I.
  - exact Hb.
Defined.

(** C10 (what a bucket holds). The bucket of a network holds, rearranged by
    the sort, one entry for every membership of that network that a raw
    record declares, and each entry is the value that the finished container
    map holds for the resolved name of the declaring record, which is the
    conversion of the last record of that name. So with the two records that
    resolve to "a", of which only the first declares "n0" and both declare
    "n1", the bucket of "n1" holds the info of the second record twice and
    the bucket of "n0" holds the info of the second record, which does not
    declare "n0". *)
Theorem bucket_entries_are_map_copies :
  (∀ (cs : list docker.Container) (N : string),
      let cm := BuildContainerMap cs in
      let b := bucket (BuildNetworkToContainersMap cs) N in
      b ≡ₚ memberships cm cs N
      ∧ length b
        = sum_list ((λ cont, length (filter (λ entry, entry.1 = N)
                                            (NetworkSettings cont))) <$> cs)
      ∧ (∀ e, e ∈ b ↔
              ∃ c, c ∈ cs ∧ declares N c ∧ cm !! resolved_name c = Some e)
      ∧ (∀ c, c ∈ cs →
              ∃ c', last (named (resolved_name c) cs) = Some c'
                    ∧ cm !! resolved_name c = Some (ConvertToContainerInfo c')))
  ∧ bucket (BuildNetworkToContainersMap clash) "n1"
    = [ConvertToContainerInfo clash_second; ConvertToContainerInfo clash_second]
  ∧ bucket (BuildNetworkToContainersMap clash) "n0"
    = [ConvertToContainerInfo clash_second]
  ∧ ¬ declares "n0" clash_second
  ∧ ConvertToContainerInfo clash_first ≠ ConvertToContainerInfo clash_second.
Proof.
  split.
  - intros cs N cm b. subst cm b. rewrite BuildNetworkToContainersMap_bucket.
    split; [apply sort_by_name_perm|]. split; [|split].
    + rewrite sort_by_name_perm. unfold memberships.
      induction cs as [|c cs' IH] in |- * at 2 3; [done|].
      rewrite bind_cons, length_app, length_fmap, fmap_cons. simpl.
      by rewrite IH.
    + intros e. rewrite sort_by_name_perm, memberships_elem_of.
      split; intros (c & Hc & Hd & He); exists c; (split; [done|split; [done|]]).
      * destruct (BuildContainerMap_lookup_is_Some cs c Hc) as [x Hx].
        rewrite lookup_total_alt, Hx in He. by subst.
      * by rewrite lookup_total_alt, He.
    + intros c Hc. rewrite BuildContainerMap_lookup.
      destruct (last_is_Some_elem_of (named (resolved_name c) cs) c) as [c' Hc'].
      { by apply named_elem_of. }
      exists c'. by rewrite Hc'.
  - split; [by vm_compute|]. split; [by vm_compute|].
    split; [|by vm_compute].
    intros H. apply (bool_decide_pack _) in H. by vm_compute in H.
Qed.

(** C6 (empty network). With colour off, that is with the identity style
    function, [PrintNetworkTree] on an empty container list appends to the
    sink the line "Network: <n> (<d>)" and the line "└── (no containers)",
    each followed by a line feed, and nothing else. *)
Theorem PrintNetworkTree_empty (Sprint : Color → string → string)
    (w n d : string) :
  PrintNetworkTree Sprint (mkColorWriter false) w (NetworkInfo.mk n d) []
  = w +:+ "Network: " +:+ n +:+ " (" +:+ d +:+ ")" +:+ nl
      +:+ "└── (no containers)" +:+ nl.
Proof.
  unfold PrintNetworkTree. cbn [length]. rewrite decide_True by done.
  unfold Fprintf, Label, Network, Tree, paint. cbn [enabled negb NetworkInfo.Name
    NetworkInfo.Driver].
  rewrite !concat_cons, !append_assoc. cbn [String.concat].
  rewrite !append_nil_r. reflexivity.
Qed.

(** C5, as stated, fails: the line that [PrintContainerTree] writes for an
    empty result is not bare, it carries the end glyph before "(none)". *)
Lemma none_line_carries_end_glyph :
  PrintContainerTree plain (mkColorWriter false) "" isolated solo_map
  = unlines [ "Container: isolated";
              "└── Network: solo_network";
              "    └── connects to:";
              "        └── (none)" ]
  ∧ unlines (container_tree_lines plain (none_line_bare plain) isolated solo_map)
    = unlines [ "Container: isolated";
                "└── Network: solo_network";
                "    └── connects to:";
                "        (none)" ]
  ∧ PrintContainerTree plain (mkColorWriter false) "" isolated solo_map
    ≠ unlines (container_tree_lines plain (none_line_bare plain) isolated solo_map).
Proof. split; [by vm_compute|]. split; by vm_compute. Qed.

(** C5 (the lines under "connects to:"), amended. [PrintContainerTree]
    appends to the sink the header line and, for every network of the
    container in ascending order, the network line, the "connects to:" line
    and the reachability lines. For a network whose reachable list is empty
    that is one line: the indent of the network, four spaces, the end glyph
    and " (none)". Otherwise it is one line per reachable name: the indent,
    four spaces, the branch glyph, or the end glyph on the last line, a
    space and the name. With colour off the style function is the
    identity. *)
Theorem PrintContainerTree_reach_lines (Sprint : Color → string → string)
    (cw : ColorWriter) (w : string) (c : ContainerInfo)
    (netMap : gmap string (list ContainerInfo)) :
  let style := style_of Sprint cw in
  PrintContainerTree Sprint cw w c netMap
  = w +:+ unlines (container_tree_lines style (none_line_glyph style) c netMap)
  ∧ (∀ indent,
      reach_lines style (none_line_glyph style) indent []
      = [style colorTree indent +:+ "    " +:+ style colorTree TreeEnd
           +:+ " (none)"])
  ∧ (∀ indent others, others ≠ [] →
      length (reach_lines style (none_line_glyph style) indent others)
      = length others
      ∧ ∀ j o, others !! j = Some o →
          reach_lines style (none_line_glyph style) indent others !! j
          = Some (style colorTree indent +:+ "    " +:+
                  style colorTree
                    (if bool_decide (j = length others - 1)
                     then TreeEnd else TreeBranch) +:+
                  " " +:+ style colorContainer o))
  ∧ (enabled cw = false → ∀ k text, style k text = text).
Proof.
  intros style. split; [apply PrintContainerTree_eq|].
  split; [done|]. split.
  - intros indent others Hne.
    assert (reach_lines style (none_line_glyph style) indent others
            = imap (λ j o,
                      style colorTree indent +:+ "    " +:+
                      style colorTree
                        (if bool_decide (j = length others - 1)
                         then TreeEnd else TreeBranch) +:+
                      " " +:+ style colorContainer o) others) as ->
      by (by destruct others).
    split; [by rewrite length_imap|].
    intros j o Hj. by rewrite list_lookup_imap, Hj.
  - intros Hoff k text. subst style. unfold style_of, paint. by rewrite Hoff.
Qed.

(** C5 amended, at the container "api" of Scenario A with colour off. *)
Lemma PrintContainerTree_reach_lines_witness :
  PrintContainerTree plain (mkColorWriter false) ""
    {| Name := "api"; Aliases := []; Networks := ["frontend"; "backend"] |}
    (BuildNetworkToContainersMap scenario_A)
  = unlines [ "Container: api";
              "├── Network: backend";
              "│   └── connects to:";
              "│       ├── postgres";
              "│       └── redis";
              "└── Network: frontend";
              "    └── connects to:";
              "        └── web_app" ].
Proof.
  rewrite (proj1 (PrintContainerTree_reach_lines plain (mkColorWriter false) ""
    {| Name := "api"; Aliases := []; Networks := ["frontend"; "backend"] |}
    (BuildNetworkToContainersMap scenario_A))).
  vm_compute. reflexivity.
Defined.

(** C9 (alias stripping leaves the source alone). Called on a slice of
    containers, [removeAliasesFromContainers] returns a slice into a new
    array, of the same length, whose elements have the names and the
    networks of the source elements, in order, and no aliases; every array
    that existed before the call, of strings or of containers, is as it was,
    so the source elements and their alias lists read as before. *)
Theorem removeAliasesFromContainers_frame (m : memory) (containers : slice) :
  valid_infos m containers →
  let '(result, m') := removeAliasesFromContainers m containers in
  let source := load_infos m containers in
  let copy := load_infos m' result in
  length copy = length source
  ∧ length source = len containers
  ∧ (∀ i c, source !! i = Some c →
        ∃ r, copy !! i = Some r
             ∧ Name r = Name c ∧ Networks r = Networks c ∧ Aliases r = [])
  ∧ copy = strip_aliases <$> source
  ∧ (base result ∉ dom (info_arrays m))
  ∧ string_arrays m' = string_arrays m
  ∧ (∀ l, l ∈ dom (info_arrays m) → info_arrays m' !! l = info_arrays m !! l)
  ∧ load_infos m' containers = source
  ∧ (∀ c, c ∈ read_infos m containers →
        read_strings m' (sAliases c) = read_strings m (sAliases c)).
Proof.
  intros Hvalid. rewrite removeAliasesFromContainers_eq by done.
  set (l := fresh (dom (info_arrays m))).
  set (m' := {| string_arrays := string_arrays m;
                info_arrays := <[l := stripped <$> read_infos m containers]>
                                 (info_arrays m) |}).
  cbv zeta.
  assert (l ∉ dom (info_arrays m)) as Hfresh by apply fresh_array_not_in_dom.
  assert (base containers ≠ l) as Hne.
  { intros Heq. apply Hfresh. rewrite <- Heq. by apply valid_infos_base. }
  pose proof (read_infos_length m containers Hvalid) as Hlen.
  assert (read_infos m' (mkSlice l 0 (len containers))
          = stripped <$> read_infos m containers) as Hres.
  { unfold read_infos. simpl. rewrite lookup_insert_eq. simpl.
    rewrite drop_0, take_ge; [done|]. by rewrite length_fmap, Hlen. }
  assert (load_infos m' (mkSlice l 0 (len containers))
          = strip_aliases <$> load_infos m containers) as Hcopy.
  { unfold load_infos. rewrite Hres, <- !list_fmap_compose.
    apply list_fmap_ext. intros i c _. simpl. by apply load_info_stripped. }
  split; [by rewrite Hcopy, length_fmap|].
  split; [unfold load_infos; by rewrite length_fmap|].
  split.
  { intros i c Hc. exists (strip_aliases c).
    split; [by rewrite Hcopy, list_lookup_fmap, Hc | done]. }
  split; [done|]. split; [done|]. split; [done|].
  split.
  { intros l' Hl'. simpl. apply lookup_insert_ne. intros ->. by apply Hfresh. }
  split.
  { unfold load_infos, read_infos. simpl. rewrite lookup_insert_ne by done.
    apply list_fmap_ext. intros i c _. by apply load_info_frame. }
  intros c _. done.
Qed.

(** C9 at Scenario D: the copy of "web" has no aliases and the source still
    has its two. *)
Lemma removeAliasesFromContainers_frame_witness :
  valid_infos scenario_D scenario_D_containers
  ∧ load_infos scenario_D scenario_D_containers
    = [ {| Name := "web"; Aliases := ["www"; "webapp"]; Networks := ["bridge"] |} ]
  ∧ (let '(result, m') :=
       removeAliasesFromContainers scenario_D scenario_D_containers in
     load_infos m' result
     = [ {| Name := "web"; Aliases := []; Networks := ["bridge"] |} ]
     ∧ load_infos m' scenario_D_containers
       = [ {| Name := "web"; Aliases := ["www"; "webapp"];
              Networks := ["bridge"] |} ]).
Proof.
  assert (valid_infos scenario_D scenario_D_containers) as Hvalid.
  { eexists. split; [by vm_compute | simpl; lia]. }
  split; [exact Hvalid|]. split; [by vm_compute|].
  pose proof (removeAliasesFromContainers_frame scenario_D
                scenario_D_containers Hvalid) as H.
  destruct (removeAliasesFromContainers scenario_D scenario_D_containers)
    as [result m'].
  destruct H as (_ & _ & _ & Hcopy & _ & _ & _ & Hsrc & _).
  split; [rewrite Hcopy; by vm_compute | rewrite Hsrc; by vm_compute].
Defined.

(** * Further properties of the code *)

(** X1. Whatever the raw records repeat (the same alias on two networks,
    two records of one name), every [ContainerInfo] that the builders
    produce, in the container map and in the buckets, has no network twice
    and no alias twice. *)
Theorem built_infos_have_no_duplicates (cs : list docker.Container) :
  (∀ name ci, BuildContainerMap cs !! name = Some ci →
              NoDup (Networks ci) ∧ NoDup (Aliases ci))
  ∧ (∀ N e, e ∈ bucket (BuildNetworkToContainersMap cs) N →
            NoDup (Networks e) ∧ NoDup (Aliases e))
  ∧ (∀ c, NoDup (Networks (ConvertToContainerInfo c))
          ∧ NoDup (Aliases (ConvertToContainerInfo c))).
Proof.
  assert (∀ name ci, BuildContainerMap cs !! name = Some ci →
                     NoDup (Networks ci) ∧ NoDup (Aliases ci)) as Hmap.
  { intros name ci (c & _ & _ & ->)%BuildContainerMap_value_is_conversion.
    apply ConvertToContainerInfo_NoDup. }
  split; [exact Hmap|]. split; [|apply ConvertToContainerInfo_NoDup].
  intros N e He. apply (Hmap (Name e)). by eapply bucket_entry_is_map_value.
Qed.

(** X2. How the add and the membership operations compose. [HasAlias]
    tells membership in the alias list. [AddAlias c v] returns [false] and
    leaves [c] as it is when [v] is among the aliases, and otherwise returns
    [true] and appends [v] to them: afterwards the aliases are those of [c]
    and [v], the name and the networks are untouched, a list without
    duplicates stays so, and the result tells whether the number of aliases
    grew. Likewise for [AddNetwork] and [HasNetwork]. *)
Theorem add_and_has_compose (c : ContainerInfo) (v : string) :
  (∀ x, HasAlias c x = true ↔ x ∈ Aliases c)
  ∧ AddAlias c v
    = (if decide (v ∈ Aliases c) then (false, c)
       else (true, {| Name := Name c; Aliases := Aliases c ++ [v];
                      Networks := Networks c |}))
  ∧ (∀ x, x ∈ Aliases (AddAlias c v).2 ↔ x ∈ Aliases c ∨ x = v)
  ∧ Networks (AddAlias c v).2 = Networks c
  ∧ (∀ x, HasNetwork c x = true ↔ x ∈ Networks c)
  ∧ AddNetwork c v
    = (if decide (v ∈ Networks c) then (false, c)
       else (true, {| Name := Name c; Aliases := Aliases c;
                      Networks := Networks c ++ [v] |}))
  ∧ (∀ x, x ∈ Networks (AddNetwork c v).2 ↔ x ∈ Networks c ∨ x = v)
  ∧ Aliases (AddNetwork c v).2 = Aliases c
  ∧ (∀ x, HasAlias (AddAlias c v).2 x = HasAlias c x || bool_decide (x = v))
  ∧ (∀ x, HasNetwork (AddAlias c v).2 x = HasNetwork c x)
  ∧ Name (AddAlias c v).2 = Name c
  ∧ (NoDup (Aliases c) → NoDup (Aliases (AddAlias c v).2))
  ∧ ((AddAlias c v).1 = true ↔ AliasCount (AddAlias c v).2 = S (AliasCount c))
  ∧ ((AddAlias c v).1 = false ↔ (AddAlias c v).2 = c)
  ∧ (∀ x, HasNetwork (AddNetwork c v).2 x = HasNetwork c x || bool_decide (x = v))
  ∧ (∀ x, HasAlias (AddNetwork c v).2 x = HasAlias c x)
  ∧ Name (AddNetwork c v).2 = Name c
  ∧ (NoDup (Networks c) → NoDup (Networks (AddNetwork c v).2))
  ∧ ((AddNetwork c v).1 = true
     ↔ NetworkCount (AddNetwork c v).2 = S (NetworkCount c))
  ∧ ((AddNetwork c v).1 = false ↔ (AddNetwork c v).2 = c).
Proof.
  split; [intros x; apply scan_elem_of|].
  split.
  { unfold AddAlias. destruct (scan (Aliases c) v) eqn:Hs.
    - by rewrite decide_True by (by apply scan_elem_of).
    - rewrite decide_False; [done|]. intros Hin%scan_elem_of. congruence. }
  split; [intros x; apply AddAlias_elem_of|].
  split; [apply AddAlias_Networks|].
  split; [intros x; apply scan_elem_of|].
  split.
  { unfold AddNetwork. destruct (scan (Networks c) v) eqn:Hs.
    - by rewrite decide_True by (by apply scan_elem_of).
    - rewrite decide_False; [done|]. intros Hin%scan_elem_of. congruence. }
  split; [intros x; apply AddNetwork_elem_of|].
  split; [apply AddNetwork_Aliases|].
  assert (∀ l x, scan (l ++ [v]) x = scan l x || bool_decide (x = v)) as Hsnoc.
  { intros l x. rewrite scan_app. simpl. f_equal.
    destruct (String.eqb_spec v x) as [->|Hne].
    - by rewrite bool_decide_eq_true_2.
    - by rewrite bool_decide_eq_false_2. }
  assert (∀ l x, scan l v = true → scan l x = scan l x || bool_decide (x = v))
    as Hin.
  { intros l x Hs. destruct (decide (x = v)) as [->|Hne].
    - by rewrite Hs.
    - by rewrite (bool_decide_eq_false_2 _ Hne), orb_false_r. }
  repeat split.
  - intros x. unfold HasAlias, AddAlias.
    destruct (scan (Aliases c) v) eqn:Hs; simpl; [by apply Hin | apply Hsnoc].
  - intros x. unfold HasNetwork. by rewrite AddAlias_Networks.
  - apply AddAlias_Name.
  - apply AddAlias_NoDup.
  - unfold AddAlias, AliasCount. destruct (scan _ _); simpl; [done|].
    intros _. rewrite length_app. simpl. lia.
  - unfold AddAlias, AliasCount. destruct (scan _ _); simpl; [lia | done].
  - unfold AddAlias. destruct (scan _ _); simpl; [done | discriminate].
  - unfold AddAlias. destruct (scan _ _) eqn:Hs; simpl; [done|].
    intros Heq. apply (f_equal (λ c, length (Aliases c))) in Heq.
    simpl in Heq. rewrite length_app in Heq. simpl in Heq. lia.
  - intros x. unfold HasNetwork, AddNetwork.
    destruct (scan (Networks c) v) eqn:Hs; simpl; [by apply Hin | apply Hsnoc].
  - intros x. unfold HasAlias. by rewrite AddNetwork_Aliases.
  - apply AddNetwork_Name.
  - apply AddNetwork_NoDup.
  - unfold AddNetwork, NetworkCount. destruct (scan _ _); simpl; [done|].
    intros _. rewrite length_app. simpl. lia.
  - unfold AddNetwork, NetworkCount. destruct (scan _ _); simpl; [lia | done].
  - unfold AddNetwork. destruct (scan _ _); simpl; [done | discriminate].
  - unfold AddNetwork. destruct (scan _ _) eqn:Hs; simpl; [done|].
    intros Heq. apply (f_equal (λ c, length (Networks c))) in Heq.
    simpl in Heq. rewrite length_app in Heq. simpl in Heq. lia.
Qed.

(** X3. [SortedNetworks] and [SortedAliases] return the members in ascending
    order: the result is sorted, is a rearrangement of the field (so it has
    the same members and the same length), and does not depend on the order
    in which the members were added. *)
Theorem sorted_views (c : ContainerInfo) :
  StronglySorted String.le (SortedNetworks c)
  ∧ SortedNetworks c ≡ₚ Networks c
  ∧ length (SortedNetworks c) = NetworkCount c
  ∧ (∀ n, n ∈ SortedNetworks c ↔ HasNetwork c n = true)
  ∧ (∀ c', Networks c ≡ₚ Networks c' → SortedNetworks c = SortedNetworks c')
  ∧ StronglySorted String.le (SortedAliases c)
  ∧ SortedAliases c ≡ₚ Aliases c
  ∧ length (SortedAliases c) = AliasCount c
  ∧ (∀ a, a ∈ SortedAliases c ↔ HasAlias c a = true)
  ∧ (∀ c', Aliases c ≡ₚ Aliases c' → SortedAliases c = SortedAliases c').
Proof.
  unfold SortedNetworks, SortedAliases, NetworkCount, AliasCount,
    HasNetwork, HasAlias.
  repeat split; try apply sort_strings_sorted; try apply sort_strings_perm;
    try apply sort_strings_length.
  - rewrite sort_strings_perm. apply scan_elem_of.
  - rewrite sort_strings_perm. apply scan_elem_of.
  - intros c' Hp. apply sort_strings_unique; [apply sort_strings_sorted|].
    by rewrite sort_strings_perm.
  - rewrite sort_strings_perm. apply scan_elem_of.
  - rewrite sort_strings_perm. apply scan_elem_of.
  - intros c' Hp. apply sort_strings_unique; [apply sort_strings_sorted|].
    by rewrite sort_strings_perm.
Qed.

(** X4. The order in which Go ranges over the network map of a raw record
    shows only in the order of the lists of the converted info: two records
    with the same names and the same map entries, met in different orders,
    convert to infos with the same name, the same networks and the same
    aliases up to order, hence with the same sorted views. *)
Theorem conversion_up_to_iteration_order (cont cont' : docker.Container) :
  Names cont = Names cont' →
  NetworkSettings cont ≡ₚ NetworkSettings cont' →
  Name (ConvertToContainerInfo cont) = Name (ConvertToContainerInfo cont')
  ∧ Networks (ConvertToContainerInfo cont)
    ≡ₚ Networks (ConvertToContainerInfo cont')
  ∧ Aliases (ConvertToContainerInfo cont)
    ≡ₚ Aliases (ConvertToContainerInfo cont')
  ∧ SortedNetworks (ConvertToContainerInfo cont)
    = SortedNetworks (ConvertToContainerInfo cont')
  ∧ SortedAliases (ConvertToContainerInfo cont)
    = SortedAliases (ConvertToContainerInfo cont').
Proof.
  intros Hnames Hp. unfold ConvertToContainerInfo. rewrite <- Hnames.
  destruct (fold_add_endpoint_perm (NetworkSettings cont) (NetworkSettings cont')
              (NewContainerInfo (sanitizeContainerName (Names cont))))
    as (HN & Hnets & Hals); [apply NoDup_nil_2 | apply NoDup_nil_2 | done |].
  split; [done|]. split; [done|]. split; [done|].
  split.
  - apply sort_strings_unique; [apply sort_strings_sorted|].
    unfold SortedNetworks. by rewrite sort_strings_perm.
  - apply sort_strings_unique; [apply sort_strings_sorted|].
    unfold SortedAliases. by rewrite sort_strings_perm.
Qed.

(** X4 at a record whose two map entries are met in either order. *)
Lemma conversion_up_to_iteration_order_witness :
  NetworkSettings (mkContainer ["/api"] [member "frontend" ["a"]; member "backend" ["b"]])
  ≡ₚ NetworkSettings (mkContainer ["/api"] [member "backend" ["b"]; member "frontend" ["a"]])
  ∧ SortedAliases
      (ConvertToContainerInfo
         (mkContainer ["/api"] [member "frontend" ["a"]; member "backend" ["b"]]))
    = SortedAliases
        (ConvertToContainerInfo
           (mkContainer ["/api"] [member "backend" ["b"]; member "frontend" ["a"]])).
Proof.
  split; [apply Permutation_swap|].
  apply (conversion_up_to_iteration_order
           (mkContainer ["/api"] [member "frontend" ["a"]; member "backend" ["b"]])
           (mkContainer ["/api"] [member "backend" ["b"]; member "frontend" ["a"]])
           eq_refl (Permutation_swap _ _ _)).
Defined.

(** ** Loops that fill a slice by index *)

Section fill_facts.

Lemma fill_by_index_from {A B} (f : A → B) (d : B) (l : list A) (filled : list B) :
  fold_left (λ result '(i, x), <[i := f x]> result)
            (imap (λ i, pair (length filled + i)) l)
            (filled ++ replicate (length l) d)
  = filled ++ (f <$> l).
Proof.
  revert filled. induction l as [|x l IH]; intros filled; [done|].
  cbn [imap fold_left length replicate fmap list_fmap].
  rewrite insert_app_r. cbn [insert list_insert].
  rewrite (imap_ext _ (λ i, pair (length (filled ++ [f x]) + i))).
  - transitivity ((filled ++ [f x]) ++ (f <$> l)); [|by rewrite <- app_assoc].
    rewrite <- IH. by rewrite <- app_assoc.
  - intros i y _. simpl. rewrite length_app. simpl. f_equal. lia.
Qed.

Lemma fill_by_index {A B} (f : A → B) (d : B) (l : list A) :
  fold_left (λ result '(i, x), <[i := f x]> result)
            (imap pair l) (replicate (length l) d)
  = f <$> l.
Proof. apply (fill_by_index_from f d l []). Qed.

Lemma removeAliasesFromContainers_values_eq (containers : list ContainerInfo) :
  removeAliasesFromContainers_values containers = strip_aliases <$> containers.
Proof.
  unfold removeAliasesFromContainers_values.
  apply (fill_by_index strip_aliases).
Qed.

End fill_facts.

(** X5. The bulk conversions return a slice of the length of their argument
    that holds no nil pointer: the element at every index is the conversion
    of the argument's element at that index. The container map is the index
    by name of the converted containers in which a later one replaces an
    earlier one of the same name. *)
Theorem bulk_conversions (cs : list docker.Container) (nets : list Summary) :
  ConvertContainersToContainerInfos cs
  = (λ c, Some (ConvertToContainerInfo c)) <$> cs
  ∧ length (ConvertContainersToContainerInfos cs) = length cs
  ∧ ConvertNetworksToNetworkInfos nets
    = (λ n, Some (NetworkInfo.mk (SummaryName n) (SummaryDriver n))) <$> nets
  ∧ length (ConvertNetworksToNetworkInfos nets) = length nets
  ∧ (∀ name,
       BuildContainerMap cs !! name
       = mjoin (last (filter (λ ci, Name <$> ci = Some name)
                             (ConvertContainersToContainerInfos cs)))).
Proof.
  assert (ConvertContainersToContainerInfos cs
          = (λ c, Some (ConvertToContainerInfo c)) <$> cs) as Hcs
    by apply (fill_by_index (λ c, Some (ConvertToContainerInfo c))).
  assert (ConvertNetworksToNetworkInfos nets
          = (λ n, Some (NetworkInfo.mk (SummaryName n) (SummaryDriver n)))
              <$> nets) as Hnets
    by apply (fill_by_index (λ n, Some (ConvertToNetworkInfo n))).
  split; [done|]. split; [by rewrite Hcs, length_fmap|].
  split; [done|]. split; [by rewrite Hnets, length_fmap|].
  intros name. rewrite Hcs, BuildContainerMap_lookup. unfold named.
  induction cs as [|c cs0 IH] using rev_ind; [done|].
  rewrite fmap_app, !filter_app. simpl.
  destruct (decide (resolved_name c = name)) as [Heq|Hne].
  - rewrite (filter_cons_True _ c) by done.
    rewrite (filter_cons_True _ (Some _))
      by (simpl; by rewrite ConvertToContainerInfo_Name, Heq).
    rewrite !filter_nil, !last_snoc. done.
  - rewrite (filter_cons_False _ c) by done.
    rewrite (filter_cons_False _ (Some _)).
    + rewrite !filter_nil, !app_nil_r. apply IH.
      apply (fill_by_index (λ c, Some (ConvertToContainerInfo c))).
    + simpl. rewrite ConvertToContainerInfo_Name. congruence.
Qed.

(** ** The two maps together *)

Section topology_facts.

Lemma BuildNetworkToContainersMap_is_Some cs N :
  is_Some (BuildNetworkToContainersMap cs !! N) ↔ ∃ c, c ∈ cs ∧ declares N c.
Proof.
  rewrite BuildNetworkToContainersMap_lookup, fmap_is_Some. split.
  - intros [l Hl]. apply nonempty_Some in Hl as [Hl Hne].
    destruct l as [|e l]; [done|].
    assert (e ∈ memberships (BuildContainerMap cs) cs N) as He
      by (rewrite Hl; left).
    apply memberships_elem_of in He as (c & Hc & Hd & _). by exists c.
  - intros (c & Hc & Hd).
    assert (BuildContainerMap cs !!! resolved_name c
            ∈ memberships (BuildContainerMap cs) cs N) as He
      by (apply memberships_elem_of; by exists c).
    destruct (memberships _ _ _); [by inversion He | by eexists].
Qed.

Lemma bucket_names cs N :
  Name <$> bucket (BuildNetworkToContainersMap cs) N
  ≡ₚ cs ≫= λ cont,
       (λ _, resolved_name cont)
         <$> filter (λ entry, entry.1 = N) (NetworkSettings cont).
Proof.
  by rewrite BuildNetworkToContainersMap_bucket, sort_by_name_perm,
    memberships_names.
Qed.

Lemma bucket_name_elem_of cs N b :
  b ∈ Name <$> bucket (BuildNetworkToContainersMap cs) N
  ↔ ∃ c, c ∈ cs ∧ resolved_name c = b ∧ declares N c.
Proof.
  rewrite list_elem_of_fmap. split.
  - intros (e & -> & (c & Hc & Hd & ->)%bucket_elem_of_memberships%memberships_elem_of).
    exists c. by rewrite BuildContainerMap_total_Name.
  - intros (c & Hc & <- & Hd). exists (BuildContainerMap cs !!! resolved_name c).
    split; [by rewrite BuildContainerMap_total_Name|].
    apply bucket_elem_of_memberships, memberships_elem_of. by exists c.
Qed.

Lemma bucket_names_wf cs N :
  Forall wf_container cs →
  Name <$> bucket (BuildNetworkToContainersMap cs) N
  ≡ₚ resolved_name <$> filter (declares N) cs.
Proof.
  intros Hwf. rewrite bucket_names.
  induction cs as [|c cs IH]; [done|].
  apply Forall_cons in Hwf as [Hc Hwf].
  rewrite bind_cons, IH by done.
  rewrite (list_fmap_compose (λ _, c) resolved_name
             (filter (λ entry, entry.1 = N) (NetworkSettings c))).
  rewrite wf_filter_key by done.
  destruct (decide (declares N c)).
  - by rewrite filter_cons_True.
  - by rewrite filter_cons_False.
Qed.

End topology_facts.

(** X6. The keys of the network map are exactly the networks that some raw
    record declares, and no bucket is empty: a network without member never
    becomes a key. The names of the container map are exactly the resolved
    names of the records, so a record without any network is in the
    container map and adds to no bucket; no record gives two empty maps. *)
Theorem keys_of_the_maps (cs : list docker.Container) :
  (∀ N, is_Some (BuildNetworkToContainersMap cs !! N)
        ↔ ∃ c, c ∈ cs ∧ declares N c)
  ∧ (∀ N b, BuildNetworkToContainersMap cs !! N = Some b → b ≠ [])
  ∧ (∀ name, is_Some (BuildContainerMap cs !! name)
             ↔ ∃ c, c ∈ cs ∧ resolved_name c = name)
  ∧ (∀ name,
       (∀ c, c ∈ cs → resolved_name c = name → NetworkSettings c = []) →
       ∀ N, name ∉ Name <$> bucket (BuildNetworkToContainersMap cs) N)
  ∧ (cs = [] → BuildContainerMap cs = ∅ ∧ BuildNetworkToContainersMap cs = ∅).
Proof.
  split; [apply BuildNetworkToContainersMap_is_Some|]. split.
  { intros N b Hb. rewrite BuildNetworkToContainersMap_lookup in Hb.
    apply fmap_Some in Hb as (l & Hl & ->).
    apply nonempty_Some in Hl as [_ Hne]. intros Hnil. apply Hne.
    apply Permutation_nil_r. rewrite <- Hnil. symmetry. apply sort_by_name_perm. }
  split.
  { intros name. rewrite <- elem_of_dom, BuildContainerMap_dom.
    rewrite elem_of_list_to_set, list_elem_of_fmap. split.
    - intros (c & -> & Hc). by exists c.
    - intros (c & Hc & <-). by exists c. }
  split; [|by intros ->].
  intros name Hnone N (c & Hc & Hn & Hd)%bucket_name_elem_of.
  unfold declares in Hd. rewrite (Hnone c Hc Hn) in Hd. by inversion Hd.
Qed.

(** X7. Every entry of every bucket is the value that the container map holds
    under the entry's own name; and the names in the bucket of a network are
    the resolved names of the records that declare it, once for every
    declaration. *)
Theorem buckets_hold_map_values (cs : list docker.Container) (N : string) :
  (∀ e, e ∈ bucket (BuildNetworkToContainersMap cs) N →
        BuildContainerMap cs !! Name e = Some e)
  ∧ (∀ b, b ∈ Name <$> bucket (BuildNetworkToContainersMap cs) N
          ↔ ∃ c, c ∈ cs ∧ resolved_name c = b ∧ declares N c)
  ∧ (Forall wf_container cs →
     Name <$> bucket (BuildNetworkToContainersMap cs) N
     ≡ₚ resolved_name <$> filter (declares N) cs).
Proof.
  split; [apply bucket_entry_is_map_value|].
  split; [apply bucket_name_elem_of | apply bucket_names_wf].
Qed.

(** ** Reachability on the maps that the builders return *)

Section reachability_on_maps.

Lemma filter_fmap_Name (self : string) (l : list ContainerInfo) :
  Name <$> filter (λ c, Name c ≠ self) l
  = filter (λ n, n ≠ self) (Name <$> l).
Proof.
  induction l as [|c l IH]; [done|].
  rewrite fmap_cons. destruct (decide (Name c = self)) as [Heq|Hne].
  - rewrite !filter_cons_False by (intros H; by apply H). done.
  - rewrite !filter_cons_True by done. by rewrite fmap_cons, IH.
Qed.

Lemma ReachableContainers_names self N M :
  ReachableContainers self N M
  = sort_strings (filter (λ n, n ≠ self) (Name <$> bucket M N)).
Proof. by rewrite ReachableContainers_eq, filter_fmap_Name. Qed.

Lemma ReachableContainers_elem_of self N M b :
  b ∈ ReachableContainers self N M ↔ b ≠ self ∧ b ∈ Name <$> bucket M N.
Proof.
  rewrite ReachableContainers_names, sort_strings_perm.
  by rewrite list_elem_of_filter.
Qed.

End reachability_on_maps.

(** X8. Reachability from end to end: on the map built from raw records, [b]
    is reachable from [a] over the network [N] exactly when [b] is another
    name than [a] and some record that resolves to [b] declares [N]. So two
    containers of different names that both declare [N] reach each other. *)
Theorem reachability_of_records (cs : list docker.Container) (a b N : string) :
  (b ∈ ReachableContainers a N (BuildNetworkToContainersMap cs)
   ↔ b ≠ a ∧ ∃ c, c ∈ cs ∧ resolved_name c = b ∧ declares N c)
  ∧ (b ∈ ReachableContainers a N (BuildNetworkToContainersMap cs) →
     (∃ c, c ∈ cs ∧ resolved_name c = a ∧ declares N c) →
     a ∈ ReachableContainers b N (BuildNetworkToContainersMap cs)).
Proof.
  assert (∀ x y,
    y ∈ ReachableContainers x N (BuildNetworkToContainersMap cs)
    ↔ y ≠ x ∧ ∃ c, c ∈ cs ∧ resolved_name c = y ∧ declares N c) as Hiff.
  { intros x y. by rewrite ReachableContainers_elem_of, bucket_name_elem_of. }
  split; [apply Hiff|].
  intros [Hne _]%Hiff Ha. apply Hiff. split; [congruence | done].
Qed.

(** X9. When the keys of every record's network map are distinct, as the keys
    of a Go map are, the containers reachable from [a] over [N] are the
    resolved names, other than [a], of the records that declare [N], in
    ascending order; when moreover the resolved names are pairwise distinct,
    no name is listed twice. *)
Theorem reachable_names_of_records (cs : list docker.Container) (a N : string) :
  Forall wf_container cs →
  ReachableContainers a N (BuildNetworkToContainersMap cs)
  = sort_strings
      (filter (λ n, n ≠ a) (resolved_name <$> filter (declares N) cs))
  ∧ (NoDup (resolved_name <$> cs) →
     NoDup (ReachableContainers a N (BuildNetworkToContainersMap cs))).
Proof.
  intros Hwf.
  assert (ReachableContainers a N (BuildNetworkToContainersMap cs)
          = sort_strings
              (filter (λ n, n ≠ a) (resolved_name <$> filter (declares N) cs)))
    as Heq.
  { rewrite ReachableContainers_names.
    apply sort_strings_unique; [apply sort_strings_sorted|].
    rewrite sort_strings_perm. by rewrite bucket_names_wf. }
  split; [done|]. intros Hnd. rewrite Heq, sort_strings_perm.
  apply NoDup_filter.
  assert (∀ l : list docker.Container,
            sublist l cs → NoDup (resolved_name <$> l)) as Hsub.
  { intros l Hl. eapply sublist_NoDup; [exact Hnd|]. by apply fmap_sublist. }
  apply Hsub, sublist_filter.
Qed.

(** X9 at Scenario A: from "redis" over "backend". *)
Lemma reachable_names_of_records_witness :
  Forall wf_container scenario_A
  ∧ ReachableContainers "redis" "backend" (BuildNetworkToContainersMap scenario_A)
    = sort_strings
        (filter (λ n, n ≠ "redis")
           (resolved_name <$> filter (declares "backend") scenario_A)).
Proof.
  assert (Forall wf_container scenario_A) as Hwf
    by (apply (bool_decide_unpack _); vm_compute; exact I).
  split; [exact Hwf|].
  exact (proj1 (reachable_names_of_records scenario_A "redis" "backend" Hwf)).
Defined.

(** X10. [ReachableContainers] reads nothing but the bucket of the network
    asked for, and not its order: the result is empty exactly when every
    entry of that bucket bears the name of the source container, it is never
    longer than the bucket, and two maps whose buckets for the network are
    rearrangements of each other give the same result. *)
Theorem reachability_reads_one_bucket (self N : string)
    (M M' : gmap string (list ContainerInfo)) :
  (ReachableContainers self N M = []
   ↔ ∀ e, e ∈ bucket M N → Name e = self)
  ∧ length (ReachableContainers self N M) ≤ length (bucket M N)
  ∧ (bucket M N ≡ₚ bucket M' N →
     ReachableContainers self N M = ReachableContainers self N M').
Proof.
  split; [|split].
  - rewrite ReachableContainers_eq. split.
    + intros Hnil e He. destruct (decide (Name e = self)) as [|Hne]; [done|].
      assert (Name e ∈ sort_strings
                (Name <$> filter (λ c, Name c ≠ self) (bucket M N))) as Hin.
      { rewrite sort_strings_perm. apply list_elem_of_fmap_2.
        by apply list_elem_of_filter. }
      rewrite Hnil in Hin. by inversion Hin.
    + intros Hall. rewrite (filter_none _ (bucket M N)); [done|].
      intros e He Hne. by apply Hne, Hall.
  - rewrite ReachableContainers_eq, sort_strings_length, length_fmap.
    apply length_filter.
  - intros Hp. rewrite !ReachableContainers_eq.
    apply sort_strings_unique; [apply sort_strings_sorted|].
    rewrite sort_strings_perm. by rewrite Hp.
Qed.

(** ** The network tree *)

Section network_tree_facts.

Variable Sprint : Color → string → string.
Variable cw : ColorWriter.

Lemma alias_loop (indent : string) (aliases : list string) (w : string) :
  fold_left
    (λ w '(j, a),
       let aliasPrefix :=
         if bool_decide (j = length aliases - 1) then TreeEnd else TreeBranch in
       Fprintf w [Tree Sprint cw indent; Tree Sprint cw aliasPrefix; " ";
                  Label Sprint cw "alias:"; " "; Alias Sprint cw a; nl])
    (imap pair aliases) w
  = w +:+ unlines
      (imap (λ j a,
               style_of Sprint cw colorTree indent +:+
               style_of Sprint cw colorTree
                 (if bool_decide (j = length aliases - 1)
                  then TreeEnd else TreeBranch) +:+
               " " +:+ style_of Sprint cw colorLabel "alias:" +:+ " " +:+
               style_of Sprint cw colorAlias a)
            aliases).
Proof.
  rewrite (fold_left_write _
    (λ '(j, a),
       (style_of Sprint cw colorTree indent +:+
        style_of Sprint cw colorTree
          (if bool_decide (j = length aliases - 1)
           then TreeEnd else TreeBranch) +:+
        " " +:+ style_of Sprint cw colorLabel "alias:" +:+ " " +:+
        style_of Sprint cw colorAlias a) +:+ nl)).
  - f_equal. unfold unlines. f_equal. rewrite !fmap_imap. by apply imap_ext.
  - intros w' [j a]. rewrite Fprintf_unfold, !concat_cons.
    cbn [String.concat]. rewrite append_nil_r, !append_assoc. done.
Qed.

Lemma PrintNetworkTree_eq (w : string) (net : NetworkInfo.t)
    (containers : list ContainerInfo) :
  PrintNetworkTree Sprint cw w net containers
  = w +:+ unlines
      (network_tree_lines (style_of Sprint cw) net (sort_by_name containers)).
Proof.
  unfold PrintNetworkTree, network_tree_lines.
  rewrite unlines_cons. destruct containers as [|c0 cs0] eqn:Hcs.
  - rewrite decide_True by done.
    change (sort_by_name []) with (@nil ContainerInfo). cbv iota.
    rewrite unlines_cons. rewrite !Fprintf_unfold, !concat_cons.
    cbn [String.concat]. rewrite !append_nil_r, !append_assoc. done.
  - rewrite decide_False by done. rewrite <- Hcs.
    set (ordered := sort_by_name containers).
    assert (ordered ≠ []) as Hne.
    { intros H. apply sort_by_name_nil_inv in H. congruence. }
    destruct ordered as [|o0 os0] eqn:Ho; [done|]. rewrite <- Ho. clear Hne.
    rewrite (fold_left_write _
      (λ '(i, c),
         let last := bool_decide (i = length ordered - 1) in
         let indent := if last then TreeSpace else TreeVertical in
         let aliases := SortedAliases c in
         unlines
           ((style_of Sprint cw colorTree (if last then TreeEnd else TreeBranch)
               +:+ " " +:+ style_of Sprint cw colorContainer (Name c))
            :: imap
                 (λ j a,
                    style_of Sprint cw colorTree indent +:+
                    style_of Sprint cw colorTree
                      (if bool_decide (j = length aliases - 1)
                       then TreeEnd else TreeBranch) +:+
                    " " +:+ style_of Sprint cw colorLabel "alias:" +:+ " " +:+
                    style_of Sprint cw colorAlias a)
                 aliases))).
    + rewrite Fprintf_unfold, unlines_mjoin.
      rewrite !concat_cons. cbn [String.concat].
      rewrite append_nil_r, !append_assoc.
      rewrite !fmap_imap. by do 8 f_equal.
    + intros w' [i c]. cbv zeta. rewrite alias_loop, unlines_cons.
      rewrite !Fprintf_unfold, !concat_cons. cbn [String.concat].
      rewrite !append_nil_r, !append_assoc. done.
Qed.

End network_tree_facts.

Section line_count_facts.

Lemma length_mjoin_imap {A B} (f : nat → A → list B) (g : A → nat) (l : list A) :
  (∀ i x, length (f i x) = g x) →
  length (mjoin (imap f l)) = sum_list (g <$> l).
Proof.
  revert f. induction l as [|x l IH]; intros f Hf; [done|].
  cbn [imap fmap list_fmap sum_list_with].
  change (mjoin (f 0 x :: imap (f ∘ S) l)) with (f 0 x ++ mjoin (imap (f ∘ S) l)).
  rewrite length_app, Hf, (IH (f ∘ S)); [done|].
  intros i y. apply Hf.
Qed.

Lemma mjoin_imap_block {A B} (f : nat → A → list B) (g : A → nat)
    (l : list A) (i : nat) (x : A) :
  (∀ i x, length (f i x) = g x) →
  l !! i = Some x →
  take (g x) (drop (sum_list (g <$> take i l)) (mjoin (imap f l))) = f i x.
Proof.
  revert f i. induction l as [|y l IH]; intros f i Hf Hi; [done|].
  cbn [imap].
  change (mjoin (f 0 y :: imap (f ∘ S) l)) with (f 0 y ++ mjoin (imap (f ∘ S) l)).
  destruct i as [|i]; simpl in Hi.
  - injection Hi as ->. cbn [take fmap list_fmap sum_list_with drop].
    rewrite drop_0. by rewrite take_app_length' by (by rewrite Hf).
  - cbn [take fmap list_fmap sum_list_with id].
    rewrite <- drop_drop, drop_app_length' by (by rewrite Hf).
    by rewrite (IH (f ∘ S) i) by (done || intros; apply Hf).
Qed.

Lemma network_tree_lines_length style net (ordered : list ContainerInfo) :
  length (network_tree_lines style net ordered)
  = match ordered with
    | [] => 2
    | _ => 1 + length ordered + sum_list (AliasCount <$> ordered)
    end.
Proof.
  unfold network_tree_lines. destruct ordered as [|c l] eqn:Ho; [done|].
  rewrite <- Ho. cbn [length]. f_equal.
  rewrite (length_mjoin_imap _ (λ c, 1 + AliasCount c)).
  - clear Ho. induction ordered as [|x xs IH]; [done|].
    cbn [fmap list_fmap sum_list_with length id] in *. lia.
  - intros i x. cbn [length]. rewrite length_imap.
    unfold SortedAliases, AliasCount. by rewrite sort_strings_length.
Qed.

End line_count_facts.

(** X11. The two printers only append to the sink: what they leave in it is
    what was there followed by what they write to an empty sink. *)
Theorem printers_only_append (Sprint : Color → string → string)
    (cw : ColorWriter) (w : string) (net : NetworkInfo.t)
    (containers : list ContainerInfo) (c : ContainerInfo)
    (netMap : gmap string (list ContainerInfo)) :
  PrintNetworkTree Sprint cw w net containers
  = w +:+ PrintNetworkTree Sprint cw "" net containers
  ∧ PrintContainerTree Sprint cw w c netMap
    = w +:+ PrintContainerTree Sprint cw "" c netMap.
Proof.
  split.
  - by rewrite (PrintNetworkTree_eq Sprint cw w),
      (PrintNetworkTree_eq Sprint cw "").
  - by rewrite (PrintContainerTree_eq Sprint cw w),
      (PrintContainerTree_eq Sprint cw "").
Qed.

(** X12. The network tree of a list in which containers of one name are one
    and the same, as in the buckets of the builder: after the header come
    the containers in ascending order of name, each on a line with the
    branch glyph, or the end glyph for the last, followed by one line for
    each of its aliases in ascending order; a container without aliases has
    no alias line. That is two lines for an empty list and otherwise one
    line for the header, one per container and one per alias; and the order
    of the argument does not show. *)
Theorem network_tree_structure (Sprint : Color → string → string)
    (cw : ColorWriter) (w : string) (net : NetworkInfo.t)
    (containers ordered : list ContainerInfo) :
  (∀ a b, a ∈ containers → b ∈ containers → Name a = Name b → a = b) →
  StronglySorted name_le ordered →
  ordered ≡ₚ containers →
  PrintNetworkTree Sprint cw w net containers
  = w +:+ unlines (network_tree_lines (style_of Sprint cw) net ordered)
  ∧ length (network_tree_lines (style_of Sprint cw) net ordered)
    = match containers with
      | [] => 2
      | _ => 1 + length containers + sum_list (AliasCount <$> containers)
      end
  ∧ (∀ containers', containers' ≡ₚ containers →
       PrintNetworkTree Sprint cw w net containers'
       = PrintNetworkTree Sprint cw w net containers).
Proof.
  intros Hsame Hsorted Hperm.
  assert (ordered = sort_by_name containers) as ->
    by by apply bucket_sort_unique.
  split; [apply PrintNetworkTree_eq|]. split.
  - rewrite network_tree_lines_length.
    destruct containers as [|c cs] eqn:Hcs; [done|]. rewrite <- Hcs in *.
    destruct (sort_by_name containers) as [|o os] eqn:Ho.
    { apply sort_by_name_nil_inv in Ho. congruence. }
    rewrite <- Ho. by rewrite !sort_by_name_perm.
  - intros containers' Hp. rewrite !PrintNetworkTree_eq. do 3 f_equal.
    apply bucket_sort_unique; [done | apply sort_by_name_sorted|].
    by rewrite sort_by_name_perm.
Qed.

(** X12 at Scenario C of the specification, given with "web_app" first. *)
Lemma network_tree_structure_witness :
  PrintNetworkTree plain (mkColorWriter false) ""
    (NetworkInfo.mk "frontend_net" "bridge")
    [ {| Name := "web_app"; Aliases := ["web.local"; "web"];
         Networks := ["frontend_net"] |};
      {| Name := "api"; Aliases := ["api"]; Networks := ["frontend_net"] |} ]
  = unlines [ "Network: frontend_net (bridge)";
              "├── api";
              "│   └── alias: api";
              "└── web_app";
              "    ├── alias: web";
              "    └── alias: web.local" ].
Proof.
  set (web := {| Name := "web_app"; Aliases := ["web.local"; "web"];
                 Networks := ["frontend_net"] |}).
  set (api := {| Name := "api"; Aliases := ["api"];
                 Networks := ["frontend_net"] |}).
  assert (∀ a b, a ∈ [web; api] → b ∈ [web; api] → Name a = Name b → a = b)
    as Hsame.
  { intros a b Ha Hb Hn.
    apply elem_of_cons in Ha as [->|Ha%list_elem_of_singleton];
      apply elem_of_cons in Hb as [->|Hb%list_elem_of_singleton];
      subst; done. }
  assert (StronglySorted name_le [api; web]) as Hsorted
    by (apply (bool_decide_unpack _); vm_compute; exact I).
  rewrite (proj1 (network_tree_structure plain (mkColorWriter false) ""
    (NetworkInfo.mk "frontend_net" "bridge") [web; api] [api; web]
    Hsame Hsorted (Permutation_swap _ _ _))).
  vm_compute. reflexivity.
Defined.

Section container_tree_more.

Lemma ReachableContainers_perm self N (M M' : gmap string (list ContainerInfo)) :
  bucket M N ≡ₚ bucket M' N →
  ReachableContainers self N M = ReachableContainers self N M'.
Proof.
  intros Hp. rewrite !ReachableContainers_eq.
  apply sort_strings_unique; [apply sort_strings_sorted|].
  rewrite sort_strings_perm. by rewrite Hp.
Qed.

Lemma reach_lines_length style none indent (others : list string) :
  length (reach_lines style none indent others) = max 1 (length others).
Proof.
  unfold reach_lines. destruct others as [|o os] eqn:Ho; [done|].
  rewrite <- Ho, length_imap. rewrite Ho. simpl. lia.
Qed.

Lemma container_tree_lines_length style none c netMap :
  length (container_tree_lines style none c netMap)
  = 1 + sum_list
          ((λ net, 2 + max 1 (length (ReachableContainers (Name c) net netMap)))
             <$> Networks c).
Proof.
  unfold container_tree_lines. cbn [length]. f_equal.
  rewrite (length_mjoin_imap _
    (λ net, 2 + max 1 (length (ReachableContainers (Name c) net netMap)))).
  - by rewrite sort_strings_perm.
  - intros i net. rewrite length_app, reach_lines_length. done.
Qed.

Lemma container_tree_lines_block style none c netMap i net :
  sort_strings (Networks c) !! i = Some net →
  take (2 + max 1 (length (ReachableContainers (Name c) net netMap)))
    (drop (1 + sum_list
                 ((λ net, 2 + max 1 (length (ReachableContainers
                                               (Name c) net netMap)))
                    <$> take i (sort_strings (Networks c))))
          (container_tree_lines style none c netMap))
  = [ style colorTree
        (if bool_decide (i = length (Networks c) - 1)
         then TreeEnd else TreeBranch) +:+ " " +:+
        style colorLabel "Network:" +:+ " " +:+ style colorNetwork net;
      style colorTree
        (if bool_decide (i = length (Networks c) - 1)
         then TreeSpace else TreeVertical) +:+ style colorTree TreeEnd +:+
        " " +:+ style colorLabel "connects to:" ]
    ++ reach_lines style none
         (if bool_decide (i = length (Networks c) - 1)
          then TreeSpace else TreeVertical)
         (ReachableContainers (Name c) net netMap).
Proof.
  intros Hi. unfold container_tree_lines.
  change (drop (1 + ?k) (?h :: ?t)) with (drop k t).
  rewrite (mjoin_imap_block _
    (λ net, 2 + max 1 (length (ReachableContainers (Name c) net netMap)))
    _ i net); [|intros j n; by rewrite length_app, reach_lines_length|done].
  cbv zeta. by rewrite sort_strings_length.
Qed.

Lemma container_tree_lines_ext style none c c' netMap netMap' :
  Name c' = Name c →
  Networks c' ≡ₚ Networks c →
  (∀ N, N ∈ Networks c → bucket netMap' N ≡ₚ bucket netMap N) →
  container_tree_lines style none c' netMap'
  = container_tree_lines style none c netMap.
Proof.
  intros HN Hp Hb. unfold container_tree_lines. rewrite HN.
  assert (sort_strings (Networks c') = sort_strings (Networks c)) as ->.
  { apply sort_strings_unique; [apply sort_strings_sorted|].
    by rewrite sort_strings_perm. }
  do 2 f_equal. apply imap_ext. intros i net Hnet. cbv zeta.
  rewrite (ReachableContainers_perm (Name c) net netMap' netMap); [done|].
  apply Hb. rewrite <- (sort_strings_perm (Networks c)).
  by eapply list_elem_of_lookup_2.
Qed.

End container_tree_more.

(** X13. The container tree: what is appended is exactly a header line
    followed, for every network of the container in ascending order, by the
    network line, the "connects to:" line and one line for every reachable
    container, or the "(none)" line when there is none. That is one line and,
    for every network, two lines and as many as there are reachable
    containers, at least one; a container without networks gives the header
    alone. The tree depends on the container through its name and its
    networks up to their order only, not on the aliases, and on the map
    through the buckets of those networks only, not on their order. *)
Theorem container_tree_structure (Sprint : Color → string → string)
    (cw : ColorWriter) (w : string) (c : ContainerInfo)
    (netMap : gmap string (list ContainerInfo)) :
  let style := style_of Sprint cw in
  let lines := container_tree_lines style (none_line_glyph style) c netMap in
  PrintContainerTree Sprint cw w c netMap = w +:+ unlines lines
  ∧ length lines
    = 1 + sum_list
            ((λ net, 2 + max 1 (length (ReachableContainers
                                          (Name c) net netMap)))
               <$> Networks c)
  ∧ (∀ i net,
       sort_strings (Networks c) !! i = Some net →
       let others := ReachableContainers (Name c) net netMap in
       let first :=
         1 + sum_list
               ((λ net, 2 + max 1 (length (ReachableContainers
                                             (Name c) net netMap)))
                  <$> take i (sort_strings (Networks c))) in
       let last := bool_decide (i = length (Networks c) - 1) in
       let indent := if last then TreeSpace else TreeVertical in
       take (2 + max 1 (length others)) (drop first lines)
       = [ style colorTree (if last then TreeEnd else TreeBranch) +:+ " " +:+
             style colorLabel "Network:" +:+ " " +:+ style colorNetwork net;
           style colorTree indent +:+ style colorTree TreeEnd +:+ " " +:+
             style colorLabel "connects to:" ]
         ++ reach_lines style (none_line_glyph style) indent others)
  ∧ (Networks c = [] →
     PrintContainerTree Sprint cw w c netMap
     = w +:+ style colorLabel "Container:" +:+ " " +:+
         style colorContainer (Name c) +:+ nl)
  ∧ (∀ c' netMap',
       Name c' = Name c →
       Networks c' ≡ₚ Networks c →
       (∀ N, N ∈ Networks c → bucket netMap' N ≡ₚ bucket netMap N) →
       PrintContainerTree Sprint cw w c' netMap'
       = PrintContainerTree Sprint cw w c netMap).
Proof.
  intros style lines. subst style lines.
  split; [apply PrintContainerTree_eq|].
  split; [apply container_tree_lines_length|]. split; [|split].
  - intros i net Hi. cbv zeta. apply container_tree_lines_block. done.
  - intros Hnil. rewrite PrintContainerTree_eq. unfold container_tree_lines.
    rewrite Hnil. change (sort_strings []) with (@nil string).
    cbn [imap mjoin list_join]. rewrite unlines_cons.
    change (unlines []) with "". by rewrite append_nil_r, !append_assoc.
  - intros c' netMap' HN Hp Hb. rewrite !PrintContainerTree_eq.
    by rewrite (container_tree_lines_ext _ _ c c' netMap netMap').
Qed.

(** X14. An isolated container: when the container has one network and every
    entry of the bucket of that network bears the container's own name, or
    the network is no key of the map, the tree is the header, the network
    line with the end glyph, the "connects to:" line and the "(none)"
    line. *)
Theorem isolated_container_tree (Sprint : Color → string → string)
    (cw : ColorWriter) (w : string) (c : ContainerInfo) (N : string)
    (netMap : gmap string (list ContainerInfo)) :
  Networks c = [N] →
  (∀ e, e ∈ bucket netMap N → Name e = Name c) →
  let style := style_of Sprint cw in
  PrintContainerTree Sprint cw w c netMap
  = w +:+ unlines
      [ style colorLabel "Container:" +:+ " " +:+ style colorContainer (Name c);
        style colorTree TreeEnd +:+ " " +:+ style colorLabel "Network:" +:+ " "
          +:+ style colorNetwork N;
        style colorTree TreeSpace +:+ style colorTree TreeEnd +:+ " "
          +:+ style colorLabel "connects to:";
        style colorTree TreeSpace +:+ "    " +:+ style colorTree TreeEnd
          +:+ " (none)" ].
Proof.
  intros Hnets Hall style. rewrite PrintContainerTree_eq.
  unfold container_tree_lines. rewrite Hnets.
  change (sort_strings [N]) with [N]. cbn [imap mjoin list_join length].
  assert (ReachableContainers (Name c) N netMap = []) as ->.
  { rewrite ReachableContainers_eq, (filter_none _ (bucket netMap N)); [done|].
    intros e He Hne. by apply Hne, Hall. }
  done.
Qed.

(** X14 at the isolated container of the tests. *)
Lemma isolated_container_tree_witness :
  Networks isolated = ["solo_network"]
  ∧ PrintContainerTree plain (mkColorWriter false) "" isolated solo_map
    = unlines [ "Container: isolated";
                "└── Network: solo_network";
                "    └── connects to:";
                "        └── (none)" ].
Proof.
  split; [reflexivity|].
  apply (isolated_container_tree plain (mkColorWriter false) ""
           isolated "solo_network" solo_map eq_refl).
  intros e He. change (bucket solo_map "solo_network") with [isolated] in He.
  by apply list_elem_of_singleton in He as ->.
Defined.

(** ** The visualization *)

Section visualization_facts.

Variable Sprint : Color → string → string.
Variable cw : ColorWriter.

Lemma collect_names (l acc : list string) :
  fold_left (λ containerNames name, containerNames ++ [name]) l acc = acc ++ l.
Proof.
  revert acc. induction l as [|x l IH]; intros acc; simpl.
  - by rewrite app_nil_r.
  - by rewrite IH, <- app_assoc.
Qed.

Lemma skip_iff (flag name : string) :
  negb (String.eqb flag "") && negb (String.eqb name flag) = true
  ↔ ¬ (flag = "" ∨ name = flag).
Proof.
  destruct (String.eqb_spec flag "") as [Hf|Hf];
    destruct (String.eqb_spec name flag) as [Hn|Hn]; simpl; split;
    try done; try tauto.
Qed.

Lemma concat_filter {A} (P : A → Prop) `{!∀ x, Decision (P x)}
    (g block : A → string) (l : list A) :
  (∀ x, g x = if decide (P x) then block x else "") →
  String.concat "" (g <$> l) = String.concat "" (block <$> filter P l).
Proof.
  intros Hg. induction l as [|x l IH]; [done|].
  rewrite fmap_cons, concat_cons, IH, Hg.
  destruct (decide (P x)).
  - by rewrite filter_cons_True, fmap_cons, concat_cons.
  - by rewrite filter_cons_False.
Qed.

Lemma Fprintln_nothing (w : string) : Fprintln w [] = w +:+ nl.
Proof. done. Qed.

Lemma printVisualization_eq (flags : Flags) (w : string)
    (networks : list Summary) (containerMap : gmap string ContainerInfo)
    (networkToContainers : gmap string (list ContainerInfo)) :
  printVisualization Sprint cw flags w networks containerMap networkToContainers
  = w +:+ "=== Networks ===" +:+ nl
      +:+ String.concat ""
            (network_block Sprint cw flags networkToContainers
               <$> shown_networks flags networks)
      +:+ "=== Containers (Reachability) ===" +:+ nl
      +:+ String.concat ""
            (container_block Sprint cw containerMap networkToContainers
               <$> shown_names flags
                     (sort_strings (map_to_list containerMap).*1)).
Proof.
  unfold printVisualization. rewrite collect_names, app_nil_l.
  rewrite (fold_left_write _
    (λ name, if decide (containerFlag flags = "" ∨ name = containerFlag flags)
             then container_block Sprint cw containerMap networkToContainers name
             else "")).
  2:{ intros w' name.
      destruct (negb (String.eqb (containerFlag flags) "")
                && negb (String.eqb name (containerFlag flags))) eqn:Hskip.
      - apply skip_iff in Hskip. rewrite decide_False by done.
        by rewrite append_nil_r.
      - rewrite decide_True
          by (destruct (decide (containerFlag flags = ""
                                ∨ name = containerFlag flags)) as [|Hn];
              [done | apply skip_iff in Hn; congruence]).
        rewrite Fprintln_nothing, PrintContainerTree_eq.
        unfold container_block. rewrite (PrintContainerTree_eq Sprint cw "").
        by rewrite !append_assoc. }
  rewrite (fold_left_write _
    (λ net, if decide (onlyNetworkFlag flags = ""
                       ∨ SummaryName net = onlyNetworkFlag flags)
            then network_block Sprint cw flags networkToContainers net
            else "")).
  2:{ intros w' net.
      destruct (negb (String.eqb (onlyNetworkFlag flags) "")
                && negb (String.eqb (SummaryName net) (onlyNetworkFlag flags)))
        eqn:Hskip.
      - apply skip_iff in Hskip. rewrite decide_False by done.
        by rewrite append_nil_r.
      - rewrite decide_True
          by (destruct (decide (onlyNetworkFlag flags = ""
                                ∨ SummaryName net = onlyNetworkFlag flags))
                as [|Hn]; [done | apply skip_iff in Hn; congruence]).
        rewrite Fprintln_nothing, PrintNetworkTree_eq.
        unfold network_block. rewrite (PrintNetworkTree_eq Sprint cw "").
        rewrite removeAliasesFromContainers_values_eq.
        by rewrite !append_assoc. }
  unfold shown_networks, shown_names.
  rewrite (concat_filter
             (λ net, onlyNetworkFlag flags = ""
                     ∨ SummaryName net = onlyNetworkFlag flags) _
             (network_block Sprint cw flags networkToContainers)) by done.
  rewrite (concat_filter
             (λ name, containerFlag flags = "" ∨ name = containerFlag flags) _
             (container_block Sprint cw containerMap networkToContainers))
    by done.
  unfold Fprintln. cbn [String.concat]. by rewrite !append_assoc.
Qed.

Lemma sorted_keys_elem_of (m : gmap string ContainerInfo) (name : string) :
  name ∈ sort_strings (map_to_list m).*1 ↔ is_Some (m !! name).
Proof.
  rewrite sort_strings_perm, list_elem_of_fmap. split.
  - intros ([k v] & -> & Hkv). apply elem_of_map_to_list in Hkv. by eexists.
  - intros [v Hv]. exists (name, v). split; [done|].
    by apply elem_of_map_to_list.
Qed.

Lemma sorted_keys_NoDup (m : gmap string ContainerInfo) :
  NoDup (sort_strings (map_to_list m).*1).
Proof. rewrite sort_strings_perm. apply NoDup_fst_map_to_list. Qed.

Lemma filter_eq_NoDup (f : string) (l : list string) :
  NoDup l →
  filter (λ name, name = f) l = if decide (f ∈ l) then [f] else [].
Proof.
  induction l as [|x l IH]; intros Hnd; [done|].
  apply NoDup_cons in Hnd as [Hx Hnd].
  destruct (decide (x = f)) as [->|Hne].
  - rewrite filter_cons_True by done. rewrite decide_True by left.
    f_equal. apply filter_none. intros y Hy ->. done.
  - rewrite filter_cons_False by done. rewrite IH by done.
    destruct (decide (f ∈ l)) as [Hin|Hnin].
    + rewrite decide_True; [done | by right].
    + rewrite decide_False; [done|].
      intros [?|?]%elem_of_cons; [congruence | done].
Qed.

Lemma filter_flag {A} (key : A → string) (flag : string) (l : list A) :
  flag ≠ "" →
  filter (λ x, flag = "" ∨ key x = flag) l = filter (λ x, key x = flag) l.
Proof.
  intros Hf. induction l as [|x l IH]; [done|].
  destruct (decide (key x = flag)) as [Heq|Hne].
  - rewrite !filter_cons_True by (done || by right). by rewrite IH.
  - rewrite !filter_cons_False by (done || intros [?|?]; done). done.
Qed.

End visualization_facts.

(** X15. What [printVisualization] writes: the line "=== Networks ===", then
    for every network that passes the only-network filter, in the order
    given, its tree and an empty line; the line
    "=== Containers (Reachability) ===", then for every name of the container
    map that passes the container filter, in ascending order and each once,
    the tree of its container and an empty line. The order in which the map
    is ranged over does not show. An empty flag filters nothing. *)
Theorem visualization_structure (Sprint : Color → string → string)
    (cw : ColorWriter) (flags : Flags) (w : string) (networks : list Summary)
    (containerMap : gmap string ContainerInfo)
    (networkToContainers : gmap string (list ContainerInfo)) :
  let names := sort_strings (map_to_list containerMap).*1 in
  printVisualization Sprint cw flags w networks containerMap networkToContainers
  = w +:+ "=== Networks ===" +:+ nl
      +:+ String.concat ""
            (network_block Sprint cw flags networkToContainers
               <$> shown_networks flags networks)
      +:+ "=== Containers (Reachability) ===" +:+ nl
      +:+ String.concat ""
            (container_block Sprint cw containerMap networkToContainers
               <$> shown_names flags names)
  ∧ StronglySorted String.le names
  ∧ NoDup names
  ∧ (∀ name, name ∈ names ↔ is_Some (containerMap !! name))
  ∧ (∀ keys, keys ≡ₚ (map_to_list containerMap).*1 → sort_strings keys = names)
  ∧ (onlyNetworkFlag flags = "" → shown_networks flags networks = networks)
  ∧ (containerFlag flags = "" → shown_names flags names = names).
Proof.
  intros names. split; [apply printVisualization_eq|].
  split; [apply sort_strings_sorted|]. split; [apply sorted_keys_NoDup|].
  split; [apply sorted_keys_elem_of|]. split.
  { intros keys Hp. apply sort_strings_unique; [apply sort_strings_sorted|].
    by rewrite sort_strings_perm. }
  split.
  - intros Hf. unfold shown_networks.
    induction networks as [|x l IH]; [done|].
    rewrite filter_cons_True by (by left). by rewrite IH.
  - intros Hf. unfold shown_names.
    induction names as [|x l IH]; [done|].
    rewrite filter_cons_True by (by left). by rewrite IH.
Qed.

(** X16. The filters of [printVisualization]. With a container flag that is
    not empty, at most one container tree is written: that of the container
    the map holds under the flag, if there is one, and none otherwise. With
    an only-network flag that is not empty, the trees written are those of
    the networks of that name, and none when there is no such network. *)
Theorem visualization_filters (Sprint : Color → string → string)
    (cw : ColorWriter) (flags : Flags) (w : string) (networks : list Summary)
    (containerMap : gmap string ContainerInfo)
    (networkToContainers : gmap string (list ContainerInfo)) :
  (containerFlag flags ≠ "" →
   printVisualization Sprint cw flags w networks containerMap
     networkToContainers
   = w +:+ "=== Networks ===" +:+ nl
       +:+ String.concat ""
             (network_block Sprint cw flags networkToContainers
                <$> shown_networks flags networks)
       +:+ "=== Containers (Reachability) ===" +:+ nl
       +:+ match containerMap !! containerFlag flags with
           | Some container =>
               PrintContainerTree Sprint cw "" container networkToContainers
               +:+ nl
           | None => ""
           end)
  ∧ (onlyNetworkFlag flags ≠ "" →
     shown_networks flags networks
     = filter (λ net, SummaryName net = onlyNetworkFlag flags) networks)
  ∧ (onlyNetworkFlag flags ≠ "" →
     (∀ net, net ∈ networks → SummaryName net ≠ onlyNetworkFlag flags) →
     printVisualization Sprint cw flags w networks containerMap
       networkToContainers
     = w +:+ "=== Networks ===" +:+ nl
         +:+ "=== Containers (Reachability) ===" +:+ nl
         +:+ String.concat ""
               (container_block Sprint cw containerMap networkToContainers
                  <$> shown_names flags
                        (sort_strings (map_to_list containerMap).*1))).
Proof.
  split; [|split].
  - intros Hf. rewrite printVisualization_eq. do 5 f_equal.
    unfold shown_names. rewrite (filter_flag id) by done.
    rewrite (filter_eq_NoDup _ _ (sorted_keys_NoDup containerMap)).
    destruct (containerMap !! containerFlag flags) as [ci|] eqn:Hci.
    + rewrite decide_True by (apply sorted_keys_elem_of; by eexists).
      cbn [fmap list_fmap String.concat].
      unfold container_block. by rewrite lookup_total_alt, Hci.
    + rewrite decide_False; [done|].
      intros [ci Hin]%sorted_keys_elem_of. congruence.
  - intros Hf. by apply (filter_flag SummaryName).
  - intros Hf Hnone. rewrite printVisualization_eq.
    unfold shown_networks. rewrite (filter_flag SummaryName) by done.
    rewrite (filter_none _ networks) by done. done.
Qed.

(** X16 at Scenario A with the container flag "redis" and one network. *)
Lemma visualization_filters_witness :
  printVisualization plain (mkColorWriter false) (mkFlags "" "redis" false) ""
    [mkSummary "backend" "bridge"]
    (BuildContainerMap scenario_A) (BuildNetworkToContainersMap scenario_A)
  = unlines [ "=== Networks ===";
              "Network: backend (bridge)";
              "├── api";
              "├── postgres";
              "└── redis";
              "";
              "=== Containers (Reachability) ===";
              "Container: redis";
              "└── Network: backend";
              "    └── connects to:";
              "        ├── api";
              "        └── postgres";
              "" ].
Proof.
  rewrite (proj1 (visualization_filters plain (mkColorWriter false)
                    (mkFlags "" "redis" false) "" [mkSummary "backend" "bridge"]
                    (BuildContainerMap scenario_A)
                    (BuildNetworkToContainersMap scenario_A)))
    by discriminate.
  vm_compute. reflexivity.
Defined.

Section network_block_facts.

Lemma sort_by_name_names (l : list ContainerInfo) :
  Name <$> sort_by_name l = sort_strings (Name <$> l).
Proof.
  apply sort_strings_unique.
  - apply StronglySorted_fmap with (R1 := name_le);
      [done | apply sort_by_name_sorted].
  - by rewrite sort_by_name_perm.
Qed.

Lemma mjoin_imap_singleton {A B C} (F : nat → A → list B) (G : nat → C → B)
    (h : A → C) (P : A → Prop) (l : list A) :
  (∀ i x, P x → F i x = [G i (h x)]) →
  Forall P l →
  mjoin (imap F l) = imap G (h <$> l).
Proof.
  revert F G. induction l as [|x l IH]; intros F G HF Hall; [done|].
  apply Forall_cons in Hall as [Hx Hall]. cbn [imap fmap list_fmap].
  change (mjoin (F 0 x :: imap (F ∘ S) l)) with (F 0 x ++ mjoin (imap (F ∘ S) l)).
  rewrite (HF 0 x Hx), (IH (F ∘ S) (G ∘ S)); [done | | done].
  intros i y Hy. by apply HF.
Qed.

Lemma network_tree_lines_no_alias style net (ordered : list ContainerInfo) :
  Forall (λ c, Aliases c = []) ordered →
  network_tree_lines style net ordered
  = network_tree_lines_bare style net (Name <$> ordered).
Proof.
  intros Hall. unfold network_tree_lines, network_tree_lines_bare. f_equal.
  destruct ordered as [|c0 l0] eqn:Ho; [done|]. rewrite <- Ho in *.
  assert (Name <$> ordered ≠ []) as Hne by (by rewrite Ho).
  destruct (Name <$> ordered) as [|n0 ns0] eqn:Hn; [done|]. rewrite <- Hn.
  rewrite length_fmap.
  apply (mjoin_imap_singleton _ _ Name (λ c, Aliases c = [])); [|done].
  intros i x Hx. cbv zeta. unfold SortedAliases. rewrite Hx. done.
Qed.

End network_block_facts.

(** X17. The block of one network in the visualization. A network that is
    no key of the network map, having no member, is shown with the line
    "(no containers)", whatever the flags. With the no-aliases flag the
    block is exactly the header and one line for every entry of the bucket,
    which bears the glyph and the name, the names in ascending order, and an
    empty line: no alias line is written. That is two lines for an empty
    bucket and else one more than the bucket has entries. *)
Theorem network_block_cases (Sprint : Color → string → string)
    (cw : ColorWriter) (flags : Flags)
    (networkToContainers : gmap string (list ContainerInfo)) (net : Summary) :
  let style := style_of Sprint cw in
  let b := bucket networkToContainers (SummaryName net) in
  let header :=
    style colorLabel "Network:" +:+ " " +:+
    style colorNetwork (SummaryName net) +:+ " (" +:+
    SummaryDriver net +:+ ")" in
  let lines :=
    network_tree_lines_bare style
      (NetworkInfo.mk (SummaryName net) (SummaryDriver net))
      (sort_strings (Name <$> b)) in
  (networkToContainers !! SummaryName net = None →
   network_block Sprint cw flags networkToContainers net
   = unlines [ header; style colorTree TreeEnd +:+ " (no containers)" ]
     +:+ nl)
  ∧ (noAliasesFlag flags = true →
     network_block Sprint cw flags networkToContainers net
     = unlines lines +:+ nl)
  ∧ lines
    = header
      :: match b with
         | [] => [ style colorTree TreeEnd +:+ " (no containers)" ]
         | _ =>
           imap
             (λ i name,
                style colorTree
                  (if bool_decide (i = length b - 1)
                   then TreeEnd else TreeBranch) +:+
                " " +:+ style colorContainer name)
             (sort_strings (Name <$> b))
         end
  ∧ length lines = match b with [] => 2 | _ => 1 + length b end.
Proof.
  intros style b header lines.
  assert (lines
          = header
            :: match b with
               | [] => [ style colorTree TreeEnd +:+ " (no containers)" ]
               | _ =>
                 imap
                   (λ i name,
                      style colorTree
                        (if bool_decide (i = length b - 1)
                         then TreeEnd else TreeBranch) +:+
                      " " +:+ style colorContainer name)
                   (sort_strings (Name <$> b))
               end) as Hlines.
  { unfold lines, network_tree_lines_bare. fold header. f_equal.
    destruct b as [|c0 l0] eqn:Hb; [done|]. rewrite <- Hb.
    destruct (sort_strings (Name <$> b)) as [|n0 ns0] eqn:Hn.
    { apply (f_equal length) in Hn.
      rewrite sort_strings_length, length_fmap, Hb in Hn. done. }
    rewrite <- Hn. by rewrite sort_strings_length, length_fmap. }
  split; [|split; [|split]].
  - intros Hnone. unfold network_block, bucket. rewrite Hnone.
    rewrite (PrintNetworkTree_eq Sprint cw "").
    by destruct (noAliasesFlag flags).
  - intros Hflag. unfold network_block, lines. rewrite Hflag. fold b.
    rewrite (PrintNetworkTree_eq Sprint cw "").
    rewrite network_tree_lines_no_alias.
    + rewrite sort_by_name_names, <- list_fmap_compose. done.
    + apply Forall_forall. intros c Hc.
      rewrite sort_by_name_perm in Hc.
      by apply list_elem_of_fmap in Hc as (c' & -> & _).
  - exact Hlines.
  - rewrite Hlines. destruct b as [|c0 l0] eqn:Hb; [done|]. rewrite <- Hb.
    cbn [length]. by rewrite length_imap, sort_strings_length, length_fmap.
Qed.

(** X18. Alias stripping on values: the result has the length of the
    argument and, index by index, the name and the networks of the argument
    and no alias; stripping twice is stripping once; the names being kept,
    reachability computed on stripped buckets is reachability computed on
    the buckets; and it is what the function over the memory leaves in the
    new array. *)
Theorem alias_stripping_on_values (l : list ContainerInfo) :
  removeAliasesFromContainers_values l = strip_aliases <$> l
  ∧ length (removeAliasesFromContainers_values l) = length l
  ∧ removeAliasesFromContainers_values (removeAliasesFromContainers_values l)
    = removeAliasesFromContainers_values l
  ∧ (∀ self N (M : gmap string (list ContainerInfo)),
       ReachableContainers self N (removeAliasesFromContainers_values <$> M)
       = ReachableContainers self N M)
  ∧ (∀ m containers,
       valid_infos m containers →
       load_infos m containers = l →
       load_infos (removeAliasesFromContainers m containers).2
                  (removeAliasesFromContainers m containers).1
       = removeAliasesFromContainers_values l).
Proof.
  split; [apply removeAliasesFromContainers_values_eq|].
  split; [by rewrite removeAliasesFromContainers_values_eq, length_fmap|].
  split.
  { rewrite !removeAliasesFromContainers_values_eq, <- list_fmap_compose.
    by apply list_fmap_ext. }
  split.
  - intros self N M. rewrite !ReachableContainers_names. do 2 f_equal.
    unfold bucket. rewrite lookup_fmap. destruct (M !! N) as [b|]; [|done].
    simpl. rewrite removeAliasesFromContainers_values_eq, <- list_fmap_compose.
    by apply list_fmap_ext.
  - intros m containers Hvalid <-.
    rewrite removeAliasesFromContainers_eq by done. simpl.
    rewrite removeAliasesFromContainers_values_eq.
    pose proof (read_infos_length m containers Hvalid) as Hlen.
    unfold load_infos. set (src := read_infos m containers) in *.
    unfold read_infos. simpl. rewrite lookup_insert_eq. simpl.
    rewrite drop_0, take_ge by (by rewrite length_fmap, Hlen).
    rewrite <- !list_fmap_compose.
    apply list_fmap_ext. intros i c _. simpl. by apply load_info_stripped.
Qed.

(** ** Trimming a prefix *)

Section prefix_facts.

Lemma string_length_app (p t : string) :
  String.length (p +:+ t) = String.length p + String.length t.
Proof.
  induction p as [|a p IH]; [done|].
  change (S (String.length (p +:+ t)) = S (String.length p + String.length t)).
  by rewrite IH.
Qed.

Lemma prefix_split (p s : string) :
  String.prefix p s = true →
  s = p +:+ String.substring (String.length p)
                             (String.length s - String.length p) s.
Proof.
  revert s. induction p as [|a p IH]; intros s Hp.
  - change ("" +:+ ?x) with x. simpl. rewrite Nat.sub_0_r.
    by rewrite substring_all.
  - destruct s as [|b s]; [done|]. simpl in Hp.
    destruct (Ascii.ascii_dec a b) as [->|]; [|done].
    change (String b s
            = String b (p +:+ String.substring (String.length p)
                                 (String.length s - String.length p) s)).
    f_equal. by apply IH.
Qed.

End prefix_facts.

(** X19. [TrimPrefix] takes the prefix off when it is there and only then:
    putting the prefix back in front of the result gives the string again,
    a string without the prefix is returned as it is, and the result is
    never longer. So the first name entry of a record is its resolved name,
    or "/" followed by its resolved name. *)
Theorem TrimPrefix_round_trip (s p : string) :
  (HasPrefix s p = true → p +:+ TrimPrefix s p = s)
  ∧ (HasPrefix s p = true →
     String.length (TrimPrefix s p) = String.length s - String.length p)
  ∧ (HasPrefix s p = false → TrimPrefix s p = s)
  ∧ String.length (TrimPrefix s p) ≤ String.length s
  ∧ (∀ rest,
       s = sanitizeContainerName (s :: rest)
       ∨ s = "/" +:+ sanitizeContainerName (s :: rest)).
Proof.
  assert (∀ q, HasPrefix s q = true → q +:+ TrimPrefix s q = s) as Hback.
  { intros q Hq. unfold TrimPrefix. rewrite Hq. symmetry.
    by apply prefix_split. }
  assert (∀ q, HasPrefix s q = true →
               String.length (TrimPrefix s q)
               = String.length s - String.length q) as Hlen.
  { intros q Hq. pose proof (Hback q Hq) as H.
    apply (f_equal String.length) in H. rewrite string_length_app in H. lia. }
  split; [apply Hback|]. split; [apply Hlen|].
  split; [intros Hp; unfold TrimPrefix; by rewrite Hp|].
  split.
  - destruct (HasPrefix s p) eqn:Hp.
    + rewrite Hlen by done. lia.
    + unfold TrimPrefix. by rewrite Hp.
  - intros rest. simpl. destruct (HasPrefix s "/") eqn:Hp.
    + right. symmetry. by apply Hback.
    + left. unfold TrimPrefix. by rewrite Hp.
Qed.

(** ** Cloning over the heap *)

Section heap_facts.

Import heap.

Lemma elements_ext (h h' : heap) (t : slice) :
  slen t = 0 ∨ arrays h' !! sbase t = arrays h !! sbase t →
  elements h' t = elements h t.
Proof.
  unfold elements. intros [H0|Heq]; [by rewrite H0 | by rewrite Heq].
Qed.

Lemma valid_stable (h : heap) (t : slice) :
  valid h t → slen t = 0 ∨ sbase t ∈ dom (arrays h).
Proof.
  intros [Hle [H0|(arr & Harr & _)]]; [left; lia | right].
  apply elem_of_dom. by eexists.
Qed.

Lemma elements_length (h : heap) (t : slice) :
  valid h t → length (elements h t) = slen t.
Proof.
  intros [Hle [H0|(arr & Harr & Hin)]]; unfold elements.
  - assert (slen t = 0) as -> by lia. done.
  - rewrite Harr. simpl. rewrite length_take, length_drop. lia.
Qed.

Lemma elements_insert_other (h : heap) (t : slice) l x st :
  slen t = 0 ∨ sbase t ≠ l →
  elements (mkHeap (<[l := x]> (arrays h)) st) t = elements h t.
Proof.
  intros [H0|Hne]; apply elements_ext; [by left | right].
  simpl. by rewrite lookup_insert_ne.
Qed.

Lemma elements_alter_other (h : heap) (t : slice) l f st :
  slen t = 0 ∨ sbase t ≠ l →
  elements (mkHeap (alter f l (arrays h)) st) t = elements h t.
Proof.
  intros [H0|Hne]; apply elements_ext; [by left | right].
  simpl. by rewrite lookup_alter_ne.
Qed.

Lemma elements_whole (h : heap) l (xs : list string) :
  arrays h !! l = Some xs →
  elements h (mkSlice l 0 (length xs) (length xs)) = xs.
Proof.
  intros Hl. unfold elements. simpl. rewrite Hl. simpl.
  by rewrite drop_0, take_ge.
Qed.

Lemma stable_ne_fresh (h : heap) (t : slice) l :
  valid h t → l ∉ dom (arrays h) → slen t = 0 ∨ sbase t ≠ l.
Proof.
  intros [H0|Hin]%valid_stable Hl; [by left | right]. intros Heq.
  by rewrite Heq in Hin.
Qed.

Lemma make_copy (h : heap) (src : slice) :
  valid h src →
  copy (make h (slen src)).2 (make h (slen src)).1 src
  = mkHeap (<[fresh (dom (arrays h)) := elements h src]> (arrays h)) (structs h).
Proof.
  intros Hv. unfold copy, make. cbn [fst snd arrays structs sbase soff slen].
  rewrite alter_insert_eq. f_equal. f_equal.
  rewrite elements_insert_other by (apply (stable_ne_fresh h); [done | apply is_fresh]).
  rewrite (take_ge (elements h src)) by (by rewrite elements_length).
  rewrite drop_ge by (rewrite length_replicate, elements_length by done; simpl; lia).
  simpl. by rewrite app_nil_r.
Qed.

Lemma valid_insert_fresh (h : heap) (t : slice) l x st :
  valid h t → l ∉ dom (arrays h) →
  valid (mkHeap (<[l := x]> (arrays h)) st) t.
Proof.
  intros [Hle [H0|(arr & Harr & Hin)]] Hl; split; try done; [by left|].
  right. exists arr. split; [|done]. simpl. rewrite lookup_insert_ne; [done|].
  intros Heq. apply Hl. rewrite Heq. apply elem_of_dom. by eexists.
Qed.

Lemma Clone_unfold (h : heap) (c : loc) (ci : ContainerInfoH) :
  structs h !! c = Some ci →
  Clone h c
  = let h1 := copy (make h (slen (hAliases ci))).2
                   (make h (slen (hAliases ci))).1 (hAliases ci) in
    let h2 := copy (make h1 (slen (hNetworks ci))).2
                   (make h1 (slen (hNetworks ci))).1 (hNetworks ci) in
    Some (fresh (dom (structs h2)),
          mkHeap (arrays h2)
            (<[fresh (dom (structs h2))
               := mkInfo (hName ci) (make h (slen (hAliases ci))).1
                    (make h1 (slen (hNetworks ci))).1]> (structs h2))).
Proof. intros Hc. unfold Clone. by rewrite Hc. Qed.

(** The heap after [Clone]: two new arrays that hold the aliases and the
    networks, and a new struct. *)
Lemma Clone_eq (h : heap) (c : loc) (ci : ContainerInfoH) :
  structs h !! c = Some ci →
  valid h (hAliases ci) → valid h (hNetworks ci) →
  let la := fresh (dom (arrays h)) in
  let A := elements h (hAliases ci) in
  let ln := fresh (dom (<[la := A]> (arrays h))) in
  let Nw := elements h (hNetworks ci) in
  Clone h c
  = Some (fresh (dom (structs h)),
          mkHeap (<[ln := Nw]> (<[la := A]> (arrays h)))
            (<[fresh (dom (structs h))
               := mkInfo (hName ci)
                    (mkSlice la 0 (length A) (length A))
                    (mkSlice ln 0 (length Nw) (length Nw))]> (structs h))).
Proof.
  intros Hc Hva Hvn la A ln Nw.
  assert (la ∉ dom (arrays h)) as Hla by apply is_fresh.
  rewrite (Clone_unfold h c ci Hc). cbv zeta.
  rewrite (make_copy h (hAliases ci) Hva). fold la A.
  assert (valid (mkHeap (<[la := A]> (arrays h)) (structs h)) (hNetworks ci))
    as Hvn' by by apply valid_insert_fresh.
  rewrite (make_copy _ (hNetworks ci) Hvn').
  cbn [arrays structs]. fold ln.
  rewrite elements_insert_other by (by apply (stable_ne_fresh h)).
  fold Nw. unfold make. cbn [fst arrays]. fold la ln.
  subst A Nw. by rewrite !elements_length.
Qed.

(** The heap after [Clone], as the methods need it. *)
Lemma Clone_facts (h : heap) (c : loc) (ci : ContainerInfoH) :
  structs h !! c = Some ci →
  valid h (hAliases ci) → valid h (hNetworks ci) →
  ∃ c' h' sa sn,
    Clone h c = Some (c', h')
    ∧ c' ≠ c
    ∧ structs h' !! c' = Some (mkInfo (hName ci) sa sn)
    ∧ structs h' !! c = Some ci
    ∧ slen sa = scap sa ∧ slen sn = scap sn
    ∧ valid h' sa ∧ valid h' sn
    ∧ valid h' (hAliases ci) ∧ valid h' (hNetworks ci)
    ∧ elements h' sa = elements h (hAliases ci)
    ∧ elements h' sn = elements h (hNetworks ci)
    ∧ elements h' (hAliases ci) = elements h (hAliases ci)
    ∧ elements h' (hNetworks ci) = elements h (hNetworks ci)
    ∧ (∀ s, valid h s → ¬ slen s < scap s ∨ sbase sa ≠ sbase s)
    ∧ (∀ s, valid h s → ¬ slen s < scap s ∨ sbase sn ≠ sbase s).
Proof.
  intros Hc Hva Hvn.
  set (la := fresh (dom (arrays h))).
  set (A := elements h (hAliases ci)).
  set (ln := fresh (dom (<[la := A]> (arrays h)))).
  set (Nw := elements h (hNetworks ci)).
  set (c' := fresh (dom (structs h))).
  assert (la ∉ dom (arrays h)) as Hla by apply is_fresh.
  assert (ln ∉ dom (<[la := A]> (arrays h))) as Hln by apply is_fresh.
  assert (ln ≠ la) as Hlnla.
  { intros Heq. apply Hln. rewrite Heq, dom_insert_L. set_solver. }
  assert (ln ∉ dom (arrays h)) as Hln'.
  { intros Hin. apply Hln. rewrite dom_insert_L. set_solver. }
  assert (c' ≠ c) as Hc'.
  { intros Heq. apply (is_fresh (dom (structs h))). fold c'. rewrite Heq.
    apply elem_of_dom. by eexists. }
  set (h' := mkHeap (<[ln := Nw]> (<[la := A]> (arrays h)))
               (<[c' := mkInfo (hName ci)
                          (mkSlice la 0 (length A) (length A))
                          (mkSlice ln 0 (length Nw) (length Nw))]> (structs h))).
  assert (∀ t, valid h t → elements h' t = elements h t) as Hkeep.
  { intros t Ht. apply elements_ext.
    destruct (valid_stable h t Ht) as [H0|Hin]; [by left | right].
    unfold h'. simpl.
    rewrite !lookup_insert_ne; [done | |]; intros Heq; by rewrite Heq in *. }
  assert (∀ t, valid h t → valid h' t) as Hvalid.
  { intros t [Hle [H0|(arr & Harr & Hin)]]; split; try done; [by left|].
    right. exists arr. split; [|done]. unfold h'. simpl.
    assert (sbase t ∈ dom (arrays h)) as Hd by (apply elem_of_dom; by eexists).
    rewrite !lookup_insert_ne; [done | |]; intros Heq; by rewrite Heq in *. }
  assert (∀ s, valid h s → ∀ l, l ∉ dom (arrays h) →
               ¬ slen s < scap s ∨ l ≠ sbase s) as Hsep.
  { intros s [Hle [H0|(arr & Harr & _)]] l Hl; [left; lia | right].
    intros ->. apply Hl, elem_of_dom. by eexists. }
  exists c', h', (mkSlice la 0 (length A) (length A)),
    (mkSlice ln 0 (length Nw) (length Nw)).
  split; [by apply Clone_eq|]. split; [done|].
  split; [apply lookup_insert_eq|].
  split; [simpl; by rewrite lookup_insert_ne|].
  split; [done|]. split; [done|].
  split.
  { split; [done|]. right. exists A. split; [|simpl; lia].
    simpl. rewrite lookup_insert_ne by done. apply lookup_insert_eq. }
  split.
  { split; [done|]. right. exists Nw. split; [|simpl; lia].
    simpl. apply lookup_insert_eq. }
  split; [by apply Hvalid|]. split; [by apply Hvalid|].
  split.
  { apply elements_whole. simpl. rewrite lookup_insert_ne by done.
    apply lookup_insert_eq. }
  split; [apply elements_whole; simpl; apply lookup_insert_eq|].
  split; [by apply Hkeep|]. split; [by apply Hkeep|].
  split; intros s Hs; by apply Hsep.
Qed.

Section with_growth.

Variable spare : slice → nat.

Lemma append_structs (h : heap) (s : slice) (x : string) :
  structs (append spare h s x).2 = structs h.
Proof. unfold append. by destruct (decide _). Qed.

(** [append] leaves alone every slice that lies in another array than the
    one it may write to. *)
Lemma append_frame (h : heap) (s t : slice) (x : string) :
  valid h t →
  ¬ slen s < scap s ∨ sbase t ≠ sbase s ∨ slen t = 0 →
  elements (append spare h s x).2 t = elements h t.
Proof.
  intros Ht Hsep. unfold append. destruct (decide (slen s < scap s)) as [Hlt|Hge].
  - cbn [snd]. apply elements_alter_other.
    destruct Hsep as [H0|[Hne|H0]]; [done | by right | by left].
  - cbn [snd]. apply elements_insert_other.
    apply (stable_ne_fresh h); [done | apply is_fresh].
Qed.

(** On a slice that is full, [append] returns a slice of a new array that
    holds the elements and the new one. *)
Lemma append_full (h : heap) (s : slice) (x : string) :
  valid h s → slen s = scap s →
  elements (append spare h s x).2 (append spare h s x).1 = elements h s ++ [x].
Proof.
  intros Hs Hfull. unfold append. rewrite decide_False by lia.
  cbn [fst snd]. unfold elements at 1. cbn [arrays sbase soff slen].
  rewrite lookup_insert_eq. cbn [default]. rewrite drop_0.
  assert (elements h s ++ x :: replicate (spare s) ""
          = (elements h s ++ [x]) ++ replicate (spare s) "") as ->
    by (by rewrite <- app_assoc).
  apply take_app_length'.
  rewrite length_app, elements_length by done. simpl. lia.
Qed.

Lemma append_arrays_dom (h : heap) (s : slice) (x : string) l :
  l ∈ dom (arrays h) → l ∈ dom (arrays (append spare h s x).2).
Proof.
  intros Hl. unfold append. destruct (decide _); cbn [snd arrays].
  - by rewrite dom_alter_L.
  - rewrite dom_insert_L. set_solver.
Qed.

Lemma elements_arrays (h h' : heap) (t : slice) :
  arrays h' = arrays h → elements h' t = elements h t.
Proof. intros Heq. apply elements_ext. right. by rewrite Heq. Qed.

(** What [AddAlias] through a pointer does to the struct behind another
    pointer: nothing, when the slices of that struct are apart from the
    alias slice. *)
Lemma AddAlias_frame (g : heap) (p q : loc) (cp cq : ContainerInfoH) (v : string) :
  structs g !! p = Some cp → structs g !! q = Some cq → q ≠ p →
  valid g (hAliases cq) → valid g (hNetworks cq) →
  apart (hAliases cp) (hAliases cq) → apart (hAliases cp) (hNetworks cq) →
  ∃ b g', AddAlias spare g p v = Some (b, g') ∧ load g' q = load g q.
Proof.
  intros Hp Hq Hne Hva Hvn Hsa Hsn. unfold AddAlias. rewrite Hp.
  destruct (scan _ v); [by eexists _, _|].
  pose proof (append_frame g (hAliases cp) (hAliases cq) v Hva Hsa) as Ha.
  pose proof (append_frame g (hAliases cp) (hNetworks cq) v Hvn Hsn) as Hn.
  pose proof (append_structs g (hAliases cp) v) as Hst.
  destruct (append spare g (hAliases cp) v) as [s2 g2]. cbn [snd] in *.
  eexists _, _. split; [done|].
  unfold load. cbn [structs]. rewrite lookup_insert_ne by done.
  rewrite Hst, Hq. f_equal.
  rewrite <- Ha, <- Hn. f_equal; by apply elements_arrays.
Qed.

Lemma AddNetwork_frame (g : heap) (p q : loc) (cp cq : ContainerInfoH) (v : string) :
  structs g !! p = Some cp → structs g !! q = Some cq → q ≠ p →
  valid g (hAliases cq) → valid g (hNetworks cq) →
  apart (hNetworks cp) (hAliases cq) → apart (hNetworks cp) (hNetworks cq) →
  ∃ b g', AddNetwork spare g p v = Some (b, g') ∧ load g' q = load g q.
Proof.
  intros Hp Hq Hne Hva Hvn Hsa Hsn. unfold AddNetwork. rewrite Hp.
  destruct (scan _ v); [by eexists _, _|].
  pose proof (append_frame g (hNetworks cp) (hAliases cq) v Hva Hsa) as Ha.
  pose proof (append_frame g (hNetworks cp) (hNetworks cq) v Hvn Hsn) as Hn.
  pose proof (append_structs g (hNetworks cp) v) as Hst.
  destruct (append spare g (hNetworks cp) v) as [s2 g2]. cbn [snd] in *.
  eexists _, _. split; [done|].
  unfold load. cbn [structs]. rewrite lookup_insert_ne by done.
  rewrite Hst, Hq. f_equal.
  rewrite <- Ha, <- Hn. f_equal; by apply elements_arrays.
Qed.

(** What [AddAlias] does to the struct behind its pointer when the alias
    slice is full and the network slice lies in another array: what the
    method on values does. *)
Lemma AddAlias_result (g : heap) (p : loc) (cp : ContainerInfoH)
    (ci : ContainerInfo) (v : string) :
  structs g !! p = Some cp → load g p = Some ci →
  valid g (hAliases cp) → valid g (hNetworks cp) →
  slen (hAliases cp) = scap (hAliases cp) →
  ∃ g', AddAlias spare g p v = Some ((models.AddAlias ci v).1, g')
        ∧ load g' p = Some (models.AddAlias ci v).2.
Proof.
  intros Hp Hload Hva Hvn Hfull. unfold load in Hload. rewrite Hp in Hload.
  injection Hload as <-. unfold AddAlias, models.AddAlias. rewrite Hp.
  cbn [Aliases Name Networks].
  destruct (scan (elements g (hAliases cp)) v); [eexists; split; [done|]|].
  { unfold load. by rewrite Hp. }
  pose proof (append_full g (hAliases cp) v Hva Hfull) as Ha.
  assert (apart (hAliases cp) (hNetworks cp)) as Hap by (left; lia).
  pose proof (append_frame g (hAliases cp) (hNetworks cp) v Hvn Hap) as Hn.
  destruct (append spare g (hAliases cp) v) as [s2 g2]. cbn [fst snd] in *.
  eexists. split; [done|].
  unfold load. cbn [structs hName hAliases hNetworks].
  rewrite lookup_insert_eq. f_equal.
  rewrite <- Ha, <- Hn. f_equal; by apply elements_arrays.
Qed.

Lemma AddNetwork_result (g : heap) (p : loc) (cp : ContainerInfoH)
    (ci : ContainerInfo) (v : string) :
  structs g !! p = Some cp → load g p = Some ci →
  valid g (hAliases cp) → valid g (hNetworks cp) →
  slen (hNetworks cp) = scap (hNetworks cp) →
  ∃ g', AddNetwork spare g p v = Some ((models.AddNetwork ci v).1, g')
        ∧ load g' p = Some (models.AddNetwork ci v).2.
Proof.
  intros Hp Hload Hva Hvn Hfull. unfold load in Hload. rewrite Hp in Hload.
  injection Hload as <-. unfold AddNetwork, models.AddNetwork. rewrite Hp.
  cbn [Aliases Name Networks].
  destruct (scan (elements g (hNetworks cp)) v); [eexists; split; [done|]|].
  { unfold load. by rewrite Hp. }
  pose proof (append_full g (hNetworks cp) v Hvn Hfull) as Hn.
  assert (apart (hNetworks cp) (hAliases cp)) as Hap by (left; lia).
  pose proof (append_frame g (hNetworks cp) (hAliases cp) v Hva Hap) as Ha.
  destruct (append spare g (hNetworks cp) v) as [s2 g2]. cbn [fst snd] in *.
  eexists. split; [done|].
  unfold load. cbn [structs hName hAliases hNetworks].
  rewrite lookup_insert_eq. f_equal.
  rewrite <- Ha, <- Hn. f_equal; by apply elements_arrays.
Qed.

End with_growth.

End heap_facts.

(** X20. [Clone] returns a pointer to a new struct that stands for the same
    value as the original and leaves the original as it was. The two are
    independent: [AddAlias] and [AddNetwork] through the clone do to the
    clone what they do to a value and leave the original unchanged, and
    through the original they leave the clone unchanged, whatever spare
    capacity the slices of the original have and the runtime gives. *)
Theorem Clone_isolation (spare : heap.slice → nat) (h : heap.heap) (c : heap.loc)
    (original : ContainerInfo) :
  heap.wf h c →
  heap.load h c = Some original →
  ∃ c' h',
    heap.Clone h c = Some (c', h')
    ∧ c' ≠ c
    ∧ heap.load h' c' = Some original
    ∧ heap.load h' c = Some original
    ∧ (∀ v, ∃ g,
         heap.AddAlias spare h' c' v = Some ((AddAlias original v).1, g)
         ∧ heap.load g c' = Some (AddAlias original v).2
         ∧ heap.load g c = Some original)
    ∧ (∀ v, ∃ g,
         heap.AddNetwork spare h' c' v = Some ((AddNetwork original v).1, g)
         ∧ heap.load g c' = Some (AddNetwork original v).2
         ∧ heap.load g c = Some original)
    ∧ (∀ v, ∃ b g,
         heap.AddAlias spare h' c v = Some (b, g)
         ∧ heap.load g c' = Some original)
    ∧ (∀ v, ∃ b g,
         heap.AddNetwork spare h' c v = Some (b, g)
         ∧ heap.load g c' = Some original).
Proof.
  intros (ci & Hc & Hva & Hvn) Hload.
  destruct (Clone_facts h c ci Hc Hva Hvn)
    as (c' & h' & sa & sn & HClone & Hne & Hc' & Hc0 & Hfa & Hfn & Hvsa & Hvsn
        & Hva' & Hvn' & Hea & Hen & Hea0 & Hen0 & Hsepa & Hsepn).
  assert (heap.load h' c' = Some original) as Hload'.
  { unfold heap.load in *. rewrite Hc'. rewrite Hc in Hload. simpl.
    by rewrite Hea, Hen. }
  assert (heap.load h' c = Some original) as Hload0.
  { unfold heap.load in *. rewrite Hc0. rewrite Hc in Hload.
    by rewrite Hea0, Hen0. }
  exists c', h'. split; [done|]. split; [done|]. split; [done|].
  split; [done|]. split; [|split; [|split]].
  - intros v.
    destruct (AddAlias_result spare h' c' _ original v Hc' Hload' Hvsa Hvsn Hfa)
      as (g & Hg & Hgl).
    destruct (AddAlias_frame spare h' c' c _ ci v Hc' Hc0 (not_eq_sym Hne)
                Hva' Hvn') as (b & g' & Hg' & Hfr).
    { left. simpl. lia. }
    { left. simpl. lia. }
    exists g. split; [done|]. split; [done|].
    rewrite Hg in Hg'. injection Hg' as _ <-. by rewrite Hfr.
  - intros v.
    destruct (AddNetwork_result spare h' c' _ original v Hc' Hload' Hvsa Hvsn Hfn)
      as (g & Hg & Hgl).
    destruct (AddNetwork_frame spare h' c' c _ ci v Hc' Hc0 (not_eq_sym Hne)
                Hva' Hvn') as (b & g' & Hg' & Hfr).
    { left. simpl. lia. }
    { left. simpl. lia. }
    exists g. split; [done|]. split; [done|].
    rewrite Hg in Hg'. injection Hg' as _ <-. by rewrite Hfr.
  - intros v.
    destruct (AddAlias_frame spare h' c c' ci _ v Hc0 Hc' Hne Hvsa Hvsn)
      as (b & g & Hg & Hfr).
    { destruct (Hsepa _ Hva) as [?|?]; [by left | right; by left]. }
    { destruct (Hsepn _ Hva) as [?|?]; [by left | right; by left]. }
    exists b, g. split; [done|]. by rewrite Hfr.
  - intros v.
    destruct (AddNetwork_frame spare h' c c' ci _ v Hc0 Hc' Hne Hvsa Hvsn)
      as (b & g & Hg & Hfr).
    { destruct (Hsepa _ Hvn) as [?|?]; [by left | right; by left]. }
    { destruct (Hsepn _ Hvn) as [?|?]; [by left | right; by left]. }
    exists b, g. split; [done|]. by rewrite Hfr.
Qed.

(** X20 at a heap whose original has spare capacity in its alias slice. *)
Lemma Clone_isolation_witness :
  heap.wf heap_example 1
  ∧ heap.load heap_example 1 = Some web_value
  ∧ ∃ c' h',
      heap.Clone heap_example 1 = Some (c', h')
      ∧ c' ≠ 1
      ∧ heap.load h' c' = Some web_value
      ∧ heap.load h' 1 = Some web_value
      ∧ (∀ v, ∃ g,
           heap.AddAlias (λ s, heap.slen s) h' c' v = Some ((AddAlias web_value v).1, g)
           ∧ heap.load g c' = Some (AddAlias web_value v).2
           ∧ heap.load g 1 = Some web_value)
      ∧ (∀ v, ∃ g,
           heap.AddNetwork (λ s, heap.slen s) h' c' v
           = Some ((AddNetwork web_value v).1, g)
           ∧ heap.load g c' = Some (AddNetwork web_value v).2
           ∧ heap.load g 1 = Some web_value)
      ∧ (∀ v, ∃ b g,
           heap.AddAlias (λ s, heap.slen s) h' 1 v = Some (b, g)
           ∧ heap.load g c' = Some web_value)
      ∧ (∀ v, ∃ b g,
           heap.AddNetwork (λ s, heap.slen s) h' 1 v = Some (b, g)
           ∧ heap.load g c' = Some web_value).
Proof.
  assert (heap.wf heap_example 1) as Hwf.
  { exists (heap.mkInfo "web" (heap.mkSlice 1 0 2 3) (heap.mkSlice 2 0 1 1)).
    split; [reflexivity|]. split.
    - split; [simpl; lia|]. right. exists ["www"; "webapp"; ""].
      split; [reflexivity | simpl; lia].
    - split; [simpl; lia|]. right. exists ["bridge"].
      split; [reflexivity | simpl; lia]. }
  split; [exact Hwf|]. split; [reflexivity|].
  exact (Clone_isolation (λ s, heap.slen s) heap_example 1 web_value Hwf eq_refl).
Defined.

(** ** The methods over the heap and on values *)

Section heap_refinement.

Import heap.

Variable spare : slice → nat.

Lemma append_elements (h : heap) (s : slice) (x : string) :
  valid h s →
  elements (append spare h s x).2 (append spare h s x).1 = elements h s ++ [x].
Proof.
  intros Hs. destruct (decide (slen s < scap s)) as [Hlt|Hge].
  - destruct Hs as [Hle [H0|(arr & Harr & Hin)]]; [lia|].
    unfold append. rewrite decide_True by done. cbn [fst snd].
    unfold elements. cbn [arrays sbase soff slen].
    rewrite lookup_alter_eq, Harr. cbn [fmap option_fmap option_map default].
    unfold id. rewrite drop_insert_ge by lia.
    replace (soff s + slen s - soff s) with (slen s) by lia.
    assert (slen s < length (drop (soff s) arr)) as Hk
      by (rewrite length_drop; lia).
    rewrite (take_S_r _ _ x) by (by apply list_lookup_insert_eq).
    by rewrite take_insert_ge.
  - apply append_full; [done|]. destruct Hs as [Hle _]. lia.
Qed.

Lemma append_valid (h : heap) (s : slice) (x : string) :
  valid h s → valid (append spare h s x).2 (append spare h s x).1.
Proof.
  intros Hs. pose proof (elements_length h s Hs) as Hlen.
  unfold append. destruct (decide (slen s < scap s)) as [Hlt|Hge]; cbn [fst snd].
  - destruct Hs as [Hle [H0|(arr & Harr & Hin)]]; [lia|].
    split; [simpl; lia|]. right. exists (<[soff s + slen s := x]> arr).
    split; [simpl; by rewrite lookup_alter_eq, Harr|].
    rewrite length_insert. simpl. done.
  - split; [simpl; lia|]. right. eexists. split; [apply lookup_insert_eq|].
    rewrite length_app. simpl. rewrite length_replicate, Hlen. lia.
Qed.

Lemma append_valid_other (h : heap) (s t : slice) (x : string) :
  valid h t → valid (append spare h s x).2 t.
Proof.
  intros Ht. unfold append. destruct (decide (slen s < scap s)); cbn [snd].
  - destruct Ht as [Hle [H0|(arr & Harr & Hin)]]; split; try done; [by left|].
    right. simpl. destruct (decide (sbase t = sbase s)) as [Heq|Hne].
    + exists (<[soff s + slen s := x]> arr).
      rewrite Heq, lookup_alter_eq, <- Heq, Harr. split; [done|].
      by rewrite length_insert.
    + exists arr. by rewrite lookup_alter_ne.
  - apply valid_insert_fresh; [done | apply is_fresh].
Qed.

Lemma append_base (h : heap) (s t : slice) (x : string) :
  valid h t → 0 < scap t → ¬ slen s < scap s →
  sbase (append spare h s x).1 ≠ sbase t.
Proof.
  intros [_ [H0|(arr & Harr & _)]] Hcap Hfull; [lia|].
  unfold append. rewrite decide_False by done. cbn [fst sbase].
  intros Heq. apply (is_fresh (dom (arrays h))). rewrite Heq.
  apply elem_of_dom. by eexists.
Qed.

Lemma append_props (h : heap) (s : slice) (x : string) :
  (slen s < scap s →
   sbase (append spare h s x).1 = sbase s
   ∧ scap (append spare h s x).1 = scap s)
  ∧ 0 < scap (append spare h s x).1.
Proof.
  unfold append. destruct (decide (slen s < scap s)); cbn [fst sbase scap].
  - split; [done | lia].
  - split; [done | lia].
Qed.

Lemma valid_arrays (h h' : heap) (t : slice) :
  arrays h' = arrays h → valid h t → valid h' t.
Proof. unfold valid. by intros ->. Qed.

Lemma separate_apart (h : heap) (a n : slice) :
  valid h n →
  scap a = 0 ∨ scap n = 0 ∨ sbase a ≠ sbase n → apart a n.
Proof.
  intros [Hle _] [Ha|[Hn|Hne]]; unfold apart.
  - left. lia.
  - right. right. lia.
  - right. left. congruence.
Qed.

Lemma append_separate (h : heap) (a n : slice) (x : string) :
  valid h n →
  scap a = 0 ∨ scap n = 0 ∨ sbase a ≠ sbase n →
  scap (append spare h a x).1 = 0 ∨ scap n = 0
  ∨ sbase (append spare h a x).1 ≠ sbase n.
Proof.
  intros Hn Hsep. destruct (decide (scap n = 0)) as [|Hcap]; [by right; left|].
  right. right. destruct (decide (slen a < scap a)) as [Hlt|Hge].
  - destruct (proj1 (append_props h a x) Hlt) as [-> _].
    destruct Hsep as [?|[?|?]]; [lia | done | done].
  - apply append_base; [done | lia | done].
Qed.

Lemma AddAlias_refines (h : heap) (c : loc) (ci : ContainerInfoH)
    (original : ContainerInfo) (v : string) :
  structs h !! c = Some ci →
  valid h (hAliases ci) → valid h (hNetworks ci) → separate ci →
  load h c = Some original →
  ∃ g cg,
    AddAlias spare h c v = Some ((models.AddAlias original v).1, g)
    ∧ load g c = Some (models.AddAlias original v).2
    ∧ structs g !! c = Some cg
    ∧ valid g (hAliases cg) ∧ valid g (hNetworks cg) ∧ separate cg.
Proof.
  intros Hc Hva Hvn Hsep Hload. unfold load in Hload. rewrite Hc in Hload.
  injection Hload as <-. unfold AddAlias, models.AddAlias. rewrite Hc.
  cbn [Aliases Name Networks].
  destruct (scan (elements h (hAliases ci)) v).
  { exists h, ci. unfold load. by rewrite Hc. }
  pose proof (append_elements h (hAliases ci) v Hva) as Ha.
  pose proof (append_frame spare h (hAliases ci) (hNetworks ci) v Hvn
                (separate_apart h _ _ Hvn Hsep)) as Hn.
  pose proof (append_valid h (hAliases ci) v Hva) as Hva2.
  pose proof (append_valid_other h (hAliases ci) (hNetworks ci) v Hvn) as Hvn2.
  pose proof (append_separate h (hAliases ci) (hNetworks ci) v Hvn Hsep) as Hsep2.
  destruct (append spare h (hAliases ci) v) as [s2 g2]. cbn [fst snd] in *.
  eexists _, _. split; [done|].
  split.
  { unfold load. cbn [structs hName hAliases hNetworks].
    rewrite lookup_insert_eq. f_equal.
    rewrite <- Ha, <- Hn. f_equal; by apply elements_arrays. }
  split; [apply lookup_insert_eq|].
  split; [by apply (valid_arrays g2)|]. split; [by apply (valid_arrays g2)|].
  done.
Qed.

Lemma AddNetwork_refines (h : heap) (c : loc) (ci : ContainerInfoH)
    (original : ContainerInfo) (v : string) :
  structs h !! c = Some ci →
  valid h (hAliases ci) → valid h (hNetworks ci) → separate ci →
  load h c = Some original →
  ∃ g cg,
    AddNetwork spare h c v = Some ((models.AddNetwork original v).1, g)
    ∧ load g c = Some (models.AddNetwork original v).2
    ∧ structs g !! c = Some cg
    ∧ valid g (hAliases cg) ∧ valid g (hNetworks cg) ∧ separate cg.
Proof.
  intros Hc Hva Hvn Hsep Hload. unfold load in Hload. rewrite Hc in Hload.
  injection Hload as <-. unfold AddNetwork, models.AddNetwork. rewrite Hc.
  cbn [Aliases Name Networks].
  destruct (scan (elements h (hNetworks ci)) v).
  { exists h, ci. unfold load. by rewrite Hc. }
  assert (scap (hNetworks ci) = 0 ∨ scap (hAliases ci) = 0
          ∨ sbase (hNetworks ci) ≠ sbase (hAliases ci)) as Hsep'.
  { destruct Hsep as [?|[?|?]]; [right; by left | by left | right; right].
    congruence. }
  pose proof (append_elements h (hNetworks ci) v Hvn) as Hn.
  pose proof (append_frame spare h (hNetworks ci) (hAliases ci) v Hva
                (separate_apart h _ _ Hva Hsep')) as Ha.
  pose proof (append_valid h (hNetworks ci) v Hvn) as Hvn2.
  pose proof (append_valid_other h (hNetworks ci) (hAliases ci) v Hva) as Hva2.
  pose proof (append_separate h (hNetworks ci) (hAliases ci) v Hva Hsep') as Hsep2.
  destruct (append spare h (hNetworks ci) v) as [s2 g2]. cbn [fst snd] in *.
  eexists _, _. split; [done|].
  split.
  { unfold load. cbn [structs hName hAliases hNetworks].
    rewrite lookup_insert_eq. f_equal.
    rewrite <- Ha, <- Hn. f_equal; by apply elements_arrays. }
  split; [apply lookup_insert_eq|].
  split; [by apply (valid_arrays g2)|]. split; [by apply (valid_arrays g2)|].
  unfold separate. cbn [hAliases hNetworks].
  destruct Hsep2 as [?|[?|?]]; [right; by left | by left | right; right].
  congruence.
Qed.

End heap_refinement.

(** X21. On a struct whose alias slice and network slice do not share an
    array, the methods over the heap do what the methods on values do:
    [AddAlias] and [AddNetwork] through the pointer return the result of the
    method on the value that the struct stood for, leave behind the pointer
    the struct that stands for the value the method gives, whether [append]
    wrote in place or took a new array, and the two slices are again valid
    and do not share an array. *)
Theorem heap_methods_refine (spare : heap.slice → nat) (h : heap.heap) (c : heap.loc)
    (ci : heap.ContainerInfoH) (original : ContainerInfo) (v : string) :
  heap.structs h !! c = Some ci →
  heap.valid h (heap.hAliases ci) → heap.valid h (heap.hNetworks ci) →
  heap.separate ci →
  heap.load h c = Some original →
  (∃ g cg,
     heap.AddAlias spare h c v = Some ((AddAlias original v).1, g)
     ∧ heap.load g c = Some (AddAlias original v).2
     ∧ heap.structs g !! c = Some cg
     ∧ heap.valid g (heap.hAliases cg) ∧ heap.valid g (heap.hNetworks cg)
     ∧ heap.separate cg)
  ∧ (∃ g cg,
       heap.AddNetwork spare h c v = Some ((AddNetwork original v).1, g)
       ∧ heap.load g c = Some (AddNetwork original v).2
       ∧ heap.structs g !! c = Some cg
       ∧ heap.valid g (heap.hAliases cg) ∧ heap.valid g (heap.hNetworks cg)
       ∧ heap.separate cg).
Proof.
  intros Hc Hva Hvn Hsep Hload. split.
  - by apply (AddAlias_refines spare h c ci).
  - by apply (AddNetwork_refines spare h c ci).
Qed.

(** X21 at the heap of the example, where [append] of an alias writes in
    place. *)
Lemma heap_methods_refine_witness :
  heap.load heap_example 1 = Some web_value
  ∧ ∃ g, heap.AddAlias (λ s, heap.slen s) heap_example 1 "w3"
         = Some (true, g)
         ∧ heap.load g 1
           = Some {| Name := "web"; Aliases := ["www"; "webapp"; "w3"];
                     Networks := ["bridge"] |}.
Proof.
  split; [reflexivity|].
  destruct (proj1 (heap_methods_refine (λ s, heap.slen s) heap_example 1
              (heap.mkInfo "web" (heap.mkSlice 1 0 2 3) (heap.mkSlice 2 0 1 1))
              web_value "w3" eq_refl
              ltac:(split; [simpl; lia|]; right; exists ["www"; "webapp"; ""];
                    split; [reflexivity | simpl; lia])
              ltac:(split; [simpl; lia|]; right; exists ["bridge"];
                    split; [reflexivity | simpl; lia])
              ltac:(right; right; simpl; lia)
              eq_refl))
    as (g & cg & Hg & Hl & _).
  exists g. split; [exact Hg | exact Hl].
Defined.
